(** * Stream and status aggregation of the ADK, with its retry policy

    A shallow embedding of
    - [google/adk/a2a/executor/task_result_aggregator.py]
      ([TaskResultAggregator]),
    - [google/adk/models/google_llm.py] ([RetryConfig],
      [retry_on_resumable_error], [Gemini._build_retry_wrapper], the
      streaming branch of [Gemini.generate_content_async] and the
      preprocessing of requests),
    - [google/adk/a2a/converters/request_converter.py] ([_get_user_id]),
    - [google/adk/tools/base_toolset.py] ([BaseToolset]),
    - [google/adk/flows/llm_flows/_output_schema_processor.py], and
    - [google/adk/artifacts/local_file_artifact_service.py]
      ([LocalFileArtifactService]),
    followed by the properties of the design document that concern them
    and by further properties of the code. *)

From Stdlib Require Import ZArith Lia.
From Stdlib.Strings Require Import Byte Ascii.
From Stdlib Require Import DecimalString DecimalNat.
From stdpp Require Import base decidable option list list_numbers functions strings
  sets gmap sorting.

(** ** The task-status aggregator *)

Module task_result_aggregator.

(** [a2a.types.TaskState].  The enumeration is declared by the a2a SDK that
    the module imports (lines 26-37); the aggregator itself names the
    members [working], [input_required], [auth_required] and [failed]. *)
Inductive TaskState :=
| submitted
| working
| input_required
| completed
| canceled
| failed
| rejected
| auth_required
| unknown.

#[global] Instance TaskState_eq_dec : EqDecision TaskState.
Proof. solve_decision. Defined.

(** [a2a.types.Message] is opaque to the aggregator, which only stores it. *)
Definition Message := string.

(** [a2a.types.TaskStatus]: the object behind [event.status]. *)
Record TaskStatus := {
  state : TaskState;
  message : option Message
}.

(** Python objects are shared by reference, and [process_event] writes to
    the status object of the event it is given.  A status object is named
    by its identity; the store maps every identity to the current value of
    its object. *)
Definition ref := nat.
Definition Store := ref -> TaskStatus.

(** [a2a.server.events.Event].  Only a [TaskStatusUpdateEvent] is looked
    at; it holds a reference to its status object, which the aggregator
    never rebinds.  Messages, tasks and artifact updates are [OtherEvent]. *)
Inductive Event :=
| TaskStatusUpdateEvent (status : ref)
| OtherEvent.

(** The two private attributes of [TaskResultAggregator]. *)
Record TaskResultAggregator := {
  _task_state : TaskState;
  _task_status_message : option Message
}.

(** [__init__] *)
Definition init : TaskResultAggregator :=
  {| _task_state := working; _task_status_message := None |}.

(** The two read-only properties. *)
Definition task_state (self : TaskResultAggregator) : TaskState :=
  _task_state self.

Definition task_status_message (self : TaskResultAggregator) : option Message :=
  _task_status_message self.

(** [==] and [!=] on enumeration members. *)
Definition state_eqb (a b : TaskState) : bool := bool_decide (a = b).

(** [process_event], lines 63-85.  The assignment of line 85 is the write
    to the store. *)
Definition process_event (self : TaskResultAggregator) (event : Event)
    (heap : Store) : TaskResultAggregator * Store :=
  match event with
  | TaskStatusUpdateEvent status =>
      let st := heap status in
      let self' :=
        if state_eqb (state st) failed then
          {| _task_state := failed; _task_status_message := message st |}
        else if state_eqb (state st) auth_required
                && negb (state_eqb (_task_state self) failed) then
          {| _task_state := auth_required; _task_status_message := message st |}
        else if state_eqb (state st) input_required
                && negb (state_eqb (_task_state self) failed
                         || state_eqb (_task_state self) auth_required) then
          {| _task_state := input_required; _task_status_message := message st |}
        else if state_eqb (_task_state self) working then
          {| _task_state := _task_state self; _task_status_message := message st |}
        else self in
      (self', <[status := {| state := working; message := message st |}]> heap)
  | OtherEvent => (self, heap)
  end.

(** The executor feeds the events of one run to the aggregator one after
    the other. *)
Definition process_events (events : list Event)
    (start : TaskResultAggregator * Store) : TaskResultAggregator * Store :=
  foldl (fun acc event => process_event acc.1 event acc.2) start events.

(** The precedence of the docstring: failed, then auth_required, then
    input_required, then working.  The members the docstring does not list
    take no precedence over [working]. *)
Definition precedence (s : TaskState) : nat :=
  match s with
  | failed => 3
  | auth_required => 2
  | input_required => 1
  | _ => 0
  end.

(** The status values an event sequence carries when it is handed over,
    that is, read in the store before any of it is processed. *)
Definition observed_states (heap : Store) (events : list Event) : list TaskState :=
  omap (fun event =>
          match event with
          | TaskStatusUpdateEvent status => Some (state (heap status))
          | OtherEvent => None
          end) events.

(** The highest-precedence status of a list, as the design document words
    it; an aggregator that has seen nothing reports [working]. *)
Definition highest_precedence (states : list TaskState) : TaskState :=
  foldl (fun best s => if precedence best <? precedence s then s else best)
        working states.

(** The ordered set of the design document's data model. *)
Definition ordered_states : list TaskState :=
  [working; input_required; auth_required; failed].

(** The member of [ordered_states] with a given precedence. *)
Definition state_of_precedence (n : nat) : TaskState :=
  match n with
  | 3 => failed
  | 2 => auth_required
  | 1 => input_required
  | _ => working
  end.

(** Membership in [ordered_states], in the form the proofs use. *)
Definition ordered (s : TaskState) : Prop :=
  state_of_precedence (precedence s) = s.

(** What relates the store during a run to the store the run started
    from: an object either still has its state, or it was processed, reads
    [working], and its former state is accounted for in the aggregate. *)
Definition accounted (self : TaskResultAggregator) (heap heap0 : Store) : Prop :=
  forall r, state (heap r) = state (heap0 r)
            \/ (state (heap r) = working
                /\ (precedence (state (heap0 r)) <= precedence (task_state self))%nat).

(** Sample data: three events, the first and the last sharing one status
    object. *)
Definition sample_store : Store :=
  fun r =>
    match r with
    | 0 => {| state := input_required; message := Some "need input" |}
    | 1 => {| state := failed; message := Some "boom" |}
    | _ => {| state := working; message := None |}
    end.

Definition failed_aggregator : TaskResultAggregator :=
  {| _task_state := failed; _task_status_message := Some "boom" |}.

Definition sample_events : list Event :=
  [TaskStatusUpdateEvent 0; TaskStatusUpdateEvent 1; OtherEvent;
   TaskStatusUpdateEvent 0].

End task_result_aggregator.

(** ** The exceptions of the remote call *)

Module errors.
#[local] Open Scope Z_scope.

(** What the wrapped SDK call can raise: [google.genai.errors.ClientError]
    (HTTP 4xx) and [ServerError] (HTTP 5xx), each with the status code that
    [retry_on_resumable_error] reads, and any other exception.
    [RetryError] is tenacity's own, raised by the retry loop. *)
Inductive Exception :=
| ClientError (code : Z) (message : string)
| ServerError (code : Z) (message : string)
| OtherException (name : string)
| RetryError.

End errors.

(** ** The part of tenacity that [_build_retry_wrapper] configures

    tenacity is a third-party package; this is the behaviour of
    [stop_after_attempt], [wait_exponential], [retry_if_exception] and of
    the loop of [Retrying], for the arguments the wrapper passes.  The
    wrapper passes Python [int]s.  [wait_exponential] keeps [multiplier]
    and [exp_base] as they are and converts [min] and [max] with
    [float()]; Python compares an [int] and a [float] by their exact
    values, and a [float] that comes from an [int] has an integral value,
    so every wait is given here by its exact value, an integer, whether
    Python holds it as an [int] or as a [float].  tenacity's [TryAgain]
    is a control signal of code written against tenacity, not an error of
    the remote call, and is not modelled. *)

Module tenacity.
Import errors.
#[local] Open Scope Z_scope.

(** The number with a significand of 53 bits that is nearest to an
    integer, ties to even, whatever its size.  Below [2 ^ 53] in absolute
    value it is the integer itself; above, the bits after the 53 leading
    ones are rounded away. *)
Definition nearest_double (z : Z) : Z :=
  let a := Z.abs z in
  if a <? 2 ^ 53 then z
  else
    let shift := Z.log2 a - 52 in
    let q := Z.shiftr a shift in
    let r := Z.land a (Z.ones shift) in
    let half := Z.shiftl 1 (shift - 1) in
    let q := if r <? half then q
             else if half <? r then q + 1
             else if Z.even q then q else q + 1 in
    Z.sgn z * Z.shiftl q shift.

(** [float(z)] of a Python [int]: the nearest IEEE 754 double, given by
    its exact value; [None] is the [OverflowError] of an [int] that is
    too large for a double. *)
Definition float (z : Z) : option Z :=
  let v := nearest_double z in
  if 2 ^ 1024 <=? Z.abs v then None else Some v.

(** [_utils.to_seconds(time_unit)] of a number: [float(time_unit)]. *)
Definition to_seconds (time_unit : Z) : option Z := float time_unit.

(** The exception of a conversion that overflows. *)
Definition OverflowError : Exception := OtherException "OverflowError".

Section result.
Context {R : Type}.

(** The outcome of one attempt: the call returned or raised. *)
Inductive Outcome :=
| Returned (result : R)
| Raised (error : Exception).

(** [RetryCallState]: the 1-based number of the attempt just made and its
    outcome. *)
Record RetryCallState := {
  attempt_number : Z;
  outcome : Outcome
}.

(** [stop_after_attempt(n)]: [attempt_number >= n]. *)
Definition stop_after_attempt (max_attempt_number : Z) (retry_state : RetryCallState)
    : bool :=
  max_attempt_number <=? attempt_number retry_state.

(** A [wait_exponential] object: the attributes that [__init__] sets.
    [wait_min] and [wait_max] are the values of the floats [self.min] and
    [self.max]. *)
Record wait_exponential := {
  wait_multiplier : Z;
  wait_min : Z;
  wait_max : Z;
  wait_exp_base : Z
}.

(** [wait_exponential.__init__(multiplier, max, exp_base, min)]: [min]
    and [max] go through [to_seconds], which raises for an [int] that no
    double can hold. *)
Definition wait_exponential_init (multiplier min max exp_base : Z)
    : Exception + wait_exponential :=
  match to_seconds min, to_seconds max with
  | Some self_min, Some self_max =>
      inr {| wait_multiplier := multiplier; wait_min := self_min;
             wait_max := self_max; wait_exp_base := exp_base |}
  | _, _ => inl OverflowError
  end.

(** [wait_exponential.__call__(retry_state)]:
    [max(max(0, self.min), min(self.multiplier * self.exp_base ** (attempt_number - 1), self.max))].
    The power and the product are taken on [int]s and cannot overflow. *)
Definition wait_exponential_call (self : wait_exponential)
    (retry_state : RetryCallState) : Z :=
  Z.max (Z.max 0 (wait_min self))
        (Z.min (wait_multiplier self
                * wait_exp_base self ^ (attempt_number retry_state - 1))
               (wait_max self)).

(** [retry_if_exception(predicate)]: the predicate on the exception of a
    failed attempt, and no retry of an attempt that returned. *)
Definition retry_if_exception (predicate : Exception -> bool)
    (retry_state : RetryCallState) : bool :=
  match outcome retry_state with
  | Raised error => predicate error
  | Returned _ => false
  end.

(** The arguments of [retry(...)]. *)
Record Retrying := {
  stop : RetryCallState -> bool;
  wait : RetryCallState -> Z;
  retry : RetryCallState -> bool;
  reraise : bool
}.

(** What one wrapped call amounts to: how it ended, how many times the
    underlying function was called, and the sleeps between the calls, in
    seconds and in order: the values that [sleep] is called with. *)
Record Run := {
  result : Outcome;
  attempts : Z;
  sleeps : list Z
}.

(** How the loop gives up: with [reraise] the exception of the last
    attempt is raised as it is, otherwise (or when the last attempt had
    returned) a [RetryError]. *)
Definition retry_error (reraise : bool) (last : Outcome) : Outcome :=
  match last with
  | Raised error => if reraise then Raised error else Raised RetryError
  | Returned _ => Raised RetryError
  end.

(** The loop of [Retrying]: make the attempt; return its outcome when
    [retry] declines it; give up when [stop] says so; otherwise sleep and
    go round again.  The sleep is [float] of what [wait] returns:
    [RetryAction(sleep)] and [DoSleep(sleep)], a [float], convert it, and
    a conversion that overflows ends the call with its exception.  The
    wrapped function is an effect: [fn k] is what its [k]-th call does.
    [fuel] bounds the number of rounds. *)
Fixpoint iter (fuel : nat) (self : Retrying) (fn : Z -> Outcome)
    (attempt : Z) (idle : list Z) : option Run :=
  match fuel with
  | O => None
  | S fuel =>
      let retry_state := {| attempt_number := attempt; outcome := fn attempt |} in
      if negb (retry self retry_state) then
        Some {| result := fn attempt; attempts := attempt; sleeps := idle |}
      else if stop self retry_state then
        Some {| result := retry_error (reraise self) (fn attempt);
                attempts := attempt; sleeps := idle |}
      else
        match float (wait self retry_state) with
        | Some sleep => iter fuel self fn (attempt + 1) (idle ++ [sleep])
        | None =>
            Some {| result := Raised OverflowError; attempts := attempt;
                    sleeps := idle |}
        end
  end.

(** The total time slept. *)
Definition total_delay (run : Run) : Z := foldr Z.add 0 (sleeps run).

End result.

Arguments Outcome : clear implicits.
Arguments RetryCallState : clear implicits.
Arguments Retrying : clear implicits.
Arguments Run : clear implicits.

End tenacity.

(** ** The retry policy of [google_llm.py] *)

Module retry_policy.
Import errors tenacity.
#[local] Open Scope Z_scope.

Section result.
Context {R : Type}.

(** [RetryConfig], lines 60-87.  tenacity calls whatever it is given as
    [retry=] with the state of the call, so a predicate of the
    configuration receives a [RetryCallState]. *)
Record RetryConfig := {
  initial_delay_sec : Z;
  expo_base : Z;
  max_delay_sec : Z;
  max_retries : Z;
  retry_predicate : option (RetryCallState R -> bool)
}.

(** [RetryConfig()] *)
Definition default_config : RetryConfig :=
  {| initial_delay_sec := 5; expo_base := 2; max_delay_sec := 60;
     max_retries := 5; retry_predicate := None |}.

(** [retry_on_resumable_error], lines 90-99. *)
Definition retry_on_resumable_error (error : Exception) : bool :=
  match error with
  | ClientError code _ => code =? 429
  | ServerError code _ => code =? 503
  | _ => false
  end.

(** [self.retry_config or RetryConfig()] *)
Definition config_of (retry_config : option RetryConfig) : RetryConfig :=
  default default_config retry_config.

(** [Gemini._build_retry_wrapper], lines 349-372: the wrapper, or the
    exception that building it raises.  [exp_base] is not passed to
    [wait_exponential], whose default for it is 2. *)
Definition _build_retry_wrapper (retry_config : option RetryConfig)
    : Exception + Retrying R :=
  let config := config_of retry_config in
  let retry_predicate :=
    match retry_predicate config with
    | Some predicate => predicate
    | None => retry_if_exception retry_on_resumable_error
    end in
  match wait_exponential_init (initial_delay_sec config) (initial_delay_sec config)
                              (max_delay_sec config) 2 with
  | inl error => inl error
  | inr wait =>
      inr {| stop := stop_after_attempt (max_retries config);
             wait := wait_exponential_call wait;
             retry := retry_predicate;
             reraise := true |}
  end.

(** Rounds that are enough for a budget of [max_retries]. *)
Definition rounds (retry_config : option RetryConfig) : nat :=
  S (Z.to_nat (max_retries (config_of retry_config) - 1)).

(** Lines 163-171 and 235-243: the wrapper is built, then
    [retry_annotation(fn)(...)], the wrapped call, is made from its first
    attempt.  [inl] is the exception of a wrapper that cannot be built:
    the underlying function is then never called. *)
Definition retryable_generate (retry_config : option RetryConfig)
    (fn : Z -> Outcome R) : Exception + option (Run R) :=
  match _build_retry_wrapper retry_config with
  | inl error => inl error
  | inr retry_annotation => inr (iter (rounds retry_config) retry_annotation fn 1 [])
  end.

(** The wait a wrapper computes after the attempt of 0-based index [n]:
    what its [wait] returns. *)
Definition wait_of (self : Retrying R) (n : Z) : Z :=
  wait self {| attempt_number := n + 1; outcome := Raised (ClientError 429 "") |}.

(** The seconds slept after the attempt of 0-based index [n] when it is
    retried: [float] of the wait of the wrapper built from the
    configuration; [None] when the wrapper cannot be built. *)
Definition wait_after (retry_config : option RetryConfig) (n : Z) : option Z :=
  match _build_retry_wrapper retry_config with
  | inl _ => None
  | inr self => float (wait_of self n)
  end.

(** The wait as the design document gives it:
    [min(max_delay, initial_delay * exponential_base^n)]. *)
Definition documented_wait (config : RetryConfig) (n : Z) : Z :=
  Z.min (max_delay_sec config) (initial_delay_sec config * expo_base config ^ n).

(** The bound of the design document on one run. *)
Definition documented_bound (config : RetryConfig) (run : Run R) : Prop :=
  attempts run <= max_retries config + 1
  /\ total_delay run <= max_retries config * max_delay_sec config.

End result.

Arguments RetryConfig : clear implicits.

(** Sample calls and policies. *)
Definition rate_limited : Outcome string := Raised (ClientError 429 "RESOURCE_EXHAUSTED").

Definition always_rate_limited (attempt : Z) : Outcome string := rate_limited.

Definition succeeds_at_third (attempt : Z) : Outcome string :=
  if attempt <? 3 then rate_limited else Returned "ok".


Definition scenario_config : RetryConfig string :=
  {| initial_delay_sec := 1; expo_base := 2; max_delay_sec := 60;
     max_retries := 5; retry_predicate := None |}.

Definition slow_start_config : RetryConfig string :=
  {| initial_delay_sec := 100; expo_base := 2; max_delay_sec := 1;
     max_retries := 3; retry_predicate := None |}.

Definition base3_config : RetryConfig string :=
  {| initial_delay_sec := 1; expo_base := 3; max_delay_sec := 60;
     max_retries := 5; retry_predicate := None |}.


(** A policy whose delays are not doubles: both round to [2 ^ 53]. *)
Definition rounded_config : RetryConfig string :=
  {| initial_delay_sec := 2 ^ 53 + 1; expo_base := 2; max_delay_sec := 2 ^ 53 + 1;
     max_retries := 5; retry_predicate := None |}.

End retry_policy.

(** ** The response types of the SDK

    [google.genai.types], as far as the streaming loop reads or builds
    them.  An optional field is an [option]; Python's truth test of a
    field is written out where the loop tests it. *)

Module types.

(** [FinishReason]; the loop names [STOP] only. *)
Inductive FinishReason :=
| FINISH_REASON_UNSPECIFIED
| STOP
| MAX_TOKENS
| SAFETY
| RECITATION
| LANGUAGE
| OTHER
| BLOCKLIST
| PROHIBITED_CONTENT
| SPII
| MALFORMED_FUNCTION_CALL.

#[global] Instance FinishReason_eq_dec : EqDecision FinishReason.
Proof. solve_decision. Defined.

(** [Blob]: inline bytes, audio for instance. *)
Record Blob := {
  data : option (list Byte.byte);
  mime_type : option string
}.

(** [Part]: one content segment. *)
Record Part := {
  text : option string;
  thought : option bool;
  inline_data : option Blob
}.

(** [Content] *)
Record Content := {
  parts : option (list Part);
  role : option string
}.

(** [GenerateContentResponseUsageMetadata] *)
Record GenerateContentResponseUsageMetadata := {
  prompt_token_count : option Z;
  candidates_token_count : option Z;
  total_token_count : option Z
}.

(** [Candidate] *)
Record Candidate := {
  content : option Content;
  finish_reason : option FinishReason;
  finish_message : option string
}.

(** [GenerateContentResponse]: one chunk of the stream. *)
Record GenerateContentResponse := {
  candidates : option (list Candidate);
  usage_metadata : option GenerateContentResponseUsageMetadata
}.

(** [Part(text=..., thought=True)] *)
Definition thought_part (s : string) : Part :=
  {| text := Some s; thought := Some true; inline_data := None |}.

(** [Part.from_text(text=...)] *)
Definition from_text (s : string) : Part :=
  {| text := Some s; thought := None; inline_data := None |}.

(** [ModelContent(parts=...)] *)
Definition ModelContent (ps : list Part) : Content :=
  {| parts := Some ps; role := Some "model" |}.

End types.

(** ** [LlmResponse]

    The fields of [google.adk.models.llm_response.LlmResponse] that the
    streaming loop reads or sets. *)

Module llm_response.

Record LlmResponse := {
  content : option types.Content;
  partial : option bool;
  error_code : option types.FinishReason;
  error_message : option string;
  usage_metadata : option types.GenerateContentResponseUsageMetadata
}.

(** [llm_response.partial = True] *)
Definition set_partial (r : LlmResponse) : LlmResponse :=
  {| content := content r; partial := Some true; error_code := error_code r;
     error_message := error_message r; usage_metadata := usage_metadata r |}.

End llm_response.

(** ** The streaming branch of [Gemini.generate_content_async] *)

Module google_llm.
Import llm_response.

(** Truth tests of Python: a string is true when it is not empty, an
    optional string or flag when it is set and true. *)
Definition nonempty (s : string) : bool :=
  match s with
  | EmptyString => false
  | String _ _ => true
  end.

Definition truthy_str (s : option string) : bool :=
  match s with
  | Some s => nonempty s
  | None => false
  end.

Definition truthy_flag (b : option bool) : bool :=
  match b with
  | Some b => b
  | None => false
  end.

(** [llm_response.content.parts[0]] where
    [llm_response.content and llm_response.content.parts] holds, and
    [None] where it does not. *)
Definition first_part (r : LlmResponse) : option types.Part :=
  match content r with
  | Some c =>
      match types.parts c with
      | Some (part0 :: _) => Some part0
      | _ => None
      end
  | None => None
  end.

(** The local variables of the loop, lines 172-175. *)
Record Locals := {
  response : option types.GenerateContentResponse;
  thought_text : string;
  text : string;
  usage_metadata : option types.GenerateContentResponseUsageMetadata
}.

Definition initial : Locals :=
  {| response := None; thought_text := ""; text := ""; usage_metadata := None |}.

(** The three [yield] statements of the streaming branch: the merged
    event of line 207, the chunk's own event of line 213 and the final
    event of line 223.  The label records where an event was yielded; the
    caller receives the events without it. *)
Inductive YieldSite :=
| merged_yield
| chunk_yield
| final_yield.

#[global] Instance YieldSite_eq_dec : EqDecision YieldSite.
Proof. solve_decision. Defined.

(** Lines 202-206 and 218-222: the thought part, if any, then the answer
    part, if any. *)
Definition merged_parts (thought_text text : string) : list types.Part :=
  (if nonempty thought_text then [types.thought_part thought_text] else [])
  ++ (if nonempty text then [types.from_text text] else []).

(** The event of lines 207-210. *)
Definition merged_event (thought_text text : string) (r : LlmResponse) : LlmResponse :=
  {| content := Some (types.ModelContent (merged_parts thought_text text));
     partial := None; error_code := None; error_message := None;
     llm_response.usage_metadata := llm_response.usage_metadata r |}.

(** The event of lines 223-232. *)
Definition final_event (st : Locals) (candidate0 : types.Candidate) : LlmResponse :=
  let stopped := bool_decide (types.finish_reason candidate0 = Some types.STOP) in
  {| content := Some (types.ModelContent (merged_parts (thought_text st) (text st)));
     partial := None;
     error_code := if stopped then None else types.finish_reason candidate0;
     error_message := if stopped then None else types.finish_message candidate0;
     llm_response.usage_metadata := usage_metadata st |}.

Section stream.

(** [LlmResponse.create] is defined in [llm_response.py]; the loop is
    read for any conversion of a chunk to an [LlmResponse]. *)
Variable create : types.GenerateContentResponse -> LlmResponse.

(** The body of the loop, lines 182-213, on one chunk: the new values of
    the local variables and the events yielded.  The first test is that of
    lines 185-189, the second that of lines 196-201 ([first_part] is
    [None] exactly when [not content or not content.parts]). *)
Definition loop_body (st : Locals) (chunk : types.GenerateContentResponse)
    : Locals * list (YieldSite * LlmResponse) :=
  let llm_response := create chunk in
  let usage := llm_response.usage_metadata llm_response in
  let has_text :=
    match first_part llm_response with
    | Some part0 => truthy_str (types.text part0)
    | None => false
    end in
  let no_inline_data :=
    match first_part llm_response with
    | Some part0 => negb (bool_decide (is_Some (types.inline_data part0)))
    | None => true
    end in
  if has_text then
    let part0_text := default "" (first_part llm_response ≫= types.text) in
    let part0_thought :=
      truthy_flag (first_part llm_response ≫= types.thought) in
    ({| response := Some chunk;
        thought_text := if part0_thought then thought_text st +:+ part0_text
                        else thought_text st;
        text := if part0_thought then text st else text st +:+ part0_text;
        usage_metadata := usage |},
     [(chunk_yield, set_partial llm_response)])
  else if (nonempty (thought_text st) || nonempty (text st)) && no_inline_data then
    ({| response := Some chunk; thought_text := ""; text := "";
        usage_metadata := usage |},
     [(merged_yield, merged_event (thought_text st) (text st) llm_response);
      (chunk_yield, llm_response)])
  else
    ({| response := Some chunk; thought_text := thought_text st; text := text st;
        usage_metadata := usage |},
     [(chunk_yield, llm_response)]).

(** [async for response in responses], from given local variables. *)
Fixpoint loop (st : Locals) (responses : list types.GenerateContentResponse)
    : Locals * list (YieldSite * LlmResponse) :=
  match responses with
  | [] => (st, [])
  | chunk :: responses =>
      let step := loop_body st chunk in
      let rest := loop step.1 responses in
      (rest.1, step.2 ++ rest.2)
  end.

(** Lines 217-232, after the loop. *)
Definition after_loop (st : Locals) : list (YieldSite * LlmResponse) :=
  if nonempty (text st) || nonempty (thought_text st) then
    match response st with
    | Some last =>
        match types.candidates last with
        | Some (candidate0 :: _) => [(final_yield, final_event st candidate0)]
        | _ => []
        end
    | None => []
    end
  else [].

(** Everything the streaming branch yields for a stream of chunks, each
    event with the place it was yielded at. *)
Definition labelled_stream (responses : list types.GenerateContentResponse)
    : list (YieldSite * LlmResponse) :=
  let run := loop initial responses in
  run.2 ++ after_loop run.1.

(** What the caller of [generate_content_async(stream=True)] receives. *)
Definition generate_content_async (responses : list types.GenerateContentResponse)
    : list LlmResponse :=
  (labelled_stream responses).*2.

(** *** Vocabulary of the properties *)

(** The two kinds of text. *)
Inductive Kind :=
| Thought
| Answer.

Definition kind_of_part (p : types.Part) : Kind :=
  if truthy_flag (types.thought p) then Thought else Answer.

Definition kind_eqb (a b : Kind) : bool :=
  match a, b with
  | Thought, Thought | Answer, Answer => true
  | _, _ => false
  end.

(** The concatenation of a list of strings. *)
Definition join (l : list string) : string := foldr String.append "" l.

(** The text of a part, when it is of the given kind. *)
Definition part_text (kind : Kind) (p : types.Part) : string :=
  if kind_eqb kind (kind_of_part p) then default "" (types.text p) else "".

(** The text of the given kind in the first content segment of a chunk. *)
Definition chunk_text (kind : Kind) (chunk : types.GenerateContentResponse) : string :=
  match first_part (create chunk) with
  | Some part0 => part_text kind part0
  | None => ""
  end.

(** The text of the given kind in all the content segments of a chunk. *)
Definition chunk_text_all_parts (kind : Kind) (chunk : types.GenerateContentResponse)
    : string :=
  match llm_response.content (create chunk) with
  | Some c => join (part_text kind <$> default [] (types.parts c))
  | None => ""
  end.

(** The text of the given kind that an event carries. *)
Definition event_text (kind : Kind) (event : LlmResponse) : string :=
  match content event with
  | Some c => join (part_text kind <$> default [] (types.parts c))
  | None => ""
  end.

(** A chunk carries binary data when its first segment has [inline_data]. *)
Definition is_binary (chunk : types.GenerateContentResponse) : bool :=
  match first_part (create chunk) with
  | Some part0 => bool_decide (is_Some (types.inline_data part0))
  | None => false
  end.

(** A chunk carries text when its first segment has a non-empty [text]. *)
Definition is_text (chunk : types.GenerateContentResponse) : bool :=
  match first_part (create chunk) with
  | Some part0 => truthy_str (types.text part0)
  | None => false
  end.

(** A merge boundary: a chunk with neither text nor binary data in its
    first segment.  Such a chunk flushes whatever is pending. *)
Definition is_boundary (chunk : types.GenerateContentResponse) : bool :=
  negb (is_text chunk) && negb (is_binary chunk).

(** The chunks that arrived after the last merge boundary. *)
Definition since_boundary (responses : list types.GenerateContentResponse)
    : list types.GenerateContentResponse :=
  foldl (fun acc chunk => if is_boundary chunk then [] else acc ++ [chunk])
        [] responses.

(** The text of a kind in the first segments since the last boundary, and
    in the first segments of the whole stream. *)
Definition pending (kind : Kind) (responses : list types.GenerateContentResponse)
    : string :=
  join (chunk_text kind <$> since_boundary responses).

Definition all_text (kind : Kind) (responses : list types.GenerateContentResponse)
    : string :=
  join (chunk_text kind <$> responses).

(** The same over all the segments of each chunk: what the design
    document's wording of the merge invariant takes a merged event to
    hold. *)
Definition pending_all_parts (kind : Kind)
    (responses : list types.GenerateContentResponse) : string :=
  join (chunk_text_all_parts kind <$> since_boundary responses).

(** The merge invariant as the design document words it: every merged
    event holds, for each kind, the text of the segments of that kind seen
    since the last merge boundary. *)
Definition documented_merge_invariant
    (responses : list types.GenerateContentResponse) : Prop :=
  (forall pre chunk post event kind,
     responses = pre ++ chunk :: post ->
     (merged_yield, event) ∈ (loop_body (loop initial pre).1 chunk).2 ->
     event_text kind event = pending_all_parts kind pre)
  /\ (forall event kind,
        (final_yield, event) ∈ labelled_stream responses ->
        event_text kind event = pending_all_parts kind responses).

(** The buffer of a kind. *)
Definition buffer (kind : Kind) (st : Locals) : string :=
  match kind with
  | Thought => thought_text st
  | Answer => text st
  end.

(** The events yielded at a given place. *)
Definition yielded_at (site : YieldSite) (out : list (YieldSite * LlmResponse))
    : list LlmResponse :=
  (filter (fun e => e.1 = site) out).*2.

(** The chunk's own event, as line 213 yields it. *)
Definition forwarded (chunk : types.GenerateContentResponse) : LlmResponse :=
  if is_text chunk then set_partial (create chunk) else create chunk.

(** What the code after the loop reads of a raw chunk: whether it has
    candidates, and the finish reason and message of the first one. *)
Definition candidate_summary (chunk : types.GenerateContentResponse) :=
  match types.candidates chunk with
  | Some (candidate0 :: _) =>
      Some (types.finish_reason candidate0, types.finish_message candidate0)
  | _ => None
  end.

(** What the aggregation reads of a chunk: its first content segment, the
    usage metadata of the converted chunk, and [candidate_summary]. *)
Definition chunk_summary (chunk : types.GenerateContentResponse) :=
  (first_part (create chunk),
   llm_response.usage_metadata (create chunk),
   candidate_summary chunk).

(** Two values of the local variables that the aggregation cannot tell
    apart. *)
Definition same_view (st1 st2 : Locals) : Prop :=
  thought_text st1 = thought_text st2
  /\ text st1 = text st2
  /\ usage_metadata st1 = usage_metadata st2
  /\ (response st1 ≫= candidate_summary) = (response st2 ≫= candidate_summary).

(** The events yielded while a chunk is processed that arrives after the
    chunks [pre]. *)
Definition yielded_for (pre : list types.GenerateContentResponse)
    (chunk : types.GenerateContentResponse) : list (YieldSite * LlmResponse) :=
  (loop_body (loop initial pre).1 chunk).2.

End stream.

(** *** Sample data

    A conversion that takes the content of the first candidate and the
    usage metadata of the chunk, and a few chunks. *)
Definition create_first_candidate (chunk : types.GenerateContentResponse)
    : LlmResponse :=
  match types.candidates chunk with
  | Some (candidate0 :: _) =>
      {| content := types.content candidate0; partial := None;
         error_code := None; error_message := None;
         llm_response.usage_metadata := types.usage_metadata chunk |}
  | _ =>
      {| content := None; partial := None; error_code := None;
         error_message := None;
         llm_response.usage_metadata := types.usage_metadata chunk |}
  end.

Definition candidate_of (ps : list types.Part) (reason : option types.FinishReason)
    : types.Candidate :=
  {| types.content := Some {| types.parts := Some ps; types.role := Some "model" |};
     types.finish_reason := reason;
     types.finish_message := None |}.

Definition chunk_of (ps : list types.Part) (reason : option types.FinishReason)
    : types.GenerateContentResponse :=
  {| types.candidates := Some [candidate_of ps reason];
     types.usage_metadata := None |}.

Definition answer_chunk (s : string) : types.GenerateContentResponse :=
  chunk_of [types.from_text s] None.

Definition thought_chunk (s : string) : types.GenerateContentResponse :=
  chunk_of [types.thought_part s] None.

Definition audio_blob : types.Blob :=
  {| types.data := Some []; types.mime_type := Some "audio/pcm" |}.

Definition audio_part : types.Part :=
  {| types.text := None; types.thought := None;
     types.inline_data := Some audio_blob |}.

Definition audio_chunk : types.GenerateContentResponse := chunk_of [audio_part] None.

Definition finish_chunk (reason : types.FinishReason) : types.GenerateContentResponse :=
  chunk_of [] (Some reason).

Definition two_part_chunk (a b : string) : types.GenerateContentResponse :=
  chunk_of [types.from_text a; types.from_text b] None.

Definition hello_chunks : list types.GenerateContentResponse :=
  [answer_chunk "Hel"; answer_chunk "lo"; finish_chunk types.STOP].

Definition hello_merged : LlmResponse :=
  merged_event "" "Hello" (create_first_candidate (finish_chunk types.STOP)).

Definition length_limited_chunk : types.GenerateContentResponse :=
  chunk_of [types.from_text "lo"] (Some types.MAX_TOKENS).

Definition length_limited_event : LlmResponse :=
  {| content := Some (types.ModelContent [types.from_text "Hello"]);
     partial := None;
     error_code := Some types.MAX_TOKENS;
     error_message := None;
     llm_response.usage_metadata := None |}.

Definition two_part_event : LlmResponse :=
  {| content := Some (types.ModelContent [types.from_text "a"]);
     partial := None; error_code := None; error_message := None;
     llm_response.usage_metadata := None |}.

Definition hi_pending : Locals :=
  (loop create_first_candidate initial [answer_chunk "Hi"]).1.

End google_llm.

(** ** The task-status aggregator, continued *)

Module task_status_runs.
Import task_result_aggregator.

(** The status objects of the status-update events of a sequence, in
    order. *)
Definition status_refs (events : list Event) : list ref :=
  omap (fun event =>
          match event with
          | TaskStatusUpdateEvent status => Some status
          | OtherEvent => None
          end) events.

(** Sample data: four events with a status object each. *)
Definition scenario_store : Store :=
  fun r =>
    match r with
    | 0 => {| state := working; message := Some "started" |}
    | 1 => {| state := input_required; message := Some "which file?" |}
    | 2 => {| state := failed; message := Some "disk full" |}
    | _ => {| state := working; message := Some "still trying" |}
    end.

Definition input_required_aggregator : TaskResultAggregator :=
  {| _task_state := input_required; _task_status_message := Some "which file?" |}.

End task_status_runs.

(** ** The retry policy, more sample data *)

Module retry_samples.
Import errors tenacity retry_policy.
#[local] Open Scope Z_scope.

Definition single_attempt_config : RetryConfig string :=
  {| initial_delay_sec := 5; expo_base := 2; max_delay_sec := 60;
     max_retries := 1; retry_predicate := None |}.

End retry_samples.

(** ** The request side of [google_llm.py]

    [_tracking_headers], the header update of [generate_content_async]
    (lines 155-160), [_preprocess_request] and
    [_remove_display_name_if_present]. *)

Module request_types.

(** [types.Blob] and [types.FileData], with the [display_name] that the
    preprocessing clears. *)
Module Blob.
Record t := {
  display_name : option string;
  data : option (list Byte.byte);
  mime_type : option string
}.
End Blob.

Module FileData.
Record t := {
  display_name : option string;
  file_uri : option string;
  mime_type : option string
}.
End FileData.

Record Part := {
  inline_data : option Blob.t;
  file_data : option FileData.t;
  text : option string
}.

Record Content := {
  parts : option (list Part);
  role : option string
}.

(** [types.HttpOptions] *)
Record HttpOptions := {
  headers : option (gmap string string);
  api_version : option string
}.

(** [types.GenerateContentConfig] *)
Record GenerateContentConfig := {
  labels : option (gmap string string);
  http_options : option HttpOptions;
  system_instruction : option string
}.

(** [LlmRequest] *)
Record LlmRequest := {
  model : option string;
  contents : list Content;
  config : option GenerateContentConfig
}.

(** [GoogleLLMVariant] *)
Inductive GoogleLLMVariant :=
| VERTEX_AI
| GEMINI_API.

End request_types.

Module request_preprocessing.
Import request_types.

Definition _AGENT_ENGINE_TELEMETRY_TAG : string := "remote_reasoning_engine".

(** [_tracking_headers], lines 266-277.  [adk_version] is
    [version.__version__], [engine_id] is what [os.environ.get] returns
    for [GOOGLE_CLOUD_AGENT_ENGINE_ID], and [python_version] is
    [sys.version.split()[0]]. *)
Definition version_header_value (adk_version : string) (engine_id : option string)
    (python_version : string) : string :=
  let framework_label := "google-adk/" +:+ adk_version in
  let framework_label :=
    if google_llm.truthy_str engine_id
    then framework_label +:+ "+" +:+ _AGENT_ENGINE_TELEMETRY_TAG
    else framework_label in
  let language_label := "gl-python/" +:+ python_version in
  framework_label +:+ " " +:+ language_label.

Definition _tracking_headers (adk_version : string) (engine_id : option string)
    (python_version : string) : gmap string string :=
  let version_header_value := version_header_value adk_version engine_id python_version in
  <["x-goog-api-client" := version_header_value]>
    (<["user-agent" := version_header_value]> ∅).

(** [dict.update]: the entries of [other] replace those of the same key. *)
Definition update (d other : gmap string string) : gmap string string := other ∪ d.

(** Lines 157-160: the tracking headers are written over the custom
    headers of the request, when it has HTTP options. *)
Definition add_tracking_headers (tracking_headers : gmap string string)
    (llm_request : LlmRequest) : LlmRequest :=
  match config llm_request with
  | Some cfg =>
      match http_options cfg with
      | Some options =>
          let current :=
            match headers options with
            | Some h => if bool_decide (h = ∅) then ∅ else h
            | None => ∅
            end in
          {| model := model llm_request;
             contents := contents llm_request;
             config :=
               Some {| labels := labels cfg;
                       http_options :=
                         Some {| headers := Some (update current tracking_headers);
                                 api_version := api_version options |};
                       system_instruction := system_instruction cfg |} |}
      | None => llm_request
      end
  | None => llm_request
  end.

(** [_remove_display_name_if_present], lines 452-461, on a [Blob] and on a
    [FileData]. *)
Definition _remove_display_name_if_present_blob (data_obj : option Blob.t)
    : option Blob.t :=
  match data_obj with
  | Some b =>
      if google_llm.truthy_str (Blob.display_name b)
      then Some {| Blob.display_name := None; Blob.data := Blob.data b;
                   Blob.mime_type := Blob.mime_type b |}
      else Some b
  | None => None
  end.

Definition _remove_display_name_if_present_file (data_obj : option FileData.t)
    : option FileData.t :=
  match data_obj with
  | Some f =>
      if google_llm.truthy_str (FileData.display_name f)
      then Some {| FileData.display_name := None;
                   FileData.file_uri := FileData.file_uri f;
                   FileData.mime_type := FileData.mime_type f |}
      else Some f
  | None => None
  end.

(** The two calls of lines 346-347 on one part. *)
Definition preprocess_part (part : Part) : Part :=
  {| inline_data := _remove_display_name_if_present_blob (inline_data part);
     file_data := _remove_display_name_if_present_file (file_data part);
     text := text part |}.

(** Lines 342-347 on one content; [if not content.parts: continue]. *)
Definition preprocess_content (content : Content) : Content :=
  match parts content with
  | Some (p :: ps) =>
      {| parts := Some (preprocess_part <$> (p :: ps)); role := role content |}
  | _ => content
  end.

(** [Gemini._preprocess_request], lines 334-347.  The parts are changed
    in place; the change of a part does not depend on any other, so the
    request after the call is the request with every part changed. *)
Definition _preprocess_request (_api_backend : GoogleLLMVariant)
    (llm_request : LlmRequest) : LlmRequest :=
  match _api_backend with
  | GEMINI_API =>
      {| model := model llm_request;
         contents := preprocess_content <$> contents llm_request;
         config :=
           match config llm_request with
           | Some cfg =>
               Some {| labels := None; http_options := http_options cfg;
                       system_instruction := system_instruction cfg |}
           | None => None
           end |}
  | VERTEX_AI => llm_request
  end.

(** All the parts of a request. *)
Definition all_parts (llm_request : LlmRequest) : list Part :=
  contents llm_request ≫= (fun content => default [] (parts content)).

(** What a part carries besides display names. *)
Definition payload (part : Part) :=
  (Blob.data <$> inline_data part, Blob.mime_type <$> inline_data part,
   FileData.file_uri <$> file_data part, FileData.mime_type <$> file_data part,
   text part).

(** Sample data. *)
Definition named_blob : Blob.t :=
  {| Blob.display_name := Some "photo.png"; Blob.data := Some [];
     Blob.mime_type := Some "image/png" |}.

Definition sample_request : LlmRequest :=
  {| model := Some "gemini-1.5-flash";
     contents :=
       [{| parts := Some [{| inline_data := Some named_blob; file_data := None;
                             text := None |}];
           role := Some "user" |}];
     config :=
       Some {| labels := Some (<["team" := "a"]> ∅);
               http_options :=
                 Some {| headers := Some (<["user-agent" := "mine"]>
                                            (<["x-trace" := "1"]> ∅));
                         api_version := None |};
               system_instruction := None |} |}.

Definition sample_options : HttpOptions :=
  {| headers := Some (<["user-agent" := "mine"]> (<["x-trace" := "1"]> ∅));
     api_version := None |}.

Definition sample_config : GenerateContentConfig :=
  {| labels := Some (<["team" := "a"]> ∅);
     http_options := Some sample_options;
     system_instruction := None |}.

End request_preprocessing.

(** ** [a2a/converters/request_converter.py] *)

Module request_converter.

(** The fields of the a2a [RequestContext] that the converter reads. *)
Record User := {
  user_name : string
}.

Record ServerCallContext := {
  user : option User
}.

Section parts.

(** The part types of a2a and of the SDK, and
    [convert_a2a_part_to_genai_part] of [part_converter.py]. *)
Variables A2APart GenaiPart : Type.
Variable convert_a2a_part_to_genai_part : A2APart -> GenaiPart.

Record Message := {
  parts : list A2APart
}.

Record RequestContext := {
  call_context : option ServerCallContext;
  context_id : option string;
  message : option Message
}.

(** [str(x)] of an optional string. *)
Definition str (x : option string) : string := default "None" x.

(** [_get_user_id], lines 45-55. *)
Definition _get_user_id (request : RequestContext) : string :=
  match call_context request with
  | Some cc =>
      match user cc with
      | Some u =>
          if google_llm.nonempty (user_name u) then user_name u
          else "A2A_USER_" +:+ str (context_id request)
      | None => "A2A_USER_" +:+ str (context_id request)
      end
  | None => "A2A_USER_" +:+ str (context_id request)
  end.

(** The dictionary that [convert_a2a_request_to_adk_run_args] returns. *)
Record RunArgs := {
  user_id : string;
  session_id : option string;
  new_message_role : string;
  new_message_parts : list GenaiPart
}.

Inductive Raises :=
| ValueError (reason : string).

(** [convert_a2a_request_to_adk_run_args], lines 59-78. *)
Definition convert_a2a_request_to_adk_run_args (request : RequestContext)
    : Raises + RunArgs :=
  match message request with
  | None => inl (ValueError "Request message cannot be None")
  | Some m =>
      inr {| user_id := _get_user_id request;
             session_id := context_id request;
             new_message_role := "user";
             new_message_parts := convert_a2a_part_to_genai_part <$> parts m |}
  end.

End parts.

Arguments call_context {A2APart}.
Arguments context_id {A2APart}.
Arguments message {A2APart}.
Arguments _get_user_id {A2APart}.
Arguments parts {A2APart}.

(** Sample data. *)
Definition alice_request : RequestContext unit :=
  {| call_context := Some {| user := Some {| user_name := "alice" |} |};
     context_id := Some "ctx-1";
     message := None |}.

Definition alice_context : ServerCallContext :=
  {| user := Some {| user_name := "alice" |} |}.

End request_converter.

(** ** [tools/base_toolset.py] *)

Module base_toolset.

Record FunctionDeclaration := {
  declaration_name : string;
  declaration_description : string
}.

(** A tool object: its [name], the attributes the toolset leaves alone,
    and [_get_declaration], which may read the current name of the tool
    it is bound to. *)
Record BaseTool := {
  name : string;
  description : string;
  is_long_running : bool;
  _get_declaration : string -> option FunctionDeclaration
}.

(** Tools are objects shared by reference: a toolset hands out the same
    objects at every call of [get_tools]. *)
Definition ref := nat.
Definition Heap := ref -> BaseTool.

(** [tool_filter]: a predicate or a list of names. *)
Inductive ToolFilter (ReadonlyContext : Type) :=
| Predicate (p : BaseTool -> option ReadonlyContext -> bool)
| Names (names : list string).

Arguments Predicate {ReadonlyContext}.
Arguments Names {ReadonlyContext}.

(** The attributes of [BaseToolset.__init__], and the lowercased class
    name that [tool_name_prefix] falls back to. *)
Record BaseToolset (ReadonlyContext : Type) := {
  tool_filter : option (ToolFilter ReadonlyContext);
  add_tool_name_prefix : bool;
  _tool_name_prefix : option string;
  class_name_lower : string
}.

Arguments tool_filter {ReadonlyContext}.
Arguments add_tool_name_prefix {ReadonlyContext}.
Arguments _tool_name_prefix {ReadonlyContext}.
Arguments class_name_lower {ReadonlyContext}.

Section toolset.
Context {ReadonlyContext : Type}.

(** The property [tool_name_prefix], lines 80-92. *)
Definition tool_name_prefix (self : BaseToolset ReadonlyContext) : string :=
  match _tool_name_prefix self with
  | Some prefix => prefix
  | None => class_name_lower self
  end.

(** [_is_tool_selected], lines 165-177; [not self.tool_filter] holds of
    [None] and of the empty list. *)
Definition _is_tool_selected (self : BaseToolset ReadonlyContext) (tool : BaseTool)
    (readonly_context : option ReadonlyContext) : bool :=
  match tool_filter self with
  | None => true
  | Some (Names []) => true
  | Some (Predicate p) => p tool readonly_context
  | Some (Names names) => bool_decide (name tool ∈ names)
  end.

(** One round of the loop of [get_prefixed_tools], lines 130-150. *)
Definition prefix_tool (prefix : string) (heap : Heap) (tool : ref) : Heap :=
  let original := heap tool in
  let prefixed_name := prefix +:+ "_" +:+ name original in
  <[tool := {| name := prefixed_name;
               description := description original;
               is_long_running := is_long_running original;
               _get_declaration := fun current =>
                 match _get_declaration original current with
                 | Some declaration =>
                     Some {| declaration_name := prefixed_name;
                             declaration_description :=
                               declaration_description declaration |}
                 | None => None
                 end |}]> heap.

(** [get_prefixed_tools], lines 108-152, on the tools that [get_tools]
    returned. *)
Definition get_prefixed_tools (self : BaseToolset ReadonlyContext)
    (tools : list ref) (heap : Heap) : list ref * Heap :=
  if negb (add_tool_name_prefix self) then (tools, heap)
  else (tools, foldl (prefix_tool (tool_name_prefix self)) heap tools).

(** The declaration a tool gives, as a caller obtains it. *)
Definition declaration_of (heap : Heap) (tool : ref) : option FunctionDeclaration :=
  _get_declaration (heap tool) (name (heap tool)).

End toolset.

(** A name with the prefix put in front of it a number of times, and the
    number of times a tool object occurs in a list of tools. *)
Definition prefixed (prefix : string) (times : nat) (name : string) : string :=
  Nat.iter times (fun name => prefix +:+ "_" +:+ name) name.

Definition occurrences (tool : ref) (tools : list ref) : nat :=
  length (filter (fun t => t = tool) tools).

(** Sample data. *)
Definition sample_tools : Heap :=
  fun r =>
    match r with
    | 0 => {| name := "query"; description := "runs a query";
              is_long_running := false;
              _get_declaration := fun current =>
                Some {| declaration_name := current;
                        declaration_description := "runs a query" |} |}
    | _ => {| name := "list_tables"; description := "lists tables";
              is_long_running := true;
              _get_declaration := fun _ => None |}
    end.

Definition sample_toolset : BaseToolset unit :=
  {| tool_filter := Some (Names []); add_tool_name_prefix := true;
     _tool_name_prefix := None; class_name_lower := "bigquerytoolset" |}.

End base_toolset.

(** ** [flows/llm_flows/_output_schema_processor.py], the response side *)

Module output_schema_processor.

(** What the processor reads of the agent: whether it is an [LlmAgent],
    whether it has an output schema, and how many tools it has. *)
Record Agent := {
  is_llm_agent : bool;
  has_output_schema : bool;
  tool_count : nat
}.

(** The session state, with the JSON text that [set_model_response]
    stores as the value of its key. *)
Definition State := gmap string string.

Section key.

(** [MODEL_JSON_RESPONSE_KEY] of [set_model_response_tool.py]. *)
Variable MODEL_JSON_RESPONSE_KEY : string.

(** [_OutputSchemaResponseProcessor.run_async], lines 66-102: the
    response and the state after the call.  The generator yields no
    event. *)
Definition response_processor (agent : Agent)
    (llm_response : llm_response.LlmResponse) (state : State)
    : llm_response.LlmResponse * State :=
  if negb (is_llm_agent agent) then (llm_response, state)
  else if negb (has_output_schema agent) || bool_decide (tool_count agent = 0) then
    (llm_response, state)
  else
    match state !! MODEL_JSON_RESPONSE_KEY with
    | Some model_response_json =>
        if google_llm.nonempty model_response_json then
          ({| llm_response.content :=
                Some {| types.parts :=
                          Some [{| types.text := Some model_response_json;
                                   types.thought := None;
                                   types.inline_data := None |}];
                        types.role := Some "model" |};
              llm_response.partial := llm_response.partial llm_response;
              llm_response.error_code := llm_response.error_code llm_response;
              llm_response.error_message := llm_response.error_message llm_response;
              llm_response.usage_metadata :=
                llm_response.usage_metadata llm_response |},
           delete MODEL_JSON_RESPONSE_KEY state)
        else (llm_response, state)
    | None => (llm_response, state)
    end.

End key.

(** Sample data. *)
Definition structured_agent : Agent :=
  {| is_llm_agent := true; has_output_schema := true; tool_count := 2 |}.

Definition sample_state : State :=
  <["temp:__adk_model_response__" := "{}"]> (<["turn" := "3"]> ∅).

Definition empty_response : llm_response.LlmResponse :=
  {| llm_response.content := None; llm_response.partial := None;
     llm_response.error_code := None; llm_response.error_message := None;
     llm_response.usage_metadata := None |}.

End output_schema_processor.

(** ** [artifacts/local_file_artifact_service.py]

    The service keeps its artifacts in files below [base_path].  The
    file system is a finite map from absolute paths to nodes, a path being
    the list of its components from the root; it has directories and
    regular files, and no symbolic links, permissions or limits on names
    and space.  A [Path] of [pathlib] is the list of its parts after the
    root, which may contain [..]; the system calls resolve it against the
    file system. *)

Module local_file_artifact_service.

Inductive Node :=
| File (content : list Byte.byte)
| Dir.

(** The exceptions that can leave the service.  [OSError] stands for its
    subclasses other than [FileNotFoundError], which [Path.mkdir] tells
    apart: [NotADirectoryError], [FileExistsError], [IsADirectoryError]
    and the like. *)
Inductive Raises :=
| FileNotFoundError
| OSError
| ValueError
| AttributeError
| TypeError.

(** What reading a metadata file back gives: [read_text], [json.loads]
    and the lookup of ["mime_type"], then [Part.from_bytes].  [Caught] is
    an [OSError], [JSONDecodeError] or [KeyError], which [_load_artifact]
    catches; [Uncaught] is any other exception. *)
Inductive Decoded :=
| Mime (mime_type : option string)
| Caught
| Uncaught.

(** *** Strings

    [str] of a non-negative and of any [int], [str.isdigit] and [int] of
    a string.  The names tested are ASCII; on ASCII strings [isdigit]
    holds of the non-empty strings of decimal digits. *)
Definition str (n : nat) : string := NilEmpty.string_of_uint (Nat.to_uint n).

Definition str_int (z : Z) : string :=
  if (z <? 0)%Z then String "-"%char (str (Z.to_nat (- z))) else str (Z.to_nat z).

Definition isdigit (s : string) : bool :=
  google_llm.nonempty s && bool_decide (is_Some (NilEmpty.uint_of_string s)).

Definition int (s : string) : nat :=
  from_option Nat.of_uint 0 (NilEmpty.uint_of_string s).

Fixpoint startswith (prefix s : string) : bool :=
  match prefix, s with
  | EmptyString, _ => true
  | String a prefix, String b s => Ascii.eqb a b && startswith prefix s
  | String _ _, EmptyString => false
  end.

(** *** Paths

    [s.split("/")], and the parts that [pathlib] makes of a name: the
    pieces between the slashes that are neither empty nor [.]. *)
Fixpoint split (s : string) : list string :=
  match s with
  | EmptyString => [EmptyString]
  | String c s =>
      if Ascii.eqb c "/"%char then EmptyString :: split s
      else
        match split s with
        | piece :: pieces => String c piece :: pieces
        | [] => [String c EmptyString]
        end
  end.

Definition parse_parts (name : string) : list string :=
  filter (fun piece => piece <> "" /\ piece <> ".") (split name).

(** [path / name]: an absolute name replaces the path; the parts of a
    relative name are appended to it.  [..] is kept as a part. *)
Definition joinpath (path : list string) (name : string) : list string :=
  if startswith "/" name then parse_parts name else path ++ parse_parts name.

(** A string without a slash and without a NUL. *)
Definition no_separator (s : string) : bool :=
  forallb (fun c => negb (Ascii.eqb c "/"%char) && negb (Ascii.eqb c "000"%char))
          (String.list_ascii_of_string s).

(** A path that no system call accepts: one with a NUL character. *)
Definition has_null (path : list string) : bool :=
  existsb (fun part => existsb (Ascii.eqb "000"%char) (String.list_ascii_of_string part))
          path.

(** A path whose parts name entries: none is [..] and none has a NUL. *)
Definition plain (path : list string) : bool :=
  negb (has_null path) && forallb (fun part => negb (String.eqb part "..")) path.

(** A name that is one part of a path: not empty, not [.] or [..],
    without a slash or a NUL. *)
Definition is_component (name : string) : bool :=
  bool_decide (parse_parts name = [name]) && plain [name].

(** *** The file system *)

(** The walk of the kernel along the parts of a path, from the directory
    [current]: every directory passed through must exist, [..] leads to
    the parent, and the root is its own parent.  The result is the place
    that the path names, whether or not there is anything there. *)
Fixpoint resolve_from (fs : gmap (list string) Node) (current path : list string)
    : Raises + list string :=
  match path with
  | [] => inr current
  | part :: path =>
      match fs !! current with
      | Some Dir =>
          resolve_from fs
            (if decide (part = "..") then removelast current else current ++ [part])
            path
      | Some (File _) => inl OSError
      | None => inl FileNotFoundError
      end
  end.

Definition resolve (fs : gmap (list string) Node) (path : list string)
    : Raises + list string :=
  if has_null path then inl ValueError else resolve_from fs [] path.

(** [os.stat] *)
Definition stat (fs : gmap (list string) Node) (path : list string)
    : Raises + Node :=
  match resolve fs path with
  | inl e => inl e
  | inr place =>
      match fs !! place with
      | Some node => inr node
      | None => inl FileNotFoundError
      end
  end.

(** [Path.exists], [Path.is_file] and [Path.is_dir]: false when [stat]
    fails. *)
Definition exists_ (fs : gmap (list string) Node) (path : list string) : bool :=
  match stat fs path with
  | inr _ => true
  | inl _ => false
  end.

Definition is_file (fs : gmap (list string) Node) (path : list string) : bool :=
  match stat fs path with
  | inr (File _) => true
  | _ => false
  end.

Definition is_dir (fs : gmap (list string) Node) (path : list string) : bool :=
  match stat fs path with
  | inr Dir => true
  | _ => false
  end.

Fixpoint strip_prefix (p q : list string) : option (list string) :=
  match p, q with
  | [], q => Some q
  | a :: p, b :: q => if decide (a = b) then strip_prefix p q else None
  | _ :: _, [] => None
  end.

(** The name of [q] when [q] is an entry of the directory [p]. *)
Definition child_name (p q : list string) : option string :=
  match strip_prefix p q with
  | Some [name] => Some name
  | _ => None
  end.

(** [Path.iterdir]: the names of the entries of a directory, in no
    particular order; the entry of name [n] is the path followed by
    [n]. *)
Definition iterdir (fs : gmap (list string) Node) (path : list string)
    : Raises + list string :=
  match resolve fs path with
  | inl e => inl e
  | inr place =>
      match fs !! place with
      | Some Dir => inr (omap (child_name place) (map_to_list fs).*1)
      | Some (File _) => inl OSError
      | None => inl FileNotFoundError
      end
  end.

(** [os.mkdir] *)
Definition os_mkdir (fs : gmap (list string) Node) (path : list string)
    : Raises + gmap (list string) Node :=
  match resolve fs path with
  | inl e => inl e
  | inr place =>
      match fs !! place with
      | Some _ => inl OSError
      | None => inr (<[place := Dir]> fs)
      end
  end.

(** [Path.mkdir(parents=False, exist_ok=True)]: the error, if any, and
    the file system left. *)
Definition mkdir_exist_ok (fs : gmap (list string) Node) (path : list string)
    : option Raises * gmap (list string) Node :=
  match os_mkdir fs path with
  | inr made => (None, made)
  | inl OSError => if is_dir fs path then (None, fs) else (Some OSError, fs)
  | inl e => (Some e, fs)
  end.

(** [Path.mkdir(parents=True, exist_ok=True)] of the path whose parts are
    [reversed], last part first: [os.mkdir]; when that finds no parent,
    the same for the parent and then [mkdir(parents=False, exist_ok=True)]. *)
Fixpoint mkdir_parents (fs : gmap (list string) Node) (reversed : list string)
    : option Raises * gmap (list string) Node :=
  match os_mkdir fs (rev reversed) with
  | inr made => (None, made)
  | inl FileNotFoundError =>
      match reversed with
      | [] => (Some FileNotFoundError, fs)
      | _ :: parent =>
          match mkdir_parents fs parent with
          | (Some e, fs1) => (Some e, fs1)
          | (None, fs1) => mkdir_exist_ok fs1 (rev reversed)
          end
      end
  | inl OSError => if is_dir fs (rev reversed) then (None, fs) else (Some OSError, fs)
  | inl e => (Some e, fs)
  end.

Definition mkdir (fs : gmap (list string) Node) (path : list string)
    : option Raises * gmap (list string) Node :=
  mkdir_parents fs (rev path).

(** [Path.write_bytes] and [Path.write_text]: the file is opened for
    writing, which creates or truncates it. *)
Definition write_bytes (fs : gmap (list string) Node) (path : list string)
    (content : list Byte.byte) : Raises + gmap (list string) Node :=
  match resolve fs path with
  | inl e => inl e
  | inr place =>
      match fs !! place with
      | Some Dir => inl OSError
      | _ => inr (<[place := File content]> fs)
      end
  end.

(** [Path.read_bytes] *)
Definition read_bytes (fs : gmap (list string) Node) (path : list string)
    : Raises + list Byte.byte :=
  match stat fs path with
  | inr (File content) => inr content
  | inr Dir => inl OSError
  | inl e => inl e
  end.

(** [os.rmdir]: of an empty directory other than the root, by a path that
    does not end in [..]. *)
Definition os_rmdir (fs : gmap (list string) Node) (path : list string)
    : Raises + gmap (list string) Node :=
  match resolve fs path with
  | inl e => inl e
  | inr place =>
      match fs !! place with
      | Some Dir =>
          if bool_decide (last path = Some ".." \/ place = []
                          \/ omap (child_name place) (map_to_list fs).*1 <> [])
          then inl OSError
          else inr (delete place fs)
      | Some (File _) => inl OSError
      | None => inl FileNotFoundError
      end
  end.

(** [shutil.rmtree]: everything below the directory is removed, then the
    directory itself, by its path.  The error, if any, and the file
    system left. *)
Definition rmtree (fs : gmap (list string) Node) (path : list string)
    : option Raises * gmap (list string) Node :=
  match resolve fs path with
  | inl e => (Some e, fs)
  | inr place =>
      match fs !! place with
      | Some Dir =>
          let emptied :=
            filter (fun entry => strip_prefix place entry.1 = None \/ entry.1 = place)
                   fs in
          match os_rmdir emptied path with
          | inl e => (Some e, emptied)
          | inr removed => (None, removed)
          end
      | Some (File _) => (Some OSError, fs)
      | None => (Some FileNotFoundError, fs)
      end
  end.

(** [sorted] of integers and of strings. *)
Definition sorted_ints (l : list nat) : list nat := merge_sort le l.

Definition str_le (a b : string) : Prop := String.leb a b = true.

#[global] Instance str_le_dec : RelDecision str_le.
Proof. intros a b. unfold str_le. apply _. Defined.

Definition sorted_strs (l : list string) : list string := merge_sort str_le l.

(** *** The service *)

(** The service object: [base_path], resolved by [__init__]. *)
Record LocalFileArtifactService := {
  base_path : list string
}.

(** [__init__], lines 43-51, for a base path that resolves to
    [resolved]: the service, the error of [mkdir], if any, and the file
    system left. *)
Definition __init__ (fs : gmap (list string) Node) (resolved : list string)
    : LocalFileArtifactService * option Raises * gmap (list string) Node :=
  let made := mkdir fs resolved in
  ({| base_path := resolved |}, made.1, made.2).

(** [_file_has_user_namespace] *)
Definition _file_has_user_namespace (filename : string) : bool :=
  startswith "user:" filename.

(** [_get_artifact_dir] *)
Definition _get_artifact_dir (self : LocalFileArtifactService)
    (app_name user_id session_id filename : string) : list string :=
  if _file_has_user_namespace filename
  then joinpath (joinpath (joinpath (joinpath (base_path self) app_name) user_id)
                          "user") filename
  else joinpath (joinpath (joinpath (joinpath (base_path self) app_name) user_id)
                          session_id) filename.

(** [_get_artifact_file_path] *)
Definition _get_artifact_file_path (self : LocalFileArtifactService)
    (app_name user_id session_id filename : string) (version : Z) : list string :=
  joinpath (_get_artifact_dir self app_name user_id session_id filename)
           (str_int version).

(** [_get_metadata_file_path] *)
Definition _get_metadata_file_path (self : LocalFileArtifactService)
    (app_name user_id session_id filename : string) (version : Z) : list string :=
  joinpath (_get_artifact_dir self app_name user_id session_id filename)
           (str_int version +:+ ".metadata.json").

(** [_list_versions] *)
Definition _list_versions (self : LocalFileArtifactService)
    (fs : gmap (list string) Node)
    (app_name user_id session_id filename : string) : Raises + list nat :=
  let artifact_dir := _get_artifact_dir self app_name user_id session_id filename in
  if negb (exists_ fs artifact_dir) then inr []
  else
    match iterdir fs artifact_dir with
    | inl e => inl e
    | inr names =>
        inr (sorted_ints
               (omap (fun name =>
                        if is_file fs (artifact_dir ++ [name]) && isdigit name
                        then Some (int name) else None) names))
    end.

(** [Part.from_bytes] *)
Definition from_bytes (data : list Byte.byte) (mime_type : option string)
    : types.Part :=
  {| types.text := None; types.thought := None;
     types.inline_data := Some {| types.data := Some data;
                                  types.mime_type := mime_type |} |}.

Section json.

(** [json.dumps({"mime_type": m})] as the bytes [write_text] stores, and
    the way back. *)
Variable json_dumps : option string -> list Byte.byte.
Variable json_loads_mime : list Byte.byte -> Decoded.

(** [_save_artifact]: the version returned or the exception raised, and
    the file system left. *)
Definition _save_artifact (self : LocalFileArtifactService)
    (fs : gmap (list string) Node)
    (app_name user_id session_id filename : string) (artifact : types.Part)
    : (Raises + nat) * gmap (list string) Node :=
  match _list_versions self fs app_name user_id session_id filename with
  | inl e => (inl e, fs)
  | inr versions =>
      let version :=
        match versions with
        | [] => 0
        | _ :: _ => max_list versions + 1
        end in
      let artifact_dir :=
        _get_artifact_dir self app_name user_id session_id filename in
      match mkdir fs artifact_dir with
      | (Some e, fs1) => (inl e, fs1)
      | (None, fs1) =>
          let artifact_file_path :=
            _get_artifact_file_path self app_name user_id session_id filename
                                    (Z.of_nat version) in
          let metadata_file_path :=
            _get_metadata_file_path self app_name user_id session_id filename
                                    (Z.of_nat version) in
          match types.inline_data artifact with
          | None => (inl AttributeError, fs1)
          | Some blob =>
              match types.data blob with
              | None => (inl TypeError, fs1)
              | Some data =>
                  match write_bytes fs1 artifact_file_path data with
                  | inl e => (inl e, fs1)
                  | inr fs2 =>
                      match write_bytes fs2 metadata_file_path
                                        (json_dumps (types.mime_type blob)) with
                      | inl e => (inl e, fs2)
                      | inr fs3 => (inr version, fs3)
                      end
                  end
              end
          end
      end
  end.

(** [_load_artifact] *)
Definition _load_artifact (self : LocalFileArtifactService)
    (fs : gmap (list string) Node)
    (app_name user_id session_id filename : string) (version : option Z)
    : Raises + option types.Part :=
  let resolved : Raises + option Z :=
    match version with
    | Some v => inr (Some v)
    | None =>
        match _list_versions self fs app_name user_id session_id filename with
        | inl e => inl e
        | inr [] => inr None
        | inr (v :: versions) => inr (Some (Z.of_nat (max_list (v :: versions))))
        end
    end in
  match resolved with
  | inl e => inl e
  | inr None => inr None
  | inr (Some v) =>
      let artifact_file_path :=
        _get_artifact_file_path self app_name user_id session_id filename v in
      let metadata_file_path :=
        _get_metadata_file_path self app_name user_id session_id filename v in
      if negb (exists_ fs artifact_file_path) || negb (exists_ fs metadata_file_path)
      then inr None
      else
        match read_bytes fs artifact_file_path with
        | inl _ => inr None
        | inr artifact_data =>
            match read_bytes fs metadata_file_path with
            | inl _ => inr None
            | inr metadata_text =>
                match json_loads_mime metadata_text with
                | Mime mime_type => inr (Some (from_bytes artifact_data mime_type))
                | Caught => inr None
                | Uncaught => inl TypeError
                end
            end
        end
  end.

End json.

(** The names of the directories in a directory, when it exists. *)
Definition directory_names (fs : gmap (list string) Node) (path : list string)
    : Raises + list string :=
  if negb (exists_ fs path) then inr []
  else
    match iterdir fs path with
    | inl e => inl e
    | inr names => inr (filter (fun name => is_dir fs (path ++ [name]) = true) names)
    end.

(** The directories that [_list_artifact_keys] reads. *)
Definition session_dir (self : LocalFileArtifactService)
    (app_name user_id session_id : string) : list string :=
  joinpath (joinpath (joinpath (base_path self) app_name) user_id) session_id.

Definition user_namespace_dir (self : LocalFileArtifactService)
    (app_name user_id : string) : list string :=
  joinpath (joinpath (joinpath (base_path self) app_name) user_id) "user".

(** [_list_artifact_keys] *)
Definition _list_artifact_keys (self : LocalFileArtifactService)
    (fs : gmap (list string) Node)
    (app_name user_id session_id : string) : Raises + list string :=
  match directory_names fs (session_dir self app_name user_id session_id) with
  | inl e => inl e
  | inr session_names =>
      match directory_names fs (user_namespace_dir self app_name user_id) with
      | inl e => inl e
      | inr user_names => inr (sorted_strs (remove_dups (session_names ++ user_names)))
      end
  end.

(** [_delete_artifact]: the exception raised, if any, and the file system
    left. *)
Definition _delete_artifact (self : LocalFileArtifactService)
    (fs : gmap (list string) Node)
    (app_name user_id session_id filename : string)
    : option Raises * gmap (list string) Node :=
  let artifact_dir := _get_artifact_dir self app_name user_id session_id filename in
  if exists_ fs artifact_dir then rmtree fs artifact_dir else (None, fs).

(** *** File systems the service works on

    A tree: the root is a directory, every other node lies in a
    directory, and the parts of every path name entries.  The service
    keeps its files apart from files of other names: every file is a
    version file, named by a number, or the metadata file of one. *)
Definition tree (fs : gmap (list string) Node) : Prop :=
  fs !! [] = Some Dir
  /\ forall p node,
       fs !! p = Some node ->
       plain p = true /\ (p <> [] -> fs !! removelast p = Some Dir).

Definition version_file_name (name : string) : Prop :=
  exists v : nat, name = str v \/ name = str v +:+ ".metadata.json".

Definition layout (fs : gmap (list string) Node) : Prop :=
  tree fs
  /\ forall p content,
       fs !! p = Some (File content) ->
       exists name, last p = Some name /\ version_file_name name.

(** The content of the regular file at a place, if there is one. *)
Definition file_content (fs : gmap (list string) Node) (place : list string)
    : option (list Byte.byte) :=
  match fs !! place with
  | Some (File content) => Some content
  | _ => None
  end.

(** Nothing in the way of saving to an artifact directory: no file on
    its path, and in it no directory with the name of a version file or
    of a metadata file. *)
Definition unobstructed (fs : gmap (list string) Node) (artifact_dir : list string)
    : Prop :=
  (forall k content, fs !! take k artifact_dir <> Some (File content))
  /\ (forall name, version_file_name name -> fs !! (artifact_dir ++ [name]) <> Some Dir).

(** Sample data: a toy encoding of the metadata for the examples. *)
Definition toy_dumps (mime_type : option string) : list Byte.byte :=
  match mime_type with
  | Some m => Byte.x53 :: String.list_byte_of_string m
  | None => [Byte.x4e]
  end.

Definition toy_loads (text : list Byte.byte) : Decoded :=
  match text with
  | b :: rest =>
      if Byte.eqb b Byte.x53 then Mime (Some (String.string_of_list_byte rest))
      else if Byte.eqb b Byte.x4e then Mime None else Caught
  | [] => Caught
  end.

Definition png : types.Part :=
  from_bytes [Byte.x89; Byte.x50] (Some "image/png").

(** A file system with nothing but the root, a service below [/srv] on
    it, and the file system after one version of one artifact has been
    saved. *)
Definition empty_fs : gmap (list string) Node := {[ [] := Dir ]}.

Definition srv : LocalFileArtifactService := {| base_path := ["srv"; "artifacts"] |}.

Definition one_report : gmap (list string) Node :=
  (_save_artifact toy_dumps srv (__init__ empty_fs ["srv"; "artifacts"]).2
     "app" "alice" "s1" "report.png" png).2.

End local_file_artifact_service.

(** * Properties of the task-status aggregator *)

Section task_result_aggregator_properties.
Import task_result_aggregator.

Example sample_run :
  let '(agg, heap) := process_events sample_events (init, sample_store) in
  task_state agg = failed /\ task_status_message agg = Some "boom"
  /\ state (heap 0) = working /\ state (heap 1) = working.
Proof. vm_compute. auto. Qed.

Lemma ordered_iff s : ordered s <-> s ∈ ordered_states.
Proof.
  unfold ordered, ordered_states. rewrite !elem_of_cons, elem_of_nil.
  destruct s; cbn; split; intros H; try discriminate; auto;
    decompose [or] H; try discriminate; try contradiction.
Qed.

(** One step raises the aggregate to the higher of its state and the
    event's, in precedence, and stays among the ordered states. *)
Lemma process_event_precedence self status heap :
  ordered (task_state self) ->
  let self' := (process_event self (TaskStatusUpdateEvent status) heap).1 in
  ordered (task_state self')
  /\ precedence (task_state self')
     = Nat.max (precedence (task_state self)) (precedence (state (heap status))).
Proof.
  unfold ordered, task_state. intros Hord. cbn.
  destruct self as [cur msg]; cbn in *.
  destruct (state (heap status)) eqn:Hst, cur; cbn in *;
    try discriminate; split; reflexivity.
Qed.

Lemma process_event_store self status heap r :
  (process_event self (TaskStatusUpdateEvent status) heap).2 r
  = if decide (status = r)
    then {| state := working; message := message (heap status) |}
    else heap r.
Proof.
  cbn. destruct (decide (status = r)) as [->|Hne].
  - apply fn_lookup_insert.
  - by apply fn_lookup_insert_ne.
Qed.

Lemma process_events_cons event events self heap :
  process_events (event :: events) (self, heap)
  = process_events events (process_event self event heap).
Proof. reflexivity. Qed.

Lemma observed_states_status heap status events :
  observed_states heap (TaskStatusUpdateEvent status :: events)
  = state (heap status) :: observed_states heap events.
Proof. reflexivity. Qed.

Lemma observed_states_other heap events :
  observed_states heap (OtherEvent :: events) = observed_states heap events.
Proof. reflexivity. Qed.

Lemma max_list_cons n ns : max_list (n :: ns) = Nat.max n (max_list ns).
Proof. reflexivity. Qed.

Lemma process_events_precedence events : forall self heap heap0,
  ordered (task_state self) ->
  accounted self heap heap0 ->
  task_state (process_events events (self, heap)).1
  = state_of_precedence
      (Nat.max (precedence (task_state self))
               (max_list (precedence <$> observed_states heap0 events))).
Proof.
  induction events as [|event events IH]; intros self heap heap0 Hord Hacc.
  - cbn. rewrite Nat.max_0_r. symmetry. exact Hord.
  - rewrite process_events_cons. destruct event as [status|].
    + pose proof (process_event_precedence self status heap Hord) as [Hord' Hmax].
      pose proof (process_event_store self status heap) as Hstore.
      destruct (process_event self (TaskStatusUpdateEvent status) heap)
        as [self' heap'].
      cbn [fst snd] in Hord', Hmax, Hstore.
      assert (Hsame : Nat.max (precedence (task_state self))
                              (precedence (state (heap status)))
                      = Nat.max (precedence (task_state self))
                                (precedence (state (heap0 status)))).
      { destruct (Hacc status) as [->|[-> Hle]]; [reflexivity|]. cbn. lia. }
      rewrite (IH self' heap' heap0 Hord').
      * rewrite observed_states_status, fmap_cons, max_list_cons.
        f_equal. rewrite Hmax, Hsame. lia.
      * intros r. rewrite Hstore.
        destruct (decide (status = r)) as [<-|Hne]; cbn [state].
        -- right. split; [reflexivity|]. rewrite Hmax, Hsame. lia.
        -- destruct (Hacc r) as [Heq|[Hw Hle]]; [by left|].
           right. split; [assumption|]. rewrite Hmax. lia.
    + rewrite observed_states_other. cbn [process_event]. by apply IH.
Qed.

Lemma highest_precedence_max states :
  highest_precedence states = state_of_precedence (max_list (precedence <$> states)).
Proof.
  unfold highest_precedence.
  enough (H : forall best, ordered best ->
            foldl (fun best s => if precedence best <? precedence s then s else best)
                  best states
            = state_of_precedence
                (Nat.max (precedence best) (max_list (precedence <$> states)))).
  { rewrite H by reflexivity. reflexivity. }
  induction states as [|s states IH]; intros best Hbest; cbn [foldl fmap list_fmap].
  - cbn. rewrite Nat.max_0_r. symmetry. exact Hbest.
  - rewrite max_list_cons.
    destruct (Nat.ltb_spec (precedence best) (precedence s)) as [Hlt|Hge].
    + rewrite IH.
      * f_equal. lia.
      * unfold ordered. destruct s; cbn in *; try reflexivity; lia.
    + rewrite IH by assumption. f_equal. lia.
Qed.

Lemma process_events_init events heap :
  task_state (process_events events (init, heap)).1
  = highest_precedence (observed_states heap events).
Proof.
  rewrite highest_precedence_max.
  rewrite (process_events_precedence events init heap heap).
  - reflexivity.
  - reflexivity.
  - intros r. by left.
Qed.

Lemma observed_states_Permutation heap events events' :
  events ≡ₚ events' -> observed_states heap events ≡ₚ observed_states heap events'.
Proof. intros H. unfold observed_states. by rewrite H. Qed.

(** C2.  Whatever the events and the order they arrive in, the final
    [task_state] is the highest-precedence status of the sequence under
    failed > auth_required > input_required > working: it is computed by
    [highest_precedence], it is the same for every reordering of the
    events, and when the sequence carries at least one status, all of them
    among the four ordered ones, it is one of the statuses carried and no
    status carried has a higher precedence. *)
Theorem final_state_highest_precedence (events : list Event) (heap : Store) :
  let final := task_state (process_events events (init, heap)).1 in
  final = highest_precedence (observed_states heap events)
  /\ (forall events', events ≡ₚ events' ->
        task_state (process_events events' (init, heap)).1 = final)
  /\ (observed_states heap events <> [] ->
      Forall (fun s => s ∈ ordered_states) (observed_states heap events) ->
      final ∈ observed_states heap events
      /\ Forall (fun s => (precedence s <= precedence final)%nat)
                (observed_states heap events)).
Proof.
  cbn zeta. split; [apply process_events_init|]. split.
  - intros events' Hperm. rewrite !process_events_init, !highest_precedence_max.
    by rewrite (observed_states_Permutation heap _ _ Hperm).
  - intros Hne Hall. rewrite process_events_init, highest_precedence_max.
    set (states := observed_states heap events) in *.
    assert (Hin : max_list (precedence <$> states) ∈ precedence <$> states).
    { apply max_list_elem_of. by destruct states. }
    apply list_elem_of_fmap in Hin as (s & Hs & Hin).
    assert (Hos : ordered s).
    { apply ordered_iff. rewrite Forall_forall in Hall. by apply Hall. }
    rewrite Hs, Hos. split; [assumption|].
    apply Forall_forall. intros s' Hin'. rewrite <- Hs.
    apply max_list_elem_of_le, list_elem_of_fmap. eauto.
Qed.

Lemma final_state_highest_precedence_witness :
  observed_states sample_store sample_events <> []
  /\ Forall (fun s => s ∈ ordered_states) (observed_states sample_store sample_events)
  /\ task_state (process_events sample_events (init, sample_store)).1
     ∈ observed_states sample_store sample_events.
Proof.
  assert (Hne : observed_states sample_store sample_events <> []) by discriminate.
  assert (Hall : Forall (fun s => s ∈ ordered_states)
                        (observed_states sample_store sample_events)).
  { cbn. repeat constructor. }
  split; [exact Hne|]. split; [exact Hall|].
  exact (proj1 (proj2 (proj2 (final_state_highest_precedence
                                sample_events sample_store)) Hne Hall)).
Defined.

Lemma process_event_keeps_working self event heap r :
  state (heap r) = working -> state ((process_event self event heap).2 r) = working.
Proof.
  intros Hw. destruct event as [status|]; [|exact Hw].
  rewrite process_event_store. by destruct (decide (status = r)).
Qed.

Lemma process_events_normalized events : forall self heap r,
  TaskStatusUpdateEvent r ∈ events \/ state (heap r) = working ->
  state ((process_events events (self, heap)).2 r) = working.
Proof.
  induction events as [|event events IH]; intros self heap r H.
  - destruct H as [H|H]; [by apply elem_of_nil in H|exact H].
  - rewrite process_events_cons.
    destruct (process_event self event heap) as [self' heap'] eqn:Hstep.
    apply IH. destruct H as [H|H].
    + apply elem_of_cons in H as [<-|H]; [|by left].
      right. pose proof (process_event_store self r heap r) as Hr.
      rewrite Hstep in Hr. cbn [snd] in Hr. rewrite Hr.
      by rewrite decide_True.
    + right. pose proof (process_event_keeps_working self event heap r H) as Hr.
      by rewrite Hstep in Hr.
Qed.

(** C8.  Whichever branch [process_event] takes on a task-status-update
    event, the status object of that event reads [working] afterwards,
    with its message untouched; so whoever receives the forwarded event,
    which holds the same object, sees [working].  After a whole run every
    status-update event of the run reads [working]. *)
Theorem event_status_normalized (self : TaskResultAggregator) (status : ref)
    (events : list Event) (heap : Store) :
  let heap' := (process_event self (TaskStatusUpdateEvent status) heap).2 in
  let final := (process_events events (self, heap)).2 in
  state (heap' status) = working
  /\ message (heap' status) = message (heap status)
  /\ Forall (fun event =>
               match event with
               | TaskStatusUpdateEvent r => state (final r) = working
               | OtherEvent => True
               end) events.
Proof.
  cbn zeta. rewrite process_event_store, decide_True by reflexivity.
  split; [reflexivity|]. split; [reflexivity|].
  apply Forall_forall. intros [r|] Hin; [|exact I].
  apply process_events_normalized. by left.
Qed.

Lemma process_event_failed self event heap :
  task_state self = failed -> task_state (process_event self event heap).1 = failed.
Proof.
  unfold task_state. intros Hf. destruct event as [status|]; [|exact Hf].
  destruct self as [cur msg]. cbn in Hf. subst cur. cbn.
  destruct (state (heap status)); reflexivity.
Qed.

(** C9.  Once [task_state] is [failed], processing a further event of any
    kind and any status, or any number of them, leaves it [failed]. *)
Theorem failed_is_irreversible (self : TaskResultAggregator) (heap : Store) :
  task_state self = failed ->
  (forall event, task_state (process_event self event heap).1 = failed)
  /\ (forall events, task_state (process_events events (self, heap)).1 = failed).
Proof.
  intros Hf. split; [intros event; by apply process_event_failed|].
  intros events. revert self heap Hf.
  induction events as [|event events IH]; intros self heap Hf; [exact Hf|].
  rewrite process_events_cons.
  pose proof (process_event_failed self event heap Hf) as Hstep.
  destruct (process_event self event heap) as [self' heap']. by apply IH.
Qed.

Lemma failed_is_irreversible_witness :
  task_state failed_aggregator = failed
  /\ task_state (process_events sample_events (failed_aggregator, sample_store)).1
     = failed.
Proof.
  split; [reflexivity|].
  apply (failed_is_irreversible failed_aggregator sample_store). reflexivity.
Defined.

End task_result_aggregator_properties.

(** * Properties of the retry policy *)

Section retry_properties.
Import errors tenacity retry_policy.
Context {R : Type}.
#[local] Open Scope Z_scope.

Implicit Types (self : Retrying R) (fn : Z -> Outcome R) (run : Run R).
Implicit Types (retry_config : option (RetryConfig R)) (config : RetryConfig R).

(** The scenario of the design document: two rate-limit errors, then
    success; three attempts, and sleeps of 1 and 2 seconds. *)
Example scenario_run :
  retryable_generate (Some scenario_config) succeeds_at_third
  = inr (Some {| result := Returned "ok"; attempts := 3; sleeps := [1; 2] |}).
Proof. reflexivity. Qed.

(** [float] is exact up to [2 ^ 53], rounds [2 ^ 53 + 1] down to the
    even neighbour, and overflows at [2 ^ 1024]. *)
Lemma nearest_double_exact (z : Z) : Z.abs z <= 2 ^ 53 -> nearest_double z = z.
Proof.
  intros Hz. unfold nearest_double.
  destruct (Z.ltb_spec (Z.abs z) (2 ^ 53)) as [|Hge]; [reflexivity|].
  assert (z = 2 ^ 53 \/ z = - 2 ^ 53) as [-> | ->] by lia; reflexivity.
Qed.

Lemma float_exact (z : Z) : Z.abs z <= 2 ^ 53 -> float z = Some z.
Proof.
  intros Hz. unfold float. rewrite (nearest_double_exact z Hz).
  destruct (Z.leb_spec (2 ^ 1024) (Z.abs z)) as [Hbig|]; [|reflexivity].
  assert (2 ^ 53 < 2 ^ 1024) by (apply Z.pow_lt_mono_r; lia). lia.
Qed.

Lemma float_Some (z v : Z) :
  float z = Some v <-> v = nearest_double z /\ Z.abs v < 2 ^ 1024.
Proof.
  unfold float. destruct (Z.leb_spec (2 ^ 1024) (Z.abs (nearest_double z))).
  - split; [discriminate|]. intros [-> ?]. lia.
  - split; [intros [= <-]; by split|]. by intros [-> _].
Qed.

(** The rounding of a number from [2 ^ 53] on, by quotient and remainder:
    with [s] the number of bits that do not fit, the result is the
    multiple of [2 ^ s] just below or just above, and the number itself
    when it is a multiple. *)
Lemma nearest_double_large (a : Z) :
  2 ^ 53 <= a ->
  let s := Z.log2 a - 52 in
  1 <= s
  /\ 2 ^ 52 <= a / 2 ^ s < 2 ^ 53
  /\ (nearest_double a = a / 2 ^ s * 2 ^ s
      \/ nearest_double a = (a / 2 ^ s + 1) * 2 ^ s)
  /\ (a mod 2 ^ s = 0 -> nearest_double a = a).
Proof.
  intros Ha. cbn zeta.
  assert (Hpos : 0 < a) by (assert (0 < 2 ^ 53) by (by apply Z.pow_pos_nonneg); lia).
  assert (Hlog : 53 <= Z.log2 a) by (by apply Z.log2_le_pow2).
  set (s := Z.log2 a - 52).
  assert (Hs : 1 <= s) by (unfold s; lia).
  destruct (Z.log2_spec a Hpos) as [Hlo Hhi].
  assert (H2s : 0 < 2 ^ s) by (apply Z.pow_pos_nonneg; lia).
  assert (Hq : 2 ^ 52 <= a / 2 ^ s < 2 ^ 53).
  { replace (Z.log2 a) with (52 + s) in Hlo by (unfold s; lia).
    replace (Z.succ (Z.log2 a)) with (53 + s) in Hhi by (unfold s; lia).
    rewrite Z.pow_add_r in Hlo, Hhi by lia. split.
    - apply Z.div_le_lower_bound; lia.
    - apply Z.div_lt_upper_bound; lia. }
  split; [exact Hs|]. split; [exact Hq|].
  unfold nearest_double. rewrite Z.abs_eq by lia.
  destruct (Z.ltb_spec a (2 ^ 53)) as [|_]; [lia|].
  fold s. rewrite Z.shiftr_div_pow2, Z.land_ones by lia.
  rewrite (Z.sgn_pos a Hpos), Z.mul_1_l.
  split.
  - destruct (_ <? _); [|destruct (_ <? _); [|destruct (Z.even _)]];
      rewrite Z.shiftl_mul_pow2 by lia; auto.
  - intros Hr. rewrite Hr.
    assert (Hhalf : 0 < Z.shiftl 1 (s - 1)).
    { rewrite Z.shiftl_mul_pow2 by lia.
      assert (0 < 2 ^ (s - 1)) by (apply Z.pow_pos_nonneg; lia). lia. }
    destruct (Z.ltb_spec 0 (Z.shiftl 1 (s - 1))) as [_|]; [|lia].
    rewrite Z.shiftl_mul_pow2 by lia.
    pose proof (Z.div_mod a (2 ^ s) ltac:(lia)). lia.
Qed.

(** A double from [2 ^ 53] on is a multiple of the power of two of its
    last bit. *)
Lemma double_multiple (f : Z) :
  2 ^ 53 <= f -> nearest_double f = f -> f mod 2 ^ (Z.log2 f - 52) = 0.
Proof.
  intros Hf Hfix.
  destruct (nearest_double_large f Hf) as (Hs & _ & [H|H] & _);
    rewrite Hfix in H; rewrite H at 1; apply Z.mod_mul;
    apply Z.pow_nonzero; lia.
Qed.

(** Rounding stays on the side of a double. *)
Lemma nearest_double_le (w f : Z) :
  0 <= w <= f -> nearest_double f = f -> nearest_double w <= f.
Proof.
  intros [Hw Hwf] Hfix.
  destruct (Z.le_gt_cases w (2 ^ 53)) as [Hsmall|Hlarge].
  { rewrite nearest_double_exact by lia. exact Hwf. }
  assert (Hw53 : 2 ^ 53 <= w) by lia. assert (Hf53 : 2 ^ 53 <= f) by lia.
  destruct (nearest_double_large w Hw53) as (Hs & Hq & Hnear & Hexact).
  pose proof (double_multiple f Hf53 Hfix) as Hmult.
  set (s := Z.log2 w - 52) in *. set (t := Z.log2 f - 52) in *.
  assert (Hst : s <= t) by (unfold s, t; pose proof (Z.log2_le_mono w f Hwf); lia).
  assert (H2s : 0 < 2 ^ s) by (apply Z.pow_pos_nonneg; lia).
  assert (Hfs : f mod 2 ^ s = 0).
  { apply Z.mod_divide; [lia|]. apply Z.mod_divide in Hmult;
      [|apply Z.pow_nonzero; lia].
    destruct Hmult as [k Hk]. exists (k * 2 ^ (t - s)).
    rewrite <- Z.mul_assoc, <- Z.pow_add_r by lia.
    by replace (t - s + s) with t by lia. }
  pose proof (Z.div_mod w (2 ^ s) ltac:(lia)) as Hdw.
  pose proof (Z.div_mod f (2 ^ s) ltac:(lia)) as Hdf.
  pose proof (Z.mod_pos_bound w (2 ^ s) H2s) as Hrw.
  rewrite Hfs in Hdf.
  destruct (decide (w mod 2 ^ s = 0)) as [Hr|Hr].
  { rewrite Hexact by exact Hr. exact Hwf. }
  assert (w / 2 ^ s < f / 2 ^ s) by nia.
  destruct Hnear as [-> | ->]; nia.
Qed.

Lemma nearest_double_ge (w f : Z) :
  0 <= f <= w -> nearest_double f = f -> f <= nearest_double w.
Proof.
  intros [Hf Hfw] Hfix.
  destruct (Z.le_gt_cases w (2 ^ 53)) as [Hsmall|Hlarge].
  { rewrite nearest_double_exact by lia. exact Hfw. }
  assert (Hw53 : 2 ^ 53 <= w) by lia.
  destruct (nearest_double_large w Hw53) as (Hs & Hq & Hnear & Hexact).
  set (s := Z.log2 w - 52) in *.
  assert (H2s : 0 < 2 ^ s) by (apply Z.pow_pos_nonneg; lia).
  assert (Hfloor : f <= w / 2 ^ s * 2 ^ s); [|destruct Hnear as [-> | ->]; nia].
  destruct (Z.le_gt_cases (2 ^ 53) f) as [Hf53|Hfsmall].
  - pose proof (double_multiple f Hf53 Hfix) as Hmult.
    set (t := Z.log2 f - 52) in *.
    assert (Hts : t <= s)
      by (unfold s, t; pose proof (Z.log2_le_mono f w Hfw); lia).
    destruct (decide (t = s)) as [Heq|Hne].
    + rewrite Heq in Hmult.
      pose proof (Z.div_mod w (2 ^ s) ltac:(lia)) as Hdw.
      pose proof (Z.div_mod f (2 ^ s) ltac:(lia)) as Hdf.
      pose proof (Z.mod_pos_bound w (2 ^ s) H2s) as Hrw.
      rewrite Hmult in Hdf.
      assert (f / 2 ^ s <= w / 2 ^ s) by (apply Z.div_le_mono; lia). nia.
    + assert (Hpos : 0 < f) by (assert (0 < 2 ^ 53) by (by apply Z.pow_pos_nonneg); lia).
      destruct (Z.log2_spec f Hpos) as [_ Hhi].
      assert (2 ^ Z.succ (Z.log2 f) <= 2 ^ (52 + s))
        by (apply Z.pow_le_mono_r; unfold s, t in *; lia).
      rewrite Z.pow_add_r in H by lia. nia.
  - assert (2 ^ 53 <= 2 ^ 52 * 2 ^ s); [|nia].
    change (2 ^ 53) with (2 ^ 52 * 2 ^ 1).
    apply Z.mul_le_mono_nonneg_l; [lia|]. apply Z.pow_le_mono_r; lia.
Qed.

(** What [float] gives is a double. *)
Lemma nearest_double_idem (z : Z) :
  0 <= z -> nearest_double (nearest_double z) = nearest_double z.
Proof.
  intros Hz.
  destruct (Z.le_gt_cases z (2 ^ 53)) as [Hsmall|Hlarge].
  { by rewrite !(nearest_double_exact z) by lia. }
  assert (Hz53 : 2 ^ 53 <= z) by lia.
  destruct (nearest_double_large z Hz53) as (Hs & Hq & Hnear & _).
  set (s := Z.log2 z - 52) in *. set (q := z / 2 ^ s) in *.
  assert (H2s : 0 < 2 ^ s) by (apply Z.pow_pos_nonneg; lia).
  assert (Hv : exists q', nearest_double z = q' * 2 ^ s /\ 2 ^ 52 <= q' <= 2 ^ 53).
  { destruct Hnear as [-> | ->]; eexists; (split; [reflexivity|lia]). }
  destruct Hv as (q' & -> & Hq').
  set (v := q' * 2 ^ s).
  assert (Hv53 : 2 ^ 53 <= v).
  { unfold v. change (2 ^ 53) with (2 ^ 52 * 2 ^ 1).
    apply Z.mul_le_mono_nonneg; try lia. apply Z.pow_le_mono_r; lia. }
  destruct (nearest_double_large v Hv53) as (_ & _ & _ & Hexact).
  apply Hexact.
  destruct (decide (q' = 2 ^ 53)) as [Heq|Hne].
  - assert (Hlog : Z.log2 v = 53 + s).
    { unfold v. rewrite Heq, <- Z.pow_add_r by lia. apply Z.log2_pow2. lia. }
    rewrite Hlog. replace (53 + s - 52) with (s + 1) by lia.
    unfold v. rewrite Heq, <- Z.pow_add_r by lia.
    replace (53 + s) with (52 + (s + 1)) by lia.
    rewrite Z.pow_add_r by lia. apply Z.mod_mul.
    apply Z.pow_nonzero; lia.
  - assert (Hlog : Z.log2 v = 52 + s).
    { apply Z.log2_unique; [lia|]. unfold v.
      replace (Z.succ (52 + s)) with (53 + s) by lia.
      rewrite !Z.pow_add_r by lia. nia. }
    rewrite Hlog. replace (52 + s - 52) with s by lia.
    unfold v. apply Z.mod_mul. lia.
Qed.

Lemma nearest_double_opp (z : Z) : nearest_double (- z) = - nearest_double z.
Proof.
  unfold nearest_double. rewrite Z.abs_opp, Z.sgn_opp.
  destruct (_ <? _); lia.
Qed.

Lemma nearest_double_nonneg (z : Z) : 0 <= nearest_double z -> 0 <= z.
Proof.
  intros Hv. destruct (Z.le_gt_cases 0 z) as [|Hneg]; [done|]. exfalso.
  pose proof (nearest_double_ge (- z) 1 ltac:(lia) eq_refl) as H.
  rewrite nearest_double_opp in H. lia.
Qed.

(** A non-negative value of [float] is a double below [2 ^ 1024]. *)
Lemma float_double (z v : Z) :
  float z = Some v -> 0 <= v -> nearest_double v = v /\ v < 2 ^ 1024.
Proof.
  intros [-> Hrange]%float_Some Hv. split; [|lia].
  apply nearest_double_idem. by apply nearest_double_nonneg.
Qed.

Example float_rounds :
  float (2 ^ 53 + 1) = Some (2 ^ 53) /\ float (2 ^ 53 + 3) = Some (2 ^ 53 + 4)
  /\ float (2 ^ 1024 - 2 ^ 970 - 1) = Some (2 ^ 1024 - 2 ^ 971)
  /\ float (2 ^ 1024 - 2 ^ 970) = None /\ float (2 ^ 1024) = None.
Proof. repeat split; vm_compute; reflexivity. Qed.

(** What a wrapper that could be built consists of. *)
Lemma build_retry_wrapper_inr retry_config self :
  _build_retry_wrapper retry_config = inr self ->
  exists fmin fmax,
    to_seconds (initial_delay_sec (config_of retry_config)) = Some fmin
    /\ to_seconds (max_delay_sec (config_of retry_config)) = Some fmax
    /\ self
       = {| stop := stop_after_attempt (max_retries (config_of retry_config));
            wait := wait_exponential_call
                      {| wait_multiplier := initial_delay_sec (config_of retry_config);
                         wait_min := fmin; wait_max := fmax; wait_exp_base := 2 |};
            retry := match retry_predicate (config_of retry_config) with
                     | Some predicate => predicate
                     | None => retry_if_exception retry_on_resumable_error
                     end;
            reraise := true |}.
Proof.
  unfold _build_retry_wrapper, wait_exponential_init.
  destruct (to_seconds (initial_delay_sec _)) as [fmin|];
    [destruct (to_seconds (max_delay_sec _)) as [fmax|]|]; try discriminate.
  intros [= <-]. eauto.
Qed.

(** Delays up to [2 ^ 53] in absolute value are doubles: the wrapper is
    built with them as they are. *)
Lemma build_retry_wrapper_exact retry_config :
  Z.abs (initial_delay_sec (config_of retry_config)) <= 2 ^ 53 ->
  Z.abs (max_delay_sec (config_of retry_config)) <= 2 ^ 53 ->
  _build_retry_wrapper retry_config
  = inr {| stop := stop_after_attempt (max_retries (config_of retry_config));
           wait := wait_exponential_call
                     {| wait_multiplier := initial_delay_sec (config_of retry_config);
                        wait_min := initial_delay_sec (config_of retry_config);
                        wait_max := max_delay_sec (config_of retry_config);
                        wait_exp_base := 2 |};
           retry := match retry_predicate (config_of retry_config) with
                    | Some predicate => predicate
                    | None => retry_if_exception retry_on_resumable_error
                    end;
           reraise := true |}.
Proof.
  intros Hinitial Hmax. unfold _build_retry_wrapper, wait_exponential_init, to_seconds.
  by rewrite (float_exact _ Hinitial), (float_exact _ Hmax).
Qed.

Lemma wait_exponential_bounded (self : wait_exponential)
    (retry_state : RetryCallState R) :
  Z.max 0 (wait_min self) <= wait_exponential_call self retry_state
  /\ wait_exponential_call self retry_state
     <= Z.max (wait_max self) (Z.max 0 (wait_min self)).
Proof. unfold wait_exponential_call. lia. Qed.

(** What a wrapper that could be built sleeps: the double nearest to
    its wait, which is within the limits of the backoff. *)
Lemma wrapper_sleep retry_config self (retry_state : RetryCallState R) :
  _build_retry_wrapper retry_config = inr self ->
  exists fmin fmax,
    float (initial_delay_sec (config_of retry_config)) = Some fmin
    /\ float (max_delay_sec (config_of retry_config)) = Some fmax
    /\ float (wait self retry_state) = Some (nearest_double (wait self retry_state))
    /\ Z.max 0 fmin <= nearest_double (wait self retry_state)
       <= Z.max fmax (Z.max 0 fmin).
Proof.
  intros Hbuild.
  destruct (build_retry_wrapper_inr _ _ Hbuild) as (fmin & fmax & Hmin & Hmax & ->).
  unfold to_seconds in Hmin, Hmax. cbn [wait].
  exists fmin, fmax. split; [exact Hmin|]. split; [exact Hmax|].
  pose proof (wait_exponential_bounded
                {| wait_multiplier := initial_delay_sec (config_of retry_config);
                   wait_min := fmin; wait_max := fmax; wait_exp_base := 2 |}
                retry_state) as Hwait.
  cbn [wait_min wait_max] in Hwait.
  set (w := wait_exponential_call _ retry_state) in *.
  assert (Hzero : nearest_double 0 = 0 /\ 0 < 2 ^ 1024)
    by (split; [reflexivity|by apply Z.pow_pos_nonneg]).
  assert (Hlo : nearest_double (Z.max 0 fmin) = Z.max 0 fmin
                /\ Z.max 0 fmin < 2 ^ 1024).
  { destruct (Z.max_spec 0 fmin) as [[Hlt ->]|[Hle ->]]; [|exact Hzero].
    apply (float_double _ _ Hmin). lia. }
  assert (Hhi : nearest_double (Z.max fmax (Z.max 0 fmin))
                = Z.max fmax (Z.max 0 fmin)
                /\ Z.max fmax (Z.max 0 fmin) < 2 ^ 1024).
  { destruct (Z.max_spec fmax (Z.max 0 fmin)) as [[Hlt ->]|[Hle ->]];
      [exact Hlo|].
    apply (float_double _ _ Hmax). lia. }
  assert (Hbounds : Z.max 0 fmin <= nearest_double w
                    <= Z.max fmax (Z.max 0 fmin)).
  { split.
    - apply nearest_double_ge; [lia|apply Hlo].
    - apply nearest_double_le; [lia|apply Hhi]. }
  split; [|exact Hbounds]. apply float_Some. split; [reflexivity|]. lia.
Qed.

Lemma iter_unfold fuel self fn attempt idle :
  iter (S fuel) self fn attempt idle
  = let retry_state := {| attempt_number := attempt; outcome := fn attempt |} in
    if negb (retry self retry_state) then
      Some {| result := fn attempt; attempts := attempt; sleeps := idle |}
    else if stop self retry_state then
      Some {| result := retry_error (reraise self) (fn attempt);
              attempts := attempt; sleeps := idle |}
    else
      match float (wait self retry_state) with
      | Some sleep => iter fuel self fn (attempt + 1) (idle ++ [sleep])
      | None =>
          Some {| result := Raised OverflowError; attempts := attempt;
                  sleeps := idle |}
      end.
Proof. reflexivity. Qed.

(** The loop ends: with [stop_after_attempt m], more rounds than there are
    attempt numbers left below [m] always produce a run. *)
Lemma iter_total self fn m :
  (forall retry_state, stop self retry_state = stop_after_attempt m retry_state) ->
  forall fuel attempt idle,
    (Z.to_nat (m - attempt) < fuel)%nat ->
    exists run, iter fuel self fn attempt idle = Some run.
Proof.
  intros Hstop. induction fuel as [|fuel IH]; intros attempt idle Hfuel; [lia|].
  rewrite iter_unfold. cbn zeta.
  destruct (negb (retry self _)); [eauto|].
  rewrite Hstop. unfold stop_after_attempt. cbn [attempt_number].
  destruct (Z.leb_spec m attempt) as [Hle|Hlt]; [eauto|].
  destruct (float _); [|eauto]. apply IH. lia.
Qed.

(** What a finished run looks like: the attempts stop at [m] at the
    latest, there is one sleep per attempt that was retried, and each
    sleep is the [float] of a value of [wait]. *)
Lemma iter_bounds self fn m V W :
  (forall retry_state, stop self retry_state = stop_after_attempt m retry_state) ->
  (forall retry_state sleep,
     float (wait self retry_state) = Some sleep -> V <= sleep <= W) ->
  forall fuel attempt idle run,
    iter fuel self fn attempt idle = Some run ->
    attempt <= attempts run <= Z.max attempt m
    /\ exists new, sleeps run = idle ++ new
                   /\ Z.of_nat (length new) = attempts run - attempt
                   /\ Forall (fun w => V <= w <= W) new.
Proof.
  intros Hstop Hwait. induction fuel as [|fuel IH]; intros attempt idle run Hrun;
    [discriminate|].
  rewrite iter_unfold in Hrun. cbn zeta in Hrun.
  destruct (negb (retry self _)).
  { injection Hrun as <-. cbn. split; [lia|].
    exists []. rewrite app_nil_r. cbn. repeat split; [lia|constructor]. }
  rewrite Hstop in Hrun. unfold stop_after_attempt in Hrun.
  cbn [attempt_number] in Hrun.
  destruct (Z.leb_spec m attempt) as [Hle|Hlt].
  { injection Hrun as <-. cbn. split; [lia|].
    exists []. rewrite app_nil_r. cbn. repeat split; [lia|constructor]. }
  destruct (float _) as [sleep|] eqn:Hsleep.
  2: { injection Hrun as <-. cbn. split; [lia|].
       exists []. rewrite app_nil_r. cbn. repeat split; [lia|constructor]. }
  apply IH in Hrun as (Hatt & new & Hsleeps & Hlen & Hall).
  split; [lia|].
  eexists (_ :: new). rewrite Hsleeps, <- app_assoc. cbn [app length].
  repeat split; [lia|]. constructor; [by eapply Hwait|exact Hall].
Qed.

Lemma foldr_add_app (idle new : list Z) :
  foldr Z.add 0 (idle ++ new) = foldr Z.add 0 idle + foldr Z.add 0 new.
Proof. induction idle as [|w idle IH]; cbn; lia. Qed.

Lemma foldr_add_bounded (new : list Z) V W :
  Forall (fun w => V <= w <= W) new ->
  foldr Z.add 0 new <= Z.of_nat (length new) * W.
Proof. induction 1 as [|w new Hw _ IH]; cbn [foldr length]; lia. Qed.

(** With an initial delay above the maximal delay every wait is the
    initial delay. *)
Lemma wait_initial_above_max config (n : Z) :
  0 <= max_delay_sec config < initial_delay_sec config ->
  initial_delay_sec config <= 2 ^ 53 ->
  0 <= n ->
  wait_after (Some config) n = Some (initial_delay_sec config).
Proof.
  intros Hdelay Hsmall Hn. unfold wait_after.
  rewrite build_retry_wrapper_exact by (cbn; lia).
  unfold wait_of. cbn [wait attempt_number]. unfold wait_exponential_call.
  cbn [wait_multiplier wait_min wait_max wait_exp_base attempt_number].
  change (config_of (Some config)) with config.
  rewrite float_exact by lia. f_equal. lia.
Qed.

Lemma client_error_not_retryable code message :
  code <> 429 -> retry_on_resumable_error (ClientError code message) = false.
Proof. intros Hne. cbn. by apply Z.eqb_neq. Qed.

Lemma server_error_not_retryable code message :
  code <> 503 -> retry_on_resumable_error (ServerError code message) = false.
Proof. intros Hne. cbn. by apply Z.eqb_neq. Qed.


End retry_properties.

Section retry_instances.
Import errors tenacity retry_policy.
#[local] Open Scope Z_scope.

(** C3.  The delay between two attempts is not bounded by
    [max_delay_sec], which the configuration documents as the maximum
    delay before the next retry: the wrapper passes [initial_delay_sec] as
    the [min] of [wait_exponential], and tenacity never waits less than
    [min].  With [initial_delay_sec = 100], [max_delay_sec = 1] and
    [max_retries = 3], a call that is always rate limited is tried three
    times with two sleeps of 100 seconds, 200 seconds in all, against a
    documented bound of [3 * 1] seconds; and whenever the initial delay
    exceeds the maximal delay, every wait is the initial delay. *)
Theorem max_delay_not_respected :
  retryable_generate (Some slow_start_config) always_rate_limited
  = inr (Some {| result := rate_limited; attempts := 3; sleeps := [100; 100] |})
  /\ max_delay_sec slow_start_config = 1
  /\ total_delay {| result := rate_limited; attempts := 3; sleeps := [100; 100] |}
     = 200
  /\ max_retries slow_start_config * max_delay_sec slow_start_config = 3
  /\ ~ documented_bound slow_start_config
         {| result := rate_limited; attempts := 3; sleeps := [100; 100] |}
  /\ forall (config : RetryConfig string) (n : Z),
       0 <= max_delay_sec config < initial_delay_sec config ->
       initial_delay_sec config <= 2 ^ 53 ->
       0 <= n ->
       wait_after (Some config) n = Some (initial_delay_sec config).
Proof.
  split; [reflexivity|]. split; [reflexivity|]. split; [reflexivity|].
  split; [reflexivity|]. split.
  - unfold documented_bound, total_delay. cbn. lia.
  - apply wait_initial_above_max.
Qed.

Lemma max_delay_not_respected_witness :
  0 <= max_delay_sec slow_start_config < initial_delay_sec slow_start_config
  /\ initial_delay_sec slow_start_config <= 2 ^ 53
  /\ 0 <= 1
  /\ wait_after (Some slow_start_config) 1 = Some 100.
Proof.
  destruct max_delay_not_respected as (_ & _ & _ & _ & _ & Hwait).
  split; [cbn; lia|]. split; [cbn; lia|]. split; [lia|].
  apply (Hwait slow_start_config 1); cbn; lia.
Defined.



(** C4.  The wait of the code is
    [max(max(0, initial), min(initial * 2^n, max_delay))]: the base is
    tenacity's default 2 whatever [expo_base] says.  With [expo_base = 3],
    [initial_delay_sec = 1] and [max_delay_sec = 60] the wait after the
    attempt of index 1 is 2 seconds where the documented formula gives 3,
    and in general the wait does not depend on [expo_base] at all. *)
Theorem wait_ignores_expo_base :
  wait_after (Some base3_config) 1 = Some 2
  /\ documented_wait base3_config 1 = 3
  /\ forall (initial base base' max_delay budget n : Z),
       wait_after (R := string)
         (Some {| initial_delay_sec := initial; expo_base := base;
                  max_delay_sec := max_delay; max_retries := budget;
                  retry_predicate := None |}) n
       = wait_after (R := string)
           (Some {| initial_delay_sec := initial; expo_base := base';
                    max_delay_sec := max_delay; max_retries := budget;
                    retry_predicate := None |}) n.
Proof. repeat split. Qed.

(** Where the code and the documented formula agree: base 2 and an
    initial delay between 0 and the maximal delay, which is a double. *)
Lemma wait_after_documented (config : RetryConfig string) (n : Z) :
  expo_base config = 2 ->
  0 <= n ->
  0 <= initial_delay_sec config <= max_delay_sec config ->
  max_delay_sec config <= 2 ^ 53 ->
  wait_after (Some config) n = Some (documented_wait config n).
Proof.
  intros Hbase Hn Hdelay Hsmall. unfold wait_after, documented_wait.
  rewrite build_retry_wrapper_exact by (cbn; lia).
  unfold wait_of. cbn [wait attempt_number]. unfold wait_exponential_call.
  cbn [wait_multiplier wait_min wait_max wait_exp_base attempt_number].
  change (config_of (Some config)) with config.
  rewrite Hbase. replace (n + 1 - 1) with n by lia.
  pose proof (Z.pow_pos_nonneg 2 n ltac:(lia) Hn) as Hpow.
  rewrite float_exact by nia. f_equal. nia.
Qed.

End retry_instances.

(** * Properties of the stream aggregator *)

Section stream_examples.
Import llm_response google_llm.

(** The scenario of the design document: two answer chunks and a chunk
    that only reports [STOP]. *)
Example hello_stream :
  event_text Answer
    <$> generate_content_async create_first_candidate
          [answer_chunk "Hel"; answer_chunk "lo"; finish_chunk types.STOP]
  = ["Hel"; "lo"; "Hello"; ""].
Proof. reflexivity. Qed.

Example hello_stream_sites :
  (labelled_stream create_first_candidate
     [answer_chunk "Hel"; answer_chunk "lo"; finish_chunk types.STOP]).*1
  = [chunk_yield; chunk_yield; merged_yield; chunk_yield].
Proof. reflexivity. Qed.

(** A stream that ends on a text chunk gets its merged event after the
    loop. *)
Example unterminated_stream :
  (fun e => (e.1, event_text Thought e.2, event_text Answer e.2))
    <$> labelled_stream create_first_candidate
          [thought_chunk "hm"; answer_chunk "Hi"; audio_chunk; answer_chunk "!"]
  = [(chunk_yield, "hm", ""); (chunk_yield, "", "Hi"); (chunk_yield, "", "");
     (chunk_yield, "", "!"); (final_yield, "hm", "Hi!")].
Proof. reflexivity. Qed.

End stream_examples.

Section stream_properties.
Import llm_response google_llm.
Variable create : types.GenerateContentResponse -> LlmResponse.

Implicit Types (st : Locals) (chunk : types.GenerateContentResponse).
Implicit Types (responses pre post : list types.GenerateContentResponse).
Implicit Types (kind : Kind) (event : LlmResponse).

(** Strings under concatenation. *)
Lemma append_nil_r (s : string) : s +:+ "" = s.
Proof.
  induction s as [|a s IH]; [reflexivity|].
  change (String a (s +:+ "") = String a s). by rewrite IH.
Qed.

Lemma append_assoc (s1 s2 s3 : string) : (s1 +:+ s2) +:+ s3 = s1 +:+ (s2 +:+ s3).
Proof.
  induction s1 as [|a s1 IH]; [reflexivity|].
  change (String a ((s1 +:+ s2) +:+ s3) = String a (s1 +:+ (s2 +:+ s3))).
  by rewrite IH.
Qed.

Lemma nonempty_false (s : string) : nonempty s = false -> s = "".
Proof. by destruct s. Qed.

Lemma join_app (l1 l2 : list string) : join (l1 ++ l2) = join l1 +:+ join l2.
Proof.
  unfold join. induction l1 as [|s l1 IH]; [reflexivity|].
  cbn [app foldr]. by rewrite IH, append_assoc.
Qed.

Lemma join_singleton (s : string) : join [s] = s.
Proof. apply append_nil_r. Qed.

(** A chunk without text in its first segment contributes no text. *)
Lemma chunk_text_no_text kind chunk :
  is_text create chunk = false -> chunk_text create kind chunk = "".
Proof.
  unfold is_text, chunk_text, part_text.
  destruct (first_part (create chunk)) as [part0|]; [|done].
  destruct (types.text part0) as [s|]; cbn; intros H.
  - apply nonempty_false in H as ->. by destruct (kind_eqb _ _).
  - by destruct (kind_eqb _ _).
Qed.

(** *** The loop body, case by case *)

Lemma loop_body_output st chunk :
  (loop_body create st chunk).2
  = (if is_boundary create chunk
        && (nonempty (thought_text st) || nonempty (text st))
     then [(merged_yield, merged_event (thought_text st) (text st) (create chunk))]
     else [])
    ++ [(chunk_yield, forwarded create chunk)].
Proof.
  unfold loop_body, is_boundary, forwarded, is_text, is_binary.
  destruct (first_part (create chunk)) as [part0|]; cbn [negb andb].
  - destruct (truthy_str (types.text part0)); cbn [negb andb]; [reflexivity|].
    destruct (bool_decide (is_Some (types.inline_data part0))); cbn [negb andb].
    + rewrite andb_false_r. reflexivity.
    + rewrite andb_true_r.
      destruct (nonempty (thought_text st) || nonempty (text st)); reflexivity.
  - rewrite andb_true_r.
    destruct (nonempty (thought_text st) || nonempty (text st)); reflexivity.
Qed.

Lemma loop_body_buffer st chunk kind :
  buffer kind (loop_body create st chunk).1
  = if is_boundary create chunk then ""
    else buffer kind st +:+ chunk_text create kind chunk.
Proof.
  unfold loop_body, is_boundary, is_text, is_binary, chunk_text, part_text,
    kind_of_part.
  destruct (first_part (create chunk)) as [part0|]; cbn [negb andb mbind option_bind].
  - destruct (types.text part0) as [s|]; cbn [truthy_str default].
    + destruct (nonempty s) eqn:Hs; cbn [negb andb].
      * destruct (truthy_flag (types.thought part0)), kind; cbn;
          by rewrite ?append_nil_r.
      * apply nonempty_false in Hs as ->.
        destruct (bool_decide (is_Some (types.inline_data part0)));
          cbn [negb andb]; rewrite ?andb_false_r, ?andb_true_r.
        -- destruct (kind_eqb _ _); by rewrite append_nil_r.
        -- destruct (nonempty (thought_text st)) eqn:H1,
             (nonempty (text st)) eqn:H2, kind; cbn; try reflexivity;
             by rewrite ?(nonempty_false _ H1), ?(nonempty_false _ H2).
    + destruct (bool_decide (is_Some (types.inline_data part0)));
        cbn [negb andb]; rewrite ?andb_false_r, ?andb_true_r.
      * destruct (kind_eqb _ _); by rewrite append_nil_r.
      * destruct (nonempty (thought_text st)) eqn:H1,
          (nonempty (text st)) eqn:H2, kind; cbn; try reflexivity;
          by rewrite ?(nonempty_false _ H1), ?(nonempty_false _ H2).
  - rewrite andb_true_r.
    destruct (nonempty (thought_text st)) eqn:H1,
      (nonempty (text st)) eqn:H2, kind; cbn; try reflexivity;
      by rewrite ?(nonempty_false _ H1), ?(nonempty_false _ H2).
Qed.

Lemma loop_body_response st chunk :
  response (loop_body create st chunk).1 = Some chunk
  /\ usage_metadata (loop_body create st chunk).1
     = llm_response.usage_metadata (create chunk).
Proof.
  unfold loop_body.
  repeat match goal with |- context [if ?b then _ else _] => destruct b end;
    by split.
Qed.

(** *** The loop over a stream *)

Lemma loop_cons st chunk responses :
  loop create st (chunk :: responses)
  = ((loop create (loop_body create st chunk).1 responses).1,
     (loop_body create st chunk).2
     ++ (loop create (loop_body create st chunk).1 responses).2).
Proof. reflexivity. Qed.

Lemma loop_app responses : forall st post,
  loop create st (responses ++ post)
  = ((loop create (loop create st responses).1 post).1,
     (loop create st responses).2
     ++ (loop create (loop create st responses).1 post).2).
Proof.
  induction responses as [|chunk responses IH]; intros st post.
  - cbn. by destruct (loop create st post).
  - cbn [app]. rewrite !loop_cons, IH. cbn [fst snd]. by rewrite app_assoc.
Qed.

Lemma loop_snoc st responses chunk :
  (loop create st (responses ++ [chunk])).1
  = (loop_body create (loop create st responses).1 chunk).1.
Proof. rewrite loop_app. reflexivity. Qed.

Lemma since_boundary_snoc responses chunk :
  since_boundary create (responses ++ [chunk])
  = if is_boundary create chunk then []
    else since_boundary create responses ++ [chunk].
Proof. unfold since_boundary. by rewrite foldl_snoc. Qed.

Lemma pending_snoc kind responses chunk :
  pending create kind (responses ++ [chunk])
  = if is_boundary create chunk then ""
    else pending create kind responses +:+ chunk_text create kind chunk.
Proof.
  unfold pending. rewrite since_boundary_snoc.
  destruct (is_boundary create chunk); [reflexivity|].
  rewrite fmap_app, join_app. f_equal. apply join_singleton.
Qed.

(** The two buffers hold the first-segment text that arrived since the
    last merge boundary. *)
Lemma buffer_pending kind responses :
  buffer kind (loop create initial responses).1 = pending create kind responses.
Proof.
  induction responses as [|chunk responses IH] using rev_ind.
  - by destruct kind.
  - by rewrite loop_snoc, loop_body_buffer, pending_snoc, IH.
Qed.

(** *** Merged events *)

Lemma merged_parts_text kind (thought_text text : string) :
  join (part_text kind <$> merged_parts thought_text text)
  = match kind with Thought => thought_text | Answer => text end.
Proof.
  unfold merged_parts.
  destruct (nonempty thought_text) eqn:H1, (nonempty text) eqn:H2, kind;
    cbn; rewrite ?append_nil_r; try reflexivity;
    by rewrite ?(nonempty_false _ H1), ?(nonempty_false _ H2).
Qed.

Lemma merged_event_text kind (thought_text text : string) event :
  event_text kind (merged_event thought_text text event)
  = match kind with Thought => thought_text | Answer => text end.
Proof. apply merged_parts_text. Qed.

Lemma final_event_text kind st candidate0 :
  event_text kind (final_event st candidate0) = buffer kind st.
Proof. unfold event_text, final_event. cbn. rewrite merged_parts_text. by destruct kind. Qed.

Lemma yielded_at_app site (out1 out2 : list (YieldSite * LlmResponse)) :
  yielded_at site (out1 ++ out2) = yielded_at site out1 ++ yielded_at site out2.
Proof. unfold yielded_at. by rewrite filter_app, fmap_app. Qed.

Lemma loop_body_merged st chunk event :
  (merged_yield, event) ∈ (loop_body create st chunk).2 ->
  event = merged_event (thought_text st) (text st) (create chunk).
Proof.
  rewrite loop_body_output.
  destruct (is_boundary create chunk && _); cbn;
    rewrite ?elem_of_cons, elem_of_nil; intros H; decompose [or] H;
    try contradiction; congruence.
Qed.

Lemma is_boundary_no_text chunk :
  is_boundary create chunk = true -> is_text create chunk = false.
Proof. unfold is_boundary. by destruct (is_text create chunk). Qed.

Lemma loop_body_yielded_merged st chunk :
  yielded_at merged_yield (loop_body create st chunk).2
  = if is_boundary create chunk
       && (nonempty (thought_text st) || nonempty (text st))
    then [merged_event (thought_text st) (text st) (create chunk)] else [].
Proof.
  rewrite loop_body_output. by destruct (is_boundary create chunk && _).
Qed.

Lemma loop_body_yielded_chunk st chunk :
  yielded_at chunk_yield (loop_body create st chunk).2 = [forwarded create chunk].
Proof.
  rewrite loop_body_output. by destruct (is_boundary create chunk && _).
Qed.

Lemma loop_yielded_chunk responses : forall st,
  yielded_at chunk_yield (loop create st responses).2 = forwarded create <$> responses.
Proof.
  induction responses as [|chunk responses IH]; intros st; [reflexivity|].
  rewrite loop_cons. cbn [snd].
  by rewrite yielded_at_app, loop_body_yielded_chunk, IH.
Qed.

Lemma loop_body_sites st chunk e :
  e ∈ (loop_body create st chunk).2 -> e.1 <> final_yield.
Proof.
  rewrite loop_body_output.
  destruct (is_boundary create chunk && _); cbn;
    rewrite ?elem_of_cons, elem_of_nil; intros H; decompose [or] H;
    try contradiction; by subst.
Qed.

Lemma loop_sites responses : forall st e,
  e ∈ (loop create st responses).2 -> e.1 <> final_yield.
Proof.
  induction responses as [|chunk responses IH]; intros st e.
  - cbn. by rewrite elem_of_nil.
  - rewrite loop_cons. cbn [snd]. rewrite elem_of_app. intros [H|H].
    + by eapply loop_body_sites.
    + by eapply IH.
Qed.

Lemma after_loop_yielded st e :
  e ∈ after_loop st ->
  exists candidate0, e = (final_yield, final_event st candidate0).
Proof.
  unfold after_loop.
  destruct (nonempty (text st) || nonempty (thought_text st));
    [|by rewrite elem_of_nil].
  destruct (response st) as [last|]; [|by rewrite elem_of_nil].
  destruct (types.candidates last) as [[|candidate0 rest]|];
    rewrite ?elem_of_nil; try done.
  rewrite list_elem_of_singleton. eauto.
Qed.

Lemma all_text_cons kind chunk responses :
  all_text create kind (chunk :: responses)
  = chunk_text create kind chunk +:+ all_text create kind responses.
Proof. reflexivity. Qed.

(** Every first-segment text ends up in exactly one place: in a merged
    event of the loop, or in the buffer that is left. *)
Lemma loop_merged_text kind responses : forall st,
  join (event_text kind <$> yielded_at merged_yield (loop create st responses).2)
  +:+ buffer kind (loop create st responses).1
  = buffer kind st +:+ all_text create kind responses.
Proof.
  induction responses as [|chunk responses IH]; intros st.
  - cbn. by rewrite append_nil_r.
  - rewrite loop_cons. cbn [fst snd].
    rewrite yielded_at_app, fmap_app, join_app, append_assoc, IH.
    rewrite loop_body_yielded_merged, loop_body_buffer.
    rewrite all_text_cons.
    destruct (is_boundary create chunk) eqn:Hb; cbn [andb].
    + rewrite (chunk_text_no_text kind chunk (is_boundary_no_text chunk Hb)).
      destruct (nonempty (thought_text st)) eqn:H1,
        (nonempty (text st)) eqn:H2; cbn [orb fmap list_fmap];
        rewrite ?join_singleton, ?merged_event_text;
        destruct kind; cbn [buffer]; try reflexivity;
        by rewrite ?(nonempty_false _ H1), ?(nonempty_false _ H2).
    + cbn. by rewrite append_assoc.
Qed.

Lemma after_loop_no_merged st : yielded_at merged_yield (after_loop st) = [].
Proof.
  unfold after_loop.
  destruct (nonempty (text st) || nonempty (thought_text st)); [|reflexivity].
  destruct (response st) as [last|]; [|reflexivity].
  by destruct (types.candidates last) as [[|candidate0 rest]|].
Qed.

Lemma after_loop_no_chunk st : yielded_at chunk_yield (after_loop st) = [].
Proof.
  unfold after_loop.
  destruct (nonempty (text st) || nonempty (thought_text st)); [|reflexivity].
  destruct (response st) as [last|]; [|reflexivity].
  by destruct (types.candidates last) as [[|candidate0 rest]|].
Qed.

Lemma loop_no_final responses : forall st,
  yielded_at final_yield (loop create st responses).2 = [].
Proof.
  induction responses as [|chunk responses IH]; intros st; [reflexivity|].
  rewrite loop_cons. cbn [snd]. rewrite yielded_at_app, IH, app_nil_r.
  rewrite loop_body_output. by destruct (is_boundary create chunk && _).
Qed.

(** C1, as amended.  Whatever the chunks: (1) an event merged while a
    chunk is processed holds, for each kind, exactly the first-segment
    text of that kind of the chunks that arrived since the last merge
    boundary, in arrival order, thought part before answer part; (2) so
    does the event merged after the loop; (3) every chunk is forwarded
    once, in order; (4) the merged events of the loop and the text still
    pending at the end together hold every first-segment text of a kind
    once, in arrival order.  Text in later segments of a chunk is not
    part of any of this. *)
Theorem merged_text_exact responses :
  (forall pre chunk post,
     responses = pre ++ chunk :: post ->
     (loop create initial responses).2
     = (loop create initial pre).2 ++ yielded_for create pre chunk
       ++ (loop create (loop create initial (pre ++ [chunk])).1 post).2
     /\ forall event,
          (merged_yield, event) ∈ yielded_for create pre chunk ->
          content event
          = Some (types.ModelContent
                    (merged_parts (pending create Thought pre)
                                  (pending create Answer pre)))
          /\ forall kind, event_text kind event = pending create kind pre)
  /\ (forall event,
        (final_yield, event) ∈ labelled_stream create responses ->
        content event
        = Some (types.ModelContent
                  (merged_parts (pending create Thought responses)
                                (pending create Answer responses)))
        /\ forall kind, event_text kind event = pending create kind responses)
  /\ yielded_at chunk_yield (labelled_stream create responses)
     = forwarded create <$> responses
  /\ (forall kind,
        join (event_text kind
                <$> yielded_at merged_yield (labelled_stream create responses))
        +:+ pending create kind responses
        = all_text create kind responses).
Proof.
  split; [|split; [|split]].
  - intros pre chunk post ->. split.
    + rewrite loop_app, loop_cons, loop_snoc. reflexivity.
    + intros event Hin. apply loop_body_merged in Hin as ->.
      pose proof (buffer_pending Thought pre) as Ht.
      pose proof (buffer_pending Answer pre) as Ha.
      cbn [buffer] in Ht, Ha. rewrite Ht, Ha. split; [reflexivity|].
      intros kind. rewrite merged_event_text. by destruct kind.
  - intros event Hin. unfold labelled_stream in Hin.
    apply elem_of_app in Hin as [Hin|Hin].
    { by apply loop_sites in Hin. }
    apply after_loop_yielded in Hin as [candidate0 [= ->]].
    pose proof (buffer_pending Thought responses) as Ht.
    pose proof (buffer_pending Answer responses) as Ha.
    cbn [buffer] in Ht, Ha. split.
    + unfold final_event. cbn [content]. by rewrite Ht, Ha.
    + intros kind. rewrite final_event_text. apply buffer_pending.
  - unfold labelled_stream.
    by rewrite yielded_at_app, after_loop_no_chunk, app_nil_r, loop_yielded_chunk.
  - intros kind. unfold labelled_stream.
    rewrite yielded_at_app, after_loop_no_merged, app_nil_r.
    rewrite <- buffer_pending, loop_merged_text. by destruct kind.
Qed.

(** *** The end of the stream *)

Lemma loop_last pre last :
  response (loop create initial (pre ++ [last])).1 = Some last
  /\ usage_metadata (loop create initial (pre ++ [last])).1
     = llm_response.usage_metadata (create last).
Proof. rewrite loop_snoc. apply loop_body_response. Qed.

(** C5.  When the stream has ended with text pending in either buffer,
    and its last chunk has a candidate to report a finish condition,
    exactly one event is yielded after the loop, and it is the last of the
    stream: its content is the thought part, if any, followed by the
    answer part, if any; its error code and message are [None] when the
    finish reason is [STOP], and the finish reason and message of the
    candidate otherwise, whatever they are; its usage metadata is that of
    the last chunk. *)
Theorem final_merged_event pre last (candidate0 : types.Candidate)
    (rest : list types.Candidate) :
  let st := (loop create initial (pre ++ [last])).1 in
  let stopped := bool_decide (types.finish_reason candidate0 = Some types.STOP) in
  let event :=
    {| content :=
         Some (types.ModelContent
                 ((if nonempty (thought_text st)
                   then [types.thought_part (thought_text st)] else [])
                  ++ (if nonempty (text st)
                      then [types.from_text (text st)] else [])));
       partial := None;
       error_code := if stopped then None else types.finish_reason candidate0;
       error_message := if stopped then None else types.finish_message candidate0;
       llm_response.usage_metadata := llm_response.usage_metadata (create last) |} in
  nonempty (thought_text st) || nonempty (text st) = true ->
  types.candidates last = Some (candidate0 :: rest) ->
  labelled_stream create (pre ++ [last])
  = (loop create initial (pre ++ [last])).2 ++ [(final_yield, event)]
  /\ yielded_at final_yield (labelled_stream create (pre ++ [last])) = [event].
Proof.
  cbn zeta. intros Hpending Hcandidates.
  destruct (loop_last pre last) as [Hresponse Husage].
  assert (Hafter : after_loop (loop create initial (pre ++ [last])).1
                   = [(final_yield,
                       final_event (loop create initial (pre ++ [last])).1
                                   candidate0)]).
  { unfold after_loop. rewrite orb_comm, Hpending, Hresponse, Hcandidates.
    reflexivity. }
  unfold labelled_stream. rewrite Hafter.
  unfold final_event, merged_parts. rewrite Husage. split; [reflexivity|].
  by rewrite yielded_at_app, loop_no_final.
Qed.

(** Without a pending text nothing is yielded after the loop. *)
Lemma after_loop_nothing_pending st :
  nonempty (thought_text st) || nonempty (text st) = false -> after_loop st = [].
Proof. intros H. unfold after_loop. by rewrite orb_comm, H. Qed.

(** If the conversion gives content only to chunks that have a candidate,
    a stream that ends with text pending ends on a chunk with a
    candidate. *)
Lemma pending_has_candidate pre last :
  (forall chunk, is_Some (first_part (create chunk)) ->
                 is_Some (candidate_summary chunk)) ->
  let st := (loop create initial (pre ++ [last])).1 in
  nonempty (thought_text st) || nonempty (text st) = true ->
  is_Some (candidate_summary last).
Proof.
  cbn zeta. intros Hcreate. rewrite loop_snoc.
  pose proof (loop_body_buffer (loop create initial pre).1 last Thought) as Ht.
  pose proof (loop_body_buffer (loop create initial pre).1 last Answer) as Ha.
  cbn [buffer] in Ht, Ha. rewrite Ht, Ha.
  destruct (is_boundary create last) eqn:Hb; [discriminate|].
  intros _. apply Hcreate. revert Hb. unfold is_boundary, is_text, is_binary.
  by destruct (first_part (create last)).
Qed.

(** *** Binary chunks *)

Lemma loop_body_buffers_only st1 st2 chunk :
  thought_text st1 = thought_text st2 -> text st1 = text st2 ->
  loop_body create st1 chunk = loop_body create st2 chunk.
Proof. unfold loop_body. by intros -> ->. Qed.

(** C6.  A chunk whose first segment carries binary data and no text
    yields its own event only, unchanged, and leaves both buffers as they
    were; the chunk that follows is therefore processed as if it had come
    directly, and a following merge, in the loop or after it, holds the
    text that was pending before the binary chunk: its content is the
    thought part with the pending thought text, if any, followed by the
    answer part with the pending answer text, if any. *)
Theorem binary_chunk_transparent st chunk (part0 : types.Part) (blob : types.Blob) :
  first_part (create chunk) = Some part0 ->
  types.inline_data part0 = Some blob ->
  truthy_str (types.text part0) = false ->
  let st' := (loop_body create st chunk).1 in
  (loop_body create st chunk).2 = [(chunk_yield, create chunk)]
  /\ thought_text st' = thought_text st
  /\ text st' = text st
  /\ is_boundary create chunk = false
  /\ (forall next, loop_body create st' next = loop_body create st next)
  /\ (forall next,
        is_boundary create next = true ->
        nonempty (thought_text st) || nonempty (text st) = true ->
        (loop_body create st' next).2
        = [(merged_yield,
            {| content :=
                 Some (types.ModelContent
                         ((if nonempty (thought_text st)
                           then [types.thought_part (thought_text st)] else [])
                          ++ (if nonempty (text st)
                              then [types.from_text (text st)] else [])));
               partial := None; error_code := None; error_message := None;
               llm_response.usage_metadata :=
                 llm_response.usage_metadata (create next) |});
           (chunk_yield, create next)])
  /\ (forall candidate0,
        content (final_event st' candidate0)
        = Some (types.ModelContent
                  ((if nonempty (thought_text st)
                    then [types.thought_part (thought_text st)] else [])
                   ++ (if nonempty (text st)
                       then [types.from_text (text st)] else []))))
  /\ (forall kind next,
        is_boundary create next = true ->
        nonempty (thought_text st) || nonempty (text st) = true ->
        event_text kind <$> yielded_at merged_yield (loop_body create st' next).2
        = [buffer kind st])
  /\ (forall kind candidate0,
        event_text kind (final_event st' candidate0) = buffer kind st).
Proof.
  intros Hpart Hblob Htext. cbn zeta.
  assert (Hstep : loop_body create st chunk
                  = ({| response := Some chunk; thought_text := thought_text st;
                        text := text st;
                        usage_metadata := llm_response.usage_metadata (create chunk) |},
                     [(chunk_yield, create chunk)])).
  { unfold loop_body. rewrite Hpart, Htext, Hblob.
    rewrite bool_decide_eq_true_2 by eauto. cbn [negb]. by rewrite andb_false_r. }
  rewrite Hstep. cbn [fst snd thought_text text].
  assert (Hb : is_boundary create chunk = false).
  { unfold is_boundary, is_text, is_binary. rewrite Hpart, Htext, Hblob.
    by rewrite bool_decide_eq_true_2 by eauto. }
  split; [reflexivity|]. split; [reflexivity|]. split; [reflexivity|].
  assert (Hflush : forall next,
            is_boundary create next = true ->
            nonempty (thought_text st) || nonempty (text st) = true ->
            (loop_body create
               {| response := Some chunk; thought_text := thought_text st;
                  text := text st;
                  usage_metadata := llm_response.usage_metadata (create chunk) |}
               next).2
            = [(merged_yield,
                merged_event (thought_text st) (text st) (create next));
               (chunk_yield, create next)]).
  { intros next Hnext Hpending.
    rewrite loop_body_output. cbn [thought_text text].
    rewrite Hnext, Hpending. cbn [andb app]. unfold forwarded.
    by rewrite (is_boundary_no_text next Hnext). }
  split; [exact Hb|]. split; [|split; [|split; [|split]]].
  - intros next. by apply loop_body_buffers_only.
  - intros next Hnext Hpending. by rewrite Hflush.
  - reflexivity.
  - intros kind next Hnext Hpending. rewrite Hflush by assumption.
    unfold yielded_at. rewrite filter_cons_True by reflexivity.
    rewrite filter_cons_False by discriminate.
    cbn [fmap list_fmap snd filter list_filter].
    rewrite (merged_event_text kind (thought_text st) (text st) (create next)).
    by destruct kind.
  - intros kind candidate0. by rewrite final_event_text.
Qed.

(** *** Later segments of a chunk *)

Lemma loop_body_same_view st1 st2 chunk1 chunk2 :
  same_view st1 st2 ->
  chunk_summary create chunk1 = chunk_summary create chunk2 ->
  same_view (loop_body create st1 chunk1).1 (loop_body create st2 chunk2).1
  /\ yielded_at merged_yield (loop_body create st1 chunk1).2
     = yielded_at merged_yield (loop_body create st2 chunk2).2.
Proof.
  intros (Ht & Ha & _ & _) [= Hpart Husage Hcand].
  unfold same_view, loop_body. rewrite Hpart, Husage, Ht, Ha.
  destruct (first_part (create chunk2)) as [part0|]; cbn [mbind option_bind].
  - destruct (truthy_str (types.text part0)).
    + by destruct (truthy_flag _).
    + destruct ((nonempty (thought_text st2) || nonempty (text st2)) && _);
        cbn; unfold merged_event; by rewrite ?Husage.
  - destruct ((nonempty (thought_text st2) || nonempty (text st2)) && true);
      cbn; unfold merged_event; by rewrite ?Husage.
Qed.

Lemma loop_same_view responses1 responses2 :
  Forall2 (fun c1 c2 => chunk_summary create c1 = chunk_summary create c2)
          responses1 responses2 ->
  forall st1 st2,
    same_view st1 st2 ->
    same_view (loop create st1 responses1).1 (loop create st2 responses2).1
    /\ yielded_at merged_yield (loop create st1 responses1).2
       = yielded_at merged_yield (loop create st2 responses2).2.
Proof.
  induction 1 as [|chunk1 chunk2 responses1 responses2 Hchunk _ IH];
    intros st1 st2 Hview; [by split|].
  rewrite !loop_cons. cbn [fst snd].
  destruct (loop_body_same_view st1 st2 chunk1 chunk2 Hview Hchunk) as [Hview' Hm].
  destruct (IH _ _ Hview') as [Hview'' Hm'].
  split; [exact Hview''|]. by rewrite !yielded_at_app, Hm, Hm'.
Qed.

Lemma after_loop_same_view st1 st2 :
  same_view st1 st2 ->
  yielded_at final_yield (after_loop st1) = yielded_at final_yield (after_loop st2).
Proof.
  intros (Ht & Ha & Hu & Hc). unfold after_loop. rewrite Ht, Ha.
  destruct (nonempty (text st2) || nonempty (thought_text st2)); [|reflexivity].
  unfold candidate_summary in Hc.
  destruct (response st1) as [last1|], (response st2) as [last2|];
    cbn [mbind option_bind] in Hc;
    repeat match goal with
      | |- context [types.candidates ?c] =>
          destruct (types.candidates c) as [[|? ?]|]
      end; try discriminate; try reflexivity.
  injection Hc as Hr Hm. cbn. unfold final_event.
  by rewrite Ht, Ha, Hu, Hr, Hm.
Qed.

Lemma forwarded_content chunk :
  content (forwarded create chunk) = content (create chunk).
Proof. unfold forwarded. by destruct (is_text create chunk). Qed.

(** C10.  Of the content of a chunk the aggregation reads the first
    segment only: the buffers grow by the text of that segment and by
    nothing else, and two streams whose chunks agree on their first
    segments (and on usage metadata and finish condition) give the same
    merged events, in the loop and after it, whatever their later
    segments hold.  The later segments travel in the chunk's own event,
    whose content is the content of the chunk. *)
Theorem later_parts_not_merged responses1 responses2 :
  Forall2 (fun c1 c2 => chunk_summary create c1 = chunk_summary create c2)
          responses1 responses2 ->
  yielded_at merged_yield (labelled_stream create responses1)
  = yielded_at merged_yield (labelled_stream create responses2)
  /\ yielded_at final_yield (labelled_stream create responses1)
     = yielded_at final_yield (labelled_stream create responses2)
  /\ (forall kind,
        buffer kind (loop create initial responses1).1
        = buffer kind (loop create initial responses2).1)
  /\ (forall st chunk kind,
        buffer kind (loop_body create st chunk).1
        = if is_boundary create chunk then ""
          else buffer kind st +:+ chunk_text create kind chunk)
  /\ yielded_at chunk_yield (labelled_stream create responses1)
     = forwarded create <$> responses1
  /\ Forall (fun chunk => content (forwarded create chunk) = content (create chunk))
            responses1.
Proof.
  intros Hsame.
  destruct (loop_same_view responses1 responses2 Hsame initial initial)
    as [Hview Hmerged]; [done|].
  unfold labelled_stream.
  rewrite !yielded_at_app, !after_loop_no_merged, !loop_no_final,
    !after_loop_no_chunk, !app_nil_r, loop_yielded_chunk.
  split; [exact Hmerged|]. split; [by apply after_loop_same_view|].
  split; [|split; [apply loop_body_buffer|split; [reflexivity|]]].
  - destruct Hview as (Ht & Ha & _). by intros [].
  - apply Forall_forall. intros chunk _. apply forwarded_content.
Qed.

End stream_properties.

Section stream_instances.
Import llm_response google_llm.

(** The wording of C1 takes a merged event to hold the text of all the
    segments seen.  A single chunk with the two answer segments "a" and
    "b" is merged, after the loop, into an event whose text is "a". *)
Lemma merged_text_counterexample :
  ~ documented_merge_invariant create_first_candidate [two_part_chunk "a" "b"].
Proof.
  intros [_ Hfinal].
  assert (Hin : (final_yield, two_part_event)
                ∈ labelled_stream create_first_candidate [two_part_chunk "a" "b"]).
  { vm_compute. apply list_elem_of_further, list_elem_of_here. }
  specialize (Hfinal two_part_event Answer Hin). vm_compute in Hfinal.
  discriminate.
Qed.

Lemma merged_text_exact_witness :
  hello_chunks = [answer_chunk "Hel"; answer_chunk "lo"] ++ finish_chunk types.STOP :: []
  /\ (merged_yield, hello_merged)
     ∈ yielded_for create_first_candidate
         [answer_chunk "Hel"; answer_chunk "lo"] (finish_chunk types.STOP)
  /\ event_text Answer hello_merged = "Hello".
Proof.
  assert (H1 : hello_chunks
               = [answer_chunk "Hel"; answer_chunk "lo"]
                 ++ finish_chunk types.STOP :: []) by reflexivity.
  assert (H2 : (merged_yield, hello_merged)
               ∈ yielded_for create_first_candidate
                   [answer_chunk "Hel"; answer_chunk "lo"]
                   (finish_chunk types.STOP)).
  { vm_compute. apply list_elem_of_here. }
  split; [exact H1|]. split; [exact H2|].
  exact (proj2 (proj2 (proj1 (merged_text_exact create_first_candidate hello_chunks)
                         _ _ _ H1) _ H2) Answer).
Defined.

Lemma final_merged_event_witness :
  nonempty (thought_text (loop create_first_candidate initial
                            ([answer_chunk "Hel"] ++ [length_limited_chunk])).1)
  || nonempty (text (loop create_first_candidate initial
                       ([answer_chunk "Hel"] ++ [length_limited_chunk])).1) = true
  /\ types.candidates length_limited_chunk
     = Some (candidate_of [types.from_text "lo"] (Some types.MAX_TOKENS) :: [])
  /\ yielded_at final_yield
       (labelled_stream create_first_candidate
          ([answer_chunk "Hel"] ++ [length_limited_chunk]))
     = [length_limited_event].
Proof.
  split; [reflexivity|]. split; [reflexivity|].
  apply (final_merged_event create_first_candidate [answer_chunk "Hel"]
           length_limited_chunk
           (candidate_of [types.from_text "lo"] (Some types.MAX_TOKENS)) []);
    reflexivity.
Defined.

Lemma binary_chunk_transparent_witness :
  first_part (create_first_candidate audio_chunk) = Some audio_part
  /\ types.inline_data audio_part = Some audio_blob
  /\ truthy_str (types.text audio_part) = false
  /\ text (loop_body create_first_candidate hi_pending audio_chunk).1 = "Hi"
  /\ (forall candidate0,
        content (final_event (loop_body create_first_candidate hi_pending
                                audio_chunk).1 candidate0)
        = Some (types.ModelContent [types.from_text "Hi"])).
Proof.
  split; [reflexivity|]. split; [reflexivity|]. split; [reflexivity|].
  destruct (binary_chunk_transparent create_first_candidate
              hi_pending audio_chunk audio_part audio_blob
              eq_refl eq_refl eq_refl)
    as (_ & _ & Htext & _ & _ & _ & Hfinal & _).
  split; [exact Htext|exact Hfinal].
Defined.

Lemma later_parts_not_merged_witness :
  Forall2 (fun c1 c2 => chunk_summary create_first_candidate c1
                        = chunk_summary create_first_candidate c2)
          [two_part_chunk "a" "b"; finish_chunk types.STOP]
          [answer_chunk "a"; finish_chunk types.STOP]
  /\ yielded_at merged_yield
       (labelled_stream create_first_candidate
          [two_part_chunk "a" "b"; finish_chunk types.STOP])
     = yielded_at merged_yield
         (labelled_stream create_first_candidate
            [answer_chunk "a"; finish_chunk types.STOP]).
Proof.
  assert (H : Forall2 (fun c1 c2 => chunk_summary create_first_candidate c1
                                    = chunk_summary create_first_candidate c2)
                      [two_part_chunk "a" "b"; finish_chunk types.STOP]
                      [answer_chunk "a"; finish_chunk types.STOP]).
  { repeat constructor. }
  split; [exact H|].
  exact (proj1 (later_parts_not_merged create_first_candidate _ _ H)).
Defined.

End stream_instances.

(** * Further properties of the task-status aggregator *)

Section task_status_runs_properties.
Import task_result_aggregator task_status_runs.

(** X1.  Whatever the events carry, [completed], [canceled] or [rejected]
    included, the aggregate state is one of [working], [input_required],
    [auth_required] and [failed]. *)
Theorem task_state_always_ordered (events : list Event) (heap : Store) :
  task_state (process_events events (init, heap)).1 ∈ ordered_states.
Proof.
  rewrite process_events_init, highest_precedence_max.
  generalize (max_list (precedence <$> observed_states heap events)).
  intros n. unfold ordered_states.
  do 4 (destruct n as [|n]; [cbn; set_solver|]). cbn. set_solver.
Qed.

Lemma process_event_monotone self event heap :
  (precedence (task_state self)
   <= precedence (task_state (process_event self event heap).1))%nat.
Proof.
  destruct event as [status|]; [|reflexivity].
  destruct self as [cur msg]. cbn.
  destruct (state (heap status)), cur; vm_compute; lia.
Qed.

(** X2.  The precedence of the aggregate state never goes down, whatever
    the aggregate was and whatever events follow. *)
Theorem precedence_never_decreases (self : TaskResultAggregator)
    (events : list Event) (heap : Store) :
  (precedence (task_state self)
   <= precedence (task_state (process_events events (self, heap)).1))%nat.
Proof.
  revert self heap. induction events as [|event events IH]; intros self heap;
    [reflexivity|].
  rewrite process_events_cons.
  pose proof (process_event_monotone self event heap) as Hstep.
  destruct (process_event self event heap) as [self' heap'].
  etrans; [exact Hstep|apply IH].
Qed.

Lemma process_event_lower (self : TaskResultAggregator) (status : ref)
    (heap : Store) :
  (precedence (state (heap status)) < precedence (task_state self))%nat ->
  (process_event self (TaskStatusUpdateEvent status) heap).1 = self.
Proof.
  destruct self as [cur msg]. cbn.
  destruct (state (heap status)), cur; vm_compute; intros H;
    try reflexivity; lia.
Qed.

(** X3.  An event whose status has a lower precedence than the aggregate
    state is ignored: neither the state nor the message changes. *)
Theorem lower_precedence_event_ignored (self : TaskResultAggregator)
    (status : ref) (heap : Store) :
  (precedence (state (heap status)) < precedence (task_state self))%nat ->
  (process_event self (TaskStatusUpdateEvent status) heap).1 = self.
Proof.
  destruct self as [cur msg]. cbn.
  destruct (state (heap status)), cur; vm_compute; intros H;
    try reflexivity; lia.
Qed.

Lemma lower_precedence_event_ignored_witness :
  (precedence (state (scenario_store 0)) < precedence (task_state input_required_aggregator))%nat
  /\ (process_event input_required_aggregator (TaskStatusUpdateEvent 0)
        scenario_store).1 = input_required_aggregator.
Proof.
  assert (H : (precedence (state (scenario_store 0))
               < precedence (task_state input_required_aggregator))%nat)
    by (cbn; lia).
  split; [exact H|].
  exact (lower_precedence_event_ignored input_required_aggregator 0 scenario_store H).
Defined.

(** An event whose status is at least as high as the aggregate state
    sets the state to its own and the message to its own. *)
Lemma process_event_takes_over self status heap :
  ordered (task_state self) ->
  (precedence (task_state self) <= precedence (state (heap status)))%nat ->
  (process_event self (TaskStatusUpdateEvent status) heap).1
  = {| _task_state := state_of_precedence (precedence (state (heap status)));
       _task_status_message := message (heap status) |}.
Proof.
  unfold ordered. destruct self as [cur msg]. cbn.
  destruct (state (heap status)), cur; vm_compute; intros Hord Hle;
    try reflexivity; try discriminate; lia.
Qed.

Lemma process_events_app events1 events2 start :
  process_events (events1 ++ events2) start
  = process_events events2 (process_events events1 start).
Proof. apply foldl_app. Qed.

Lemma precedence_le_state_of_precedence n :
  (precedence (state_of_precedence n) <= n)%nat.
Proof. do 4 (destruct n as [|n]; [cbn; lia|]). cbn. lia. Qed.

Lemma precedence_state_of_precedence_ge s :
  precedence (state_of_precedence (precedence s)) = precedence s.
Proof. by destruct s. Qed.

(** Only the status objects of the events processed are written to. *)
Lemma process_events_frame events : forall self heap r,
  r ∉ status_refs events -> (process_events events (self, heap)).2 r = heap r.
Proof.
  induction events as [|event events IH]; intros self heap r Hr; [reflexivity|].
  rewrite process_events_cons. destruct event as [status|].
  - cbn [status_refs omap] in Hr. fold (status_refs events) in Hr.
    apply not_elem_of_cons in Hr as [Hne Hr].
    pose proof (process_event_store self status heap r) as Hstore.
    destruct (process_event self (TaskStatusUpdateEvent status) heap)
      as [self' heap'].
    cbn [snd] in Hstore. rewrite IH by assumption. rewrite Hstore.
    by rewrite decide_False by congruence.
  - cbn [process_event]. by apply IH.
Qed.

Lemma observed_states_ext heap heap' events :
  (forall r, r ∈ status_refs events -> heap' r = heap r) ->
  observed_states heap' events = observed_states heap events.
Proof.
  induction events as [|[status|] events IH]; intros Hagree; [reflexivity| |].
  - rewrite !observed_states_status. f_equal.
    + rewrite Hagree; [reflexivity|]. cbn. set_solver.
    + apply IH. intros r Hr. apply Hagree. cbn. set_solver.
  - rewrite !observed_states_other. apply IH. intros r Hr. by apply Hagree.
Qed.

Lemma process_events_all_lower events : forall self heap,
  NoDup (status_refs events) ->
  Forall (fun s => (precedence s < precedence (task_state self))%nat)
         (observed_states heap events) ->
  (process_events events (self, heap)).1 = self.
Proof.
  induction events as [|event events IH]; intros self heap Hdup Hlow;
    [reflexivity|].
  rewrite process_events_cons. destruct event as [status|].
  - rewrite observed_states_status in Hlow.
    apply Forall_cons in Hlow as [Hlow Hrest].
    cbn [status_refs omap] in Hdup. fold (status_refs events) in Hdup.
    apply NoDup_cons in Hdup as [Hfresh Hdup].
    pose proof (process_event_lower self status heap Hlow) as Hsame.
    pose proof (process_event_store self status heap) as Hstore.
    destruct (process_event self (TaskStatusUpdateEvent status) heap)
      as [self' heap'].
    cbn [fst snd] in Hsame, Hstore. subst self'.
    apply IH; [assumption|].
    rewrite (observed_states_ext heap heap'); [assumption|].
    intros r Hr. rewrite Hstore. rewrite decide_False; [reflexivity|].
    intros ->. contradiction.
  - rewrite observed_states_other in Hlow. cbn [process_event].
    apply IH; assumption.
Qed.

(** X4.  The message of the aggregate is the message of the last event
    that carries the highest status of the run: when every event has its
    own status object, an event that no earlier event exceeds and every
    later event stays below decides the final state and the final
    message. *)
Theorem final_message_of_last_highest (pre post : list Event) (status : ref)
    (heap : Store) :
  let events := pre ++ TaskStatusUpdateEvent status :: post in
  let final := (process_events events (init, heap)).1 in
  NoDup (status_refs events) ->
  Forall (fun s => (precedence s <= precedence (state (heap status)))%nat)
         (observed_states heap pre) ->
  Forall (fun s => (precedence s < precedence (state (heap status)))%nat)
         (observed_states heap post) ->
  task_status_message final = message (heap status)
  /\ task_state final = state_of_precedence (precedence (state (heap status))).
Proof.
  cbn zeta. intros Hdup Hpre Hpost.
  rewrite process_events_app.
  assert (Hrefs : status_refs (pre ++ TaskStatusUpdateEvent status :: post)
                  = status_refs pre ++ status :: status_refs post).
  { unfold status_refs. by rewrite omap_app. }
  rewrite Hrefs in Hdup.
  apply NoDup_app in Hdup as (Hdup_pre & Hsep & Hdup_post).
  apply NoDup_cons in Hdup_post as [Hfresh Hdup_post].
  assert (Hstatus : (process_events pre (init, heap)).2 status = heap status).
  { apply process_events_frame. intros Hin. apply (Hsep _ Hin). set_solver. }
  assert (Hstate1 : task_state (process_events pre (init, heap)).1
                    = state_of_precedence
                        (max_list (precedence <$> observed_states heap pre))).
  { by rewrite process_events_init, highest_precedence_max. }
  assert (Hle : (max_list (precedence <$> observed_states heap pre)
                 <= precedence (state (heap status)))%nat).
  { clear -Hpre. induction Hpre as [|s l Hs _ IH]; [cbn; lia|].
    rewrite fmap_cons, max_list_cons. lia. }
  destruct (process_events pre (init, heap)) as [self1 heap1] eqn:Hrun1.
  cbn [fst snd] in *. rewrite process_events_cons.
  assert (Hord1 : ordered (task_state self1)).
  { rewrite Hstate1. unfold ordered.
    generalize (max_list (precedence <$> observed_states heap pre)).
    intros n. by do 4 (destruct n as [|n]; [reflexivity|]). }
  assert (Hle1 : (precedence (task_state self1)
                  <= precedence (state (heap1 status)))%nat).
  { rewrite Hstatus, Hstate1.
    pose proof (precedence_le_state_of_precedence
                  (max_list (precedence <$> observed_states heap pre))).
    lia. }
  pose proof (process_event_takes_over self1 status heap1 Hord1 Hle1) as Hstep.
  pose proof (process_event_store self1 status heap1) as Hstore.
  destruct (process_event self1 (TaskStatusUpdateEvent status) heap1)
    as [self2 heap2].
  cbn [fst snd] in Hstep, Hstore. rewrite Hstatus in Hstep.
  rewrite (process_events_all_lower post self2 heap2 Hdup_post).
  - by subst self2.
  - rewrite (observed_states_ext heap heap2).
    + subst self2. cbn [task_state _task_state].
      eapply Forall_impl; [exact Hpost|]. cbn. intros s Hs.
      rewrite precedence_state_of_precedence_ge. exact Hs.
    + intros r Hr. rewrite Hstore.
      rewrite decide_False by (intros ->; contradiction).
      pose proof (process_events_frame pre init heap r) as Hframe.
      rewrite Hrun1 in Hframe. cbn [snd] in Hframe. apply Hframe.
      intros Hin. apply (Hsep _ Hin). set_solver.
Qed.

End task_status_runs_properties.

Section task_status_runs_instances.
Import task_result_aggregator task_status_runs.

Lemma final_message_of_last_highest_witness :
  NoDup (status_refs ([TaskStatusUpdateEvent 0; TaskStatusUpdateEvent 1]
                      ++ TaskStatusUpdateEvent 2 :: [TaskStatusUpdateEvent 3]))
  /\ task_status_message
       (process_events ([TaskStatusUpdateEvent 0; TaskStatusUpdateEvent 1]
                        ++ TaskStatusUpdateEvent 2 :: [TaskStatusUpdateEvent 3])
          (init, scenario_store)).1
     = Some "disk full".
Proof.
  assert (H1 : NoDup (status_refs
                        ([TaskStatusUpdateEvent 0; TaskStatusUpdateEvent 1]
                         ++ TaskStatusUpdateEvent 2 :: [TaskStatusUpdateEvent 3]))).
  { apply (bool_decide_unpack _). vm_compute. exact I. }
  assert (H2 : Forall (fun s => (precedence s
                                 <= precedence (state (scenario_store 2)))%nat)
                 (observed_states scenario_store
                    [TaskStatusUpdateEvent 0; TaskStatusUpdateEvent 1])).
  { cbn. repeat constructor; lia. }
  assert (H3 : Forall (fun s => (precedence s
                                 < precedence (state (scenario_store 2)))%nat)
                 (observed_states scenario_store [TaskStatusUpdateEvent 3])).
  { cbn. repeat constructor; lia. }
  split; [exact H1|].
  exact (proj1 (final_message_of_last_highest
                  [TaskStatusUpdateEvent 0; TaskStatusUpdateEvent 1]
                  [TaskStatusUpdateEvent 3] 2 scenario_store H1 H2 H3)).
Defined.

End task_status_runs_instances.

(** * Further properties of the retry policy *)

Section retry_runs_properties.
Import errors tenacity retry_policy.
Context {R : Type}.
#[local] Open Scope Z_scope.

Implicit Types (self : Retrying R) (fn : Z -> Outcome R) (run : Run R).
Implicit Types (retry_config : option (RetryConfig R)).

(** The wait depends on the number of the attempt only. *)
Lemma wait_of_attempt retry_config self (retry_state : RetryCallState R) :
  _build_retry_wrapper retry_config = inr self ->
  wait self retry_state = wait_of self (attempt_number retry_state - 1).
Proof.
  intros Hbuild.
  destruct (build_retry_wrapper_inr _ _ Hbuild) as (fmin & fmax & _ & _ & ->).
  unfold wait_of. cbn. unfold wait_exponential_call. cbn [attempt_number].
  by replace (attempt_number retry_state - 1 + 1 - 1)
    with (attempt_number retry_state - 1) by lia.
Qed.

Lemma iter_transient retry_config self fn (v : R) (k : nat) :
  _build_retry_wrapper retry_config = inr self ->
  retry_predicate (config_of retry_config) = None ->
  forall fuel attempt idle,
    (k < fuel)%nat ->
    (forall j, attempt <= j < attempt + Z.of_nat k ->
               exists e, fn j = Raised e /\ retry_on_resumable_error e = true) ->
    fn (attempt + Z.of_nat k) = Returned v ->
    (k = 0%nat \/ attempt + Z.of_nat k <= max_retries (config_of retry_config)) ->
    iter fuel self fn attempt idle
    = Some {| result := Returned v; attempts := attempt + Z.of_nat k;
              sleeps := idle
                        ++ ((fun n => nearest_double
                                        (wait_of self (attempt - 1 + Z.of_nat n)))
                            <$> seq 0 k) |}.
Proof.
  intros Hbuild Hdefault.
  destruct (build_retry_wrapper_inr _ _ Hbuild) as (fmin & fmax & _ & _ & Hself).
  assert (Hretry : retry self = retry_if_exception retry_on_resumable_error).
  { rewrite Hself. cbn. by rewrite Hdefault. }
  assert (Hstop : stop self
                  = stop_after_attempt (max_retries (config_of retry_config))).
  { by rewrite Hself. }
  induction k as [|k IH]; intros fuel attempt idle Hfuel Hfail Hok Hbudget.
  - destruct fuel as [|fuel]; [lia|]. rewrite iter_unfold. cbn zeta.
    rewrite Hretry. unfold retry_if_exception. cbn [outcome].
    replace (attempt + Z.of_nat 0) with attempt in * by lia.
    rewrite Hok. cbn. by rewrite app_nil_r.
  - destruct fuel as [|fuel]; [lia|]. rewrite iter_unfold. cbn zeta.
    destruct (Hfail attempt) as (e & He & Hclass); [lia|].
    rewrite Hretry. unfold retry_if_exception at 1. cbn [outcome].
    rewrite He, Hclass. cbn [negb]. rewrite Hstop.
    unfold stop_after_attempt. cbn [attempt_number].
    destruct (Z.leb_spec (max_retries (config_of retry_config)) attempt); [lia|].
    destruct (wrapper_sleep retry_config self
                {| attempt_number := attempt; outcome := Raised e |} Hbuild)
      as (_ & _ & _ & _ & -> & _).
    rewrite (wait_of_attempt retry_config self _ Hbuild). cbn [attempt_number].
    rewrite (IH fuel (attempt + 1)); try lia.
    + f_equal. f_equal; [lia|]. rewrite <- app_assoc. f_equal.
      cbn [seq fmap list_fmap app]. f_equal.
      * do 2 f_equal. lia.
      * rewrite <- seq_shift, <- list_fmap_compose. apply list_fmap_ext.
        intros _ n _.
        change (nearest_double (wait_of self (attempt + 1 - 1 + Z.of_nat n))
                = nearest_double (wait_of self (attempt - 1 + Z.of_nat (S n)))).
        do 2 f_equal. lia.
    + intros j Hj. apply Hfail. lia.
    + by replace (attempt + 1 + Z.of_nat k) with (attempt + Z.of_nat (S k)) by lia.
Qed.

(** X5.  For a policy from which the retry wrapper can be built,
    transient failures followed by a success within the budget are
    invisible but for the time they take: after [k] rate-limit or
    unavailable errors the result of attempt [k + 1] is returned, the
    underlying operation has been called [k + 1] times, and the sleeps are
    the first [k] waits of the wrapper, in order, each as the double
    nearest to it. *)
Theorem transient_failures_invisible retry_config self fn (v : R) (k : nat) :
  _build_retry_wrapper retry_config = inr self ->
  retry_predicate (config_of retry_config) = None ->
  (forall j, 1 <= j <= Z.of_nat k ->
             exists e, fn j = Raised e /\ retry_on_resumable_error e = true) ->
  fn (Z.of_nat k + 1) = Returned v ->
  (k = 0%nat \/ Z.of_nat k + 1 <= max_retries (config_of retry_config)) ->
  retryable_generate retry_config fn
  = inr (Some {| result := Returned v; attempts := Z.of_nat k + 1;
                 sleeps := (fun n => nearest_double (wait_of self (Z.of_nat n)))
                           <$> seq 0 k |}).
Proof.
  intros Hbuild Hdefault Hfail Hok Hbudget. unfold retryable_generate.
  rewrite Hbuild. f_equal.
  rewrite (iter_transient retry_config self fn v k Hbuild Hdefault).
  - replace (Z.of_nat k + 1) with (1 + Z.of_nat k) by lia.
    reflexivity.
  - unfold rounds. destruct Hbudget as [->|Hbudget]; lia.
  - intros j Hj. apply Hfail. lia.
  - by replace (1 + Z.of_nat k) with (Z.of_nat k + 1) by lia.
  - destruct Hbudget as [->|Hbudget]; [by left|right; lia].
Qed.

Lemma iter_last_attempt retry_config self fn :
  _build_retry_wrapper retry_config = inr self ->
  retry_predicate (config_of retry_config) = None ->
  forall fuel attempt idle run,
    1 <= attempt ->
    iter fuel self fn attempt idle = Some run ->
    result run = fn (attempts run)
    /\ (forall e, result run = Raised e -> retry_on_resumable_error e = true ->
                  max_retries (config_of retry_config) <= attempts run).
Proof.
  intros Hbuild Hdefault.
  destruct (build_retry_wrapper_inr _ _ Hbuild) as (fmin & fmax & _ & _ & Hself).
  assert (Hretry : retry self = retry_if_exception retry_on_resumable_error).
  { rewrite Hself. cbn. by rewrite Hdefault. }
  assert (Hstop : stop self
                  = stop_after_attempt (max_retries (config_of retry_config))).
  { by rewrite Hself. }
  assert (Hreraise : reraise self = true) by (by rewrite Hself).
  induction fuel as [|fuel IH]; intros attempt idle run Hpos Hrun;
    [discriminate|].
  rewrite iter_unfold in Hrun. cbn zeta in Hrun.
  rewrite Hretry, Hstop, Hreraise in Hrun. unfold retry_if_exception at 1 in Hrun.
  cbn [outcome] in Hrun.
  destruct (fn attempt) as [v|e] eqn:Hfn.
  { cbn in Hrun. injection Hrun as <-. cbn. split; [by rewrite Hfn|]. discriminate. }
  destruct (retry_on_resumable_error e) eqn:Hclass; cbn [negb] in Hrun.
  2: { injection Hrun as <-. cbn. split; [by rewrite Hfn|].
       intros e' [= <-]. congruence. }
  unfold stop_after_attempt in Hrun. cbn [attempt_number] in Hrun.
  destruct (Z.leb_spec (max_retries (config_of retry_config)) attempt).
  { injection Hrun as <-. cbn. split; [by rewrite Hfn|]. intros; lia. }
  destruct (wrapper_sleep retry_config self
              {| attempt_number := attempt; outcome := Raised e |} Hbuild)
    as (_ & _ & _ & _ & Hsleep & _).
  rewrite Hsleep in Hrun. apply IH in Hrun; [exact Hrun|lia].
Qed.

(** X6.  With the default classification the wrapped call ends as its
    last attempt ended, a returned value or the very exception that
    attempt raised, never a [RetryError]; and a rate-limit or unavailable
    error comes out only when the budget is spent. *)
Theorem outcome_of_last_attempt retry_config fn run :
  retry_predicate (config_of retry_config) = None ->
  retryable_generate retry_config fn = inr (Some run) ->
  result run = fn (attempts run)
  /\ (forall e, result run = Raised e -> retry_on_resumable_error e = true ->
                max_retries (config_of retry_config) <= attempts run).
Proof.
  intros Hdefault Hrun. unfold retryable_generate in Hrun.
  destruct (_build_retry_wrapper retry_config) as [error|self] eqn:Hbuild;
    [discriminate|].
  assert (Hiter : iter (rounds retry_config) self fn 1 [] = Some run) by congruence.
  by eapply (iter_last_attempt retry_config self fn Hbuild Hdefault).
Qed.

(** X7.  For a policy from which the retry wrapper can be built, a
    budget of [max_retries <= 1] means no retry at all: whatever the first
    attempt does, and whatever the predicate, the operation is called once
    and nothing is slept. *)
Theorem no_retry_when_budget_at_most_one retry_config self fn :
  _build_retry_wrapper retry_config = inr self ->
  max_retries (config_of retry_config) <= 1 ->
  exists run,
    retryable_generate retry_config fn = inr (Some run)
    /\ attempts run = 1 /\ sleeps run = [].
Proof.
  intros Hbuild Hbudget. unfold retryable_generate, rounds. rewrite Hbuild.
  destruct (build_retry_wrapper_inr _ _ Hbuild) as (fmin & fmax & _ & _ & Hself).
  replace (Z.to_nat (max_retries (config_of retry_config) - 1)) with 0%nat by lia.
  rewrite iter_unfold. cbn zeta.
  assert (Hstop : stop self
                  = stop_after_attempt (max_retries (config_of retry_config))).
  { by rewrite Hself. }
  destruct (negb (retry _ _)); [eauto|].
  rewrite Hstop. unfold stop_after_attempt. cbn [attempt_number].
  destruct (Z.leb_spec (max_retries (config_of retry_config)) 1); [eauto|lia].
Qed.

(** X8.  The backoff of a wrapper that could be built never shrinks and
    stays within its limits: the wait after a later attempt is at least
    the wait after an earlier one, and every wait lies between
    [max(0, float(initial_delay_sec))] and the larger of that and
    [float(max_delay_sec)], where [float] leaves a delay of at most
    [2 ^ 53] in absolute value as it is. *)
Theorem wait_monotone retry_config self (n m : Z) :
  _build_retry_wrapper retry_config = inr self ->
  0 <= n <= m ->
  wait_of self n <= wait_of self m
  /\ exists fmin fmax,
       float (initial_delay_sec (config_of retry_config)) = Some fmin
       /\ float (max_delay_sec (config_of retry_config)) = Some fmax
       /\ Z.max 0 fmin <= wait_of self n <= Z.max fmax (Z.max 0 fmin)
       /\ (Z.abs (initial_delay_sec (config_of retry_config)) <= 2 ^ 53 ->
           fmin = initial_delay_sec (config_of retry_config))
       /\ (Z.abs (max_delay_sec (config_of retry_config)) <= 2 ^ 53 ->
           fmax = max_delay_sec (config_of retry_config)).
Proof.
  intros Hbuild Hnm.
  destruct (build_retry_wrapper_inr _ _ Hbuild) as (fmin & fmax & Hmin & Hmax & ->).
  unfold wait_of. cbn. unfold wait_exponential_call. cbn.
  replace (n + 1 - 1) with n by lia. replace (m + 1 - 1) with m by lia.
  set (initial := initial_delay_sec (config_of retry_config)) in *.
  assert (Hpow : 0 < 2 ^ n <= 2 ^ m).
  { split; [apply Z.pow_pos_nonneg; lia|apply Z.pow_le_mono_r; lia]. }
  split.
  - destruct (Z.le_gt_cases 0 initial) as [Hpos|Hneg].
    + assert (initial * 2 ^ n <= initial * 2 ^ m) by nia. lia.
    + assert (initial * 2 ^ n < 0) by nia. assert (initial * 2 ^ m < 0) by nia. lia.
  - exists fmin, fmax. unfold to_seconds in Hmin, Hmax.
    split; [exact Hmin|]. split; [exact Hmax|]. split; [lia|]. split.
    + intros Hsmall. rewrite (float_exact _ Hsmall) in Hmin. congruence.
    + intros Hsmall. rewrite (float_exact _ Hsmall) in Hmax. congruence.
Qed.

(** X9.  For a policy with
    [0 <= initial_delay_sec <= max_delay_sec <= 2 ^ 53] the wrapper can be
    built, the first wait is the initial delay and every further wait is
    twice the one before, capped at [max_delay_sec]; [expo_base] plays no
    part.  Above [2 ^ 53] the delays are rounded to doubles and this fails:
    with both delays [2 ^ 53 + 1] the first wait is [2 ^ 53]. *)
Theorem wait_doubles_until_capped retry_config (n : Z) :
  let config := config_of retry_config in
  0 <= initial_delay_sec config <= max_delay_sec config ->
  max_delay_sec config <= 2 ^ 53 ->
  0 <= n ->
  wait_after retry_config 0 = Some (initial_delay_sec config)
  /\ wait_after retry_config n
     = Some (Z.min (max_delay_sec config) (initial_delay_sec config * 2 ^ n))
  /\ wait_after retry_config (n + 1)
     = Some (Z.min (max_delay_sec config)
                   (2 * Z.min (max_delay_sec config)
                              (initial_delay_sec config * 2 ^ n)))
  /\ wait_after (Some rounded_config) 0 = Some (2 ^ 53)
  /\ initial_delay_sec rounded_config = 2 ^ 53 + 1.
Proof.
  cbn zeta. intros Hdelay Hsmall Hn. unfold wait_after.
  rewrite build_retry_wrapper_exact by lia.
  unfold wait_of. cbn [wait attempt_number]. unfold wait_exponential_call.
  cbn [wait_multiplier wait_min wait_max wait_exp_base attempt_number].
  replace (0 + 1 - 1) with 0 by lia.
  replace (n + 1 - 1) with n by lia.
  replace (n + 1 + 1 - 1) with (n + 1) by lia.
  rewrite Z.pow_add_r by lia. change (2 ^ 1) with 2. change (2 ^ 0) with 1.
  pose proof (Z.pow_pos_nonneg 2 n ltac:(lia) Hn) as Hpow.
  set (initial := initial_delay_sec (config_of retry_config)) in *.
  set (limit := max_delay_sec (config_of retry_config)) in *.
  assert (initial <= initial * 2 ^ n) by nia.
  rewrite !float_exact by nia.
  split; [f_equal; lia|]. split; [f_equal; lia|]. split; [f_equal; nia|].
  split; [vm_compute|]; reflexivity.
Qed.

(** X31.  The wrapped call of a wrapper that could be built always ends:
    after at least one and at most [max(1, max_retries)] calls of the
    underlying operation, with one sleep less than calls, each within the
    limits of the backoff, [max(0, float(initial_delay_sec))] and the
    larger of that and [float(max_delay_sec)]. *)
Theorem retry_run_bounded retry_config self fn :
  _build_retry_wrapper retry_config = inr self ->
  exists run fmin fmax,
    retryable_generate retry_config fn = inr (Some run)
    /\ 1 <= attempts run <= Z.max 1 (max_retries (config_of retry_config))
    /\ Z.of_nat (length (sleeps run)) = attempts run - 1
    /\ float (initial_delay_sec (config_of retry_config)) = Some fmin
    /\ float (max_delay_sec (config_of retry_config)) = Some fmax
    /\ Forall (fun w => Z.max 0 fmin <= w <= Z.max fmax (Z.max 0 fmin)) (sleeps run)
    /\ total_delay run <= (attempts run - 1) * Z.max fmax (Z.max 0 fmin).
Proof.
  intros Hbuild.
  destruct (build_retry_wrapper_inr _ _ Hbuild) as (fmin & fmax & Hmin & Hmax & Hself).
  set (config := config_of retry_config) in *.
  assert (Hstop : forall retry_state,
            stop self retry_state
            = stop_after_attempt (max_retries config) retry_state).
  { intros retry_state. by rewrite Hself. }
  destruct (iter_total self fn (max_retries config) Hstop (rounds retry_config) 1 [])
    as [run Hrun].
  { unfold rounds. fold config. lia. }
  exists run, fmin, fmax. unfold retryable_generate. rewrite Hbuild.
  split; [by rewrite Hrun|].
  apply (iter_bounds self fn (max_retries config) (Z.max 0 fmin)
           (Z.max fmax (Z.max 0 fmin)) Hstop) in Hrun
    as (Hatt & new & Hsleeps & Hlen & Hall).
  2: { intros retry_state sleep Hsleep.
       destruct (wrapper_sleep retry_config self retry_state Hbuild)
         as (fmin' & fmax' & Hmin' & Hmax' & Hfloat & Hbounds).
       unfold to_seconds in Hmin, Hmax. fold config in Hmin', Hmax'.
       assert (fmin' = fmin) as -> by congruence.
       assert (fmax' = fmax) as -> by congruence.
       assert (sleep = nearest_double (wait self retry_state)) as ->
         by congruence.
       exact Hbounds. }
  cbn [app] in Hsleeps. subst new.
  split; [lia|]. split; [exact Hlen|].
  unfold to_seconds in Hmin, Hmax. split; [exact Hmin|]. split; [exact Hmax|].
  split; [exact Hall|].
  unfold total_delay. etrans; [by eapply foldr_add_bounded|]. rewrite Hlen. lia.
Qed.

End retry_runs_properties.

Section retry_runs_instances.
Import errors tenacity retry_policy retry_samples.
#[local] Open Scope Z_scope.

Lemma transient_failures_invisible_witness :
  (exists self, _build_retry_wrapper (Some scenario_config) = inr self)
  /\ retry_predicate (config_of (Some scenario_config)) = None
  /\ succeeds_at_third (Z.of_nat 2 + 1) = Returned "ok"
  /\ retryable_generate (Some scenario_config) succeeds_at_third
     = inr (Some {| result := Returned "ok"; attempts := 3; sleeps := [1; 2] |}).
Proof.
  split; [eexists; reflexivity|]. split; [reflexivity|]. split; [reflexivity|].
  eapply (eq_trans
            (transient_failures_invisible (Some scenario_config) _
               succeeds_at_third "ok" 2 eq_refl eq_refl _ eq_refl
               (or_intror _))).
  reflexivity.
  Unshelve.
  - intros j Hj. exists (ClientError 429 "RESOURCE_EXHAUSTED").
    unfold succeeds_at_third. destruct (Z.ltb_spec j 3); [by split|cbn in Hj; lia].
  - cbn. lia.
Defined.

Lemma outcome_of_last_attempt_witness :
  retry_predicate (config_of (Some slow_start_config)) = None
  /\ retryable_generate (Some slow_start_config) always_rate_limited
     = inr (Some {| result := rate_limited; attempts := 3; sleeps := [100; 100] |})
  /\ result {| result := rate_limited; attempts := 3; sleeps := [100; 100] |}
     = always_rate_limited 3.
Proof.
  split; [reflexivity|]. split; [reflexivity|].
  exact (proj1 (outcome_of_last_attempt (Some slow_start_config)
                  always_rate_limited
                  {| result := rate_limited; attempts := 3; sleeps := [100; 100] |}
                  eq_refl eq_refl)).
Defined.

Lemma no_retry_when_budget_at_most_one_witness :
  (exists self, _build_retry_wrapper (Some single_attempt_config) = inr self)
  /\ max_retries (config_of (Some single_attempt_config)) <= 1
  /\ exists run,
       retryable_generate (Some single_attempt_config) always_rate_limited
       = inr (Some run)
       /\ attempts run = 1 /\ sleeps run = [].
Proof.
  assert (H : max_retries (config_of (Some single_attempt_config)) <= 1)
    by (cbn; lia).
  split; [eexists; reflexivity|]. split; [exact H|].
  exact (no_retry_when_budget_at_most_one (Some single_attempt_config) _
           always_rate_limited eq_refl H).
Defined.

Lemma wait_monotone_witness :
  0 <= 1 <= 4
  /\ exists self,
       _build_retry_wrapper (Some rounded_config) = inr self
       /\ wait_of self 1 <= wait_of self 4.
Proof.
  assert (H : 0 <= 1 <= 4) by lia.
  split; [exact H|]. eexists. split; [reflexivity|].
  exact (proj1 (wait_monotone (Some rounded_config) _ 1 4 eq_refl H)).
Defined.

Lemma wait_doubles_until_capped_witness :
  0 <= initial_delay_sec (config_of (Some scenario_config))
    <= max_delay_sec (config_of (Some scenario_config))
  /\ max_delay_sec (config_of (Some scenario_config)) <= 2 ^ 53
  /\ 0 <= 5
  /\ wait_after (Some scenario_config) 5 = Some (Z.min 60 (1 * 2 ^ 5))
  /\ wait_after (Some scenario_config) 6 = Some 60.
Proof.
  assert (H1 : 0 <= initial_delay_sec (config_of (Some scenario_config))
               <= max_delay_sec (config_of (Some scenario_config)))
    by (cbn; lia).
  assert (H2 : max_delay_sec (config_of (Some scenario_config)) <= 2 ^ 53)
    by (cbn; lia).
  assert (H3 : 0 <= 5) by lia.
  split; [exact H1|]. split; [exact H2|]. split; [exact H3|].
  destruct (wait_doubles_until_capped (Some scenario_config) 5 H1 H2 H3)
    as (_ & Hn & Hnext & _).
  split; [exact Hn|exact Hnext].
Defined.

Lemma retry_run_bounded_witness :
  (exists self, _build_retry_wrapper (Some slow_start_config) = inr self)
  /\ exists run,
       retryable_generate (Some slow_start_config) always_rate_limited
       = inr (Some run)
       /\ 1 <= attempts run <= 3.
Proof.
  split; [eexists; reflexivity|].
  destruct (retry_run_bounded (Some slow_start_config) _ always_rate_limited
              eq_refl)
    as (run & fmin & fmax & Hrun & Hatt & _).
  exists run. split; [exact Hrun|exact Hatt].
Defined.

End retry_runs_instances.

(** * Further properties of the stream aggregator *)

Section stream_runs_properties.
Import llm_response google_llm.
Variable create : types.GenerateContentResponse -> LlmResponse.

Implicit Types (st : Locals) (chunk : types.GenerateContentResponse).
Implicit Types (responses : list types.GenerateContentResponse).

Lemma merged_parts_filled (thought_text text : string) :
  nonempty thought_text || nonempty text = true ->
  merged_parts thought_text text <> []
  /\ Forall (fun p => truthy_str (types.text p) = true
                      /\ types.inline_data p = None)
            (merged_parts thought_text text).
Proof.
  unfold merged_parts.
  destruct (nonempty thought_text) eqn:H1, (nonempty text) eqn:H2;
    cbn; intros H; try discriminate; split; try discriminate;
    repeat constructor; assumption.
Qed.

Lemma loop_elem_of responses : forall st e,
  e ∈ (loop create st responses).2 ->
  exists st' chunk, e ∈ (loop_body create st' chunk).2.
Proof.
  induction responses as [|chunk responses IH]; intros st e.
  - cbn. by rewrite elem_of_nil.
  - rewrite loop_cons. cbn [snd]. rewrite elem_of_app. intros [H|H]; eauto.
Qed.

(** X10.  A synthesized event is never empty: every event yielded at the
    merge of line 207 or after the loop has a model content of at least
    one part, each part with a non-empty text and no binary data, and is
    not marked partial. *)
Theorem merged_events_never_empty responses (site : YieldSite) (event : LlmResponse) :
  site <> chunk_yield ->
  (site, event) ∈ labelled_stream create responses ->
  partial event = None
  /\ exists ps,
       content event = Some (types.ModelContent ps)
       /\ ps <> []
       /\ Forall (fun p => truthy_str (types.text p) = true
                           /\ types.inline_data p = None) ps.
Proof.
  intros Hsite Hin. unfold labelled_stream in Hin.
  apply elem_of_app in Hin as [Hin|Hin].
  - apply loop_elem_of in Hin as (st & chunk & Hin).
    rewrite loop_body_output in Hin.
    destruct (is_boundary create chunk) eqn:Hb; cbn [andb] in Hin.
    + destruct (nonempty (thought_text st) || nonempty (text st)) eqn:Hp;
        cbn [app] in Hin.
      * apply elem_of_cons in Hin as [[= -> ->]|Hin].
        -- split; [reflexivity|]. eexists. split; [reflexivity|].
           by apply merged_parts_filled.
        -- apply list_elem_of_singleton in Hin as [= -> ->]. contradiction.
      * apply list_elem_of_singleton in Hin as [= -> ->]. contradiction.
    + cbn [app] in Hin. apply list_elem_of_singleton in Hin as [= -> ->].
      contradiction.
  - unfold after_loop in Hin.
    destruct (nonempty (text (loop create initial responses).1)
              || nonempty (thought_text (loop create initial responses).1))
      eqn:Hp; [|by apply elem_of_nil in Hin].
    destruct (response _) as [last|]; [|by apply elem_of_nil in Hin].
    destruct (types.candidates last) as [[|candidate0 rest]|];
      try (by apply elem_of_nil in Hin).
    apply list_elem_of_singleton in Hin as [= -> ->].
    split; [reflexivity|]. eexists. split; [reflexivity|].
    apply merged_parts_filled. by rewrite orb_comm.
Qed.

Lemma loop_nothing_pending responses : forall st,
  thought_text st = "" -> text st = "" ->
  Forall (fun chunk => is_text create chunk = false) responses ->
  (loop create st responses).2 = (fun chunk => (chunk_yield, create chunk)) <$> responses
  /\ thought_text (loop create st responses).1 = ""
  /\ text (loop create st responses).1 = "".
Proof.
  induction responses as [|chunk responses IH]; intros st Ht Ha Hall; [done|].
  apply Forall_cons in Hall as [Hchunk Hall].
  rewrite loop_cons. cbn [fst snd].
  pose proof (loop_body_buffer create st chunk Thought) as Hbt.
  pose proof (loop_body_buffer create st chunk Answer) as Hba.
  cbn [buffer] in Hbt, Hba.
  rewrite (chunk_text_no_text create Thought chunk Hchunk), Ht in Hbt.
  rewrite (chunk_text_no_text create Answer chunk Hchunk), Ha in Hba.
  assert (Ht' : thought_text (loop_body create st chunk).1 = "")
    by (rewrite Hbt; by destruct (is_boundary create chunk)).
  assert (Ha' : text (loop_body create st chunk).1 = "")
    by (rewrite Hba; by destruct (is_boundary create chunk)).
  destruct (IH _ Ht' Ha' Hall) as (Hout & Ht'' & Ha'').
  rewrite Hout, loop_body_output, Ht, Ha. cbn [nonempty orb].
  rewrite andb_false_r. unfold forwarded. rewrite Hchunk. by split.
Qed.

(** X11.  A stream in which no chunk carries text in its first segment is
    passed through as it is: one event per chunk, the converted chunk
    itself, and nothing synthesized.  In particular the empty stream
    yields nothing. *)
Theorem text_free_stream_passthrough responses :
  Forall (fun chunk => is_text create chunk = false) responses ->
  generate_content_async create responses = create <$> responses.
Proof.
  intros Hall. unfold generate_content_async, labelled_stream.
  destruct (loop_nothing_pending responses initial eq_refl eq_refl Hall)
    as (Hout & Ht & Ha).
  rewrite Hout. unfold after_loop. rewrite Ht, Ha. cbn [nonempty orb].
  rewrite app_nil_r, <- list_fmap_compose. by apply list_fmap_ext.
Qed.

Lemma loop_length responses : forall st,
  length (loop create st responses).2
  + length (after_loop (loop create st responses).1)
  <= length responses
     + (if nonempty (thought_text st) || nonempty (text st) then 1 else 0)
     + length (filter (fun chunk => is_text create chunk = true) responses).
Proof.
  induction responses as [|chunk responses IH]; intros st.
  - cbn. unfold after_loop. rewrite (orb_comm (nonempty (text st))).
    destruct (nonempty (thought_text st) || nonempty (text st)); [|cbn; lia].
    destruct (response st) as [last|]; [|cbn; lia].
    destruct (types.candidates last) as [[|? ?]|]; cbn; lia.
  - rewrite loop_cons. cbn [fst snd]. rewrite length_app.
    specialize (IH (loop_body create st chunk).1).
    pose proof (loop_body_buffer create st chunk Thought) as Hbt.
    pose proof (loop_body_buffer create st chunk Answer) as Hba.
    cbn [buffer] in Hbt, Hba. rewrite Hbt, Hba in IH.
    rewrite loop_body_output. rewrite filter_cons. cbn [length].
    destruct (is_boundary create chunk) eqn:Hb; cbn [andb].
    + rewrite decide_False
        by (rewrite (is_boundary_no_text create chunk Hb); discriminate).
      cbn [nonempty orb] in IH.
      destruct (nonempty (thought_text st) || nonempty (text st));
        cbn [app length]; lia.
    + cbn [app length].
      destruct (is_text create chunk) eqn:Ht.
      * rewrite decide_True by reflexivity. cbn [length].
        destruct (nonempty (thought_text st +:+ _) || nonempty (text st +:+ _));
          destruct (nonempty (thought_text st) || nonempty (text st)); lia.
      * rewrite decide_False by discriminate.
        rewrite (chunk_text_no_text create Thought chunk Ht),
          (chunk_text_no_text create Answer chunk Ht), !append_nil_r in IH.
        lia.
Qed.

(** X12.  The stream grows by at most one synthesized event per text
    chunk: the caller receives at least as many events as there are
    chunks, and at most the number of chunks plus the number of chunks
    with text in their first segment. *)
Theorem stream_length_bounds responses :
  length responses <= length (generate_content_async create responses)
  /\ length (generate_content_async create responses)
     <= length responses
        + length (filter (fun chunk => is_text create chunk = true) responses).
Proof.
  unfold generate_content_async. rewrite length_fmap. split.
  - unfold labelled_stream. rewrite length_app.
    pose proof (loop_yielded_chunk create responses initial) as H.
    apply (f_equal length) in H. rewrite length_fmap in H. rewrite <- H.
    unfold yielded_at. rewrite length_fmap.
    pose proof (length_filter (fun e : YieldSite * LlmResponse => e.1 = chunk_yield)
                  (loop create initial responses).2).
    lia.
  - unfold labelled_stream. rewrite length_app.
    pose proof (loop_length responses initial) as H. cbn [initial thought_text text
      nonempty orb] in H. lia.
Qed.

(** X13.  Flushing is idempotent.  A merge boundary leaves both buffers
    empty, so a boundary chunk that follows it, or the end of the stream,
    yields no second merged event. *)
Theorem flush_is_idempotent st chunk :
  is_boundary create chunk = true ->
  let st' := (loop_body create st chunk).1 in
  thought_text st' = "" /\ text st' = ""
  /\ after_loop st' = []
  /\ (forall next, is_boundary create next = true ->
        (loop_body create st' next).2 = [(chunk_yield, create next)]).
Proof.
  intros Hb. cbn zeta.
  pose proof (loop_body_buffer create st chunk Thought) as Ht.
  pose proof (loop_body_buffer create st chunk Answer) as Ha.
  cbn [buffer] in Ht, Ha. rewrite Hb in Ht, Ha.
  split; [exact Ht|]. split; [exact Ha|]. split.
  - unfold after_loop. by rewrite Ht, Ha.
  - intros next Hnext. rewrite loop_body_output, Ht, Ha. cbn [nonempty orb].
    rewrite andb_false_r. unfold forwarded.
    by rewrite (is_boundary_no_text create next Hnext).
Qed.

End stream_runs_properties.

Section stream_runs_instances.
Import llm_response google_llm.

Lemma merged_events_never_empty_witness :
  merged_yield <> chunk_yield
  /\ (merged_yield, hello_merged) ∈ labelled_stream create_first_candidate hello_chunks
  /\ partial hello_merged = None.
Proof.
  assert (H1 : merged_yield <> chunk_yield) by discriminate.
  assert (H2 : (merged_yield, hello_merged)
               ∈ labelled_stream create_first_candidate hello_chunks).
  { vm_compute. do 2 apply list_elem_of_further. apply list_elem_of_here. }
  split; [exact H1|]. split; [exact H2|].
  exact (proj1 (merged_events_never_empty create_first_candidate hello_chunks
                  merged_yield hello_merged H1 H2)).
Defined.

Lemma text_free_stream_passthrough_witness :
  Forall (fun chunk => is_text create_first_candidate chunk = false)
         [audio_chunk; finish_chunk types.STOP]
  /\ generate_content_async create_first_candidate
       [audio_chunk; finish_chunk types.STOP]
     = create_first_candidate <$> [audio_chunk; finish_chunk types.STOP].
Proof.
  assert (H : Forall (fun chunk => is_text create_first_candidate chunk = false)
                     [audio_chunk; finish_chunk types.STOP]).
  { repeat constructor. }
  split; [exact H|].
  exact (text_free_stream_passthrough create_first_candidate _ H).
Defined.

Lemma flush_is_idempotent_witness :
  is_boundary create_first_candidate (finish_chunk types.STOP) = true
  /\ after_loop (loop_body create_first_candidate hi_pending
                   (finish_chunk types.STOP)).1 = [].
Proof.
  assert (H : is_boundary create_first_candidate (finish_chunk types.STOP) = true)
    by reflexivity.
  split; [exact H|].
  exact (proj1 (proj2 (proj2 (flush_is_idempotent create_first_candidate
                                hi_pending (finish_chunk types.STOP) H)))).
Defined.

End stream_runs_instances.

(** * Properties of the request preprocessing *)

Section request_preprocessing_properties.
Import request_types request_preprocessing.

Lemma preprocess_part_clean part :
  google_llm.truthy_str (inline_data (preprocess_part part) ≫= Blob.display_name)
  = false
  /\ google_llm.truthy_str (file_data (preprocess_part part) ≫= FileData.display_name)
     = false.
Proof.
  destruct part as [[blob|] [file|] txt]; cbn;
    repeat match goal with
      | |- context [google_llm.truthy_str ?x] =>
          lazymatch x with
          | Blob.display_name _ => destruct (google_llm.truthy_str x) eqn:?
          | FileData.display_name _ => destruct (google_llm.truthy_str x) eqn:?
          end
      end; cbn; auto.
Qed.

Lemma preprocess_part_payload part : payload (preprocess_part part) = payload part.
Proof.
  destruct part as [[blob|] [file|] txt]; cbn; unfold payload; cbn;
    repeat match goal with
      | |- context [if ?b then _ else _] => destruct b
      end; reflexivity.
Qed.

Lemma preprocess_part_idempotent part :
  preprocess_part (preprocess_part part) = preprocess_part part.
Proof.
  destruct part as [[blob|] [file|] txt]; unfold preprocess_part; cbn;
    try destruct (google_llm.truthy_str (Blob.display_name blob)) eqn:Hb;
    try destruct (google_llm.truthy_str (FileData.display_name file)) eqn:Hf;
    cbn; rewrite ?Hb, ?Hf; reflexivity.
Qed.

Lemma preprocess_content_parts content :
  default [] (parts (preprocess_content content))
  = preprocess_part <$> default [] (parts content).
Proof.
  unfold preprocess_content.
  destruct (parts content) as [[|p ps]|] eqn:Hparts; by rewrite ?Hparts.
Qed.

Lemma all_parts_preprocess llm_request :
  all_parts (_preprocess_request GEMINI_API llm_request)
  = preprocess_part <$> all_parts llm_request.
Proof.
  unfold all_parts. cbn [_preprocess_request contents].
  induction (contents llm_request) as [|content cs IH]; [reflexivity|].
  rewrite fmap_cons, !bind_cons, fmap_app, IH. f_equal.
  apply preprocess_content_parts.
Qed.

(** X14.  Against the Gemini API backend the request leaves the
    preprocessing without labels and without a display name that tests
    true on any inline data or file data of any part, while the bytes,
    MIME types, file URIs and texts of the parts, the model and the HTTP
    options are what they were. *)
Theorem preprocess_strips_display_names (llm_request : LlmRequest) :
  let result := _preprocess_request GEMINI_API llm_request in
  (config result ≫= labels) = None
  /\ Forall (fun part =>
               google_llm.truthy_str (inline_data part ≫= Blob.display_name) = false
               /\ google_llm.truthy_str (file_data part ≫= FileData.display_name)
                  = false)
            (all_parts result)
  /\ payload <$> all_parts result = payload <$> all_parts llm_request
  /\ length (contents result) = length (contents llm_request)
  /\ model result = model llm_request
  /\ (config result ≫= http_options) = (config llm_request ≫= http_options).
Proof.
  cbn zeta. rewrite all_parts_preprocess. repeat split.
  - cbn. by destruct (config llm_request).
  - apply Forall_fmap, Forall_forall. intros part _. apply preprocess_part_clean.
  - rewrite <- list_fmap_compose. apply list_fmap_ext. intros _ part _.
    apply preprocess_part_payload.
  - cbn. apply length_fmap.
  - cbn. by destruct (config llm_request).
Qed.

Lemma preprocess_content_idempotent content :
  preprocess_content (preprocess_content content) = preprocess_content content.
Proof.
  unfold preprocess_content. destruct (parts content) as [[|p ps]|] eqn:Hparts;
    rewrite ?Hparts; try reflexivity.
  cbn [parts fmap list_fmap]. f_equal. f_equal.
  change (preprocess_part <$> (preprocess_part <$> (p :: ps))
          = preprocess_part <$> (p :: ps)).
  rewrite <- list_fmap_compose. apply list_fmap_ext. intros _ part _.
  apply preprocess_part_idempotent.
Qed.

(** X15.  Preprocessing is idempotent for either backend: a request that
    went through it is not changed by going through it again. *)
Theorem preprocess_idempotent (backend : GoogleLLMVariant) (llm_request : LlmRequest) :
  _preprocess_request backend (_preprocess_request backend llm_request)
  = _preprocess_request backend llm_request.
Proof.
  destruct backend; [reflexivity|]. unfold _preprocess_request. cbn. f_equal.
  - rewrite <- list_fmap_compose. apply list_fmap_ext. intros _ content _.
    apply preprocess_content_idempotent.
  - by destruct (config llm_request).
Qed.

(** X16.  When the request has HTTP options, its headers after the update
    of lines 157-160 give the version header for [x-goog-api-client] and
    for [user-agent], whatever the request had set for them, and every
    other header as the request had it; the contents and the rest of the
    configuration are untouched. *)
Theorem tracking_headers_win (adk_version python_version : string)
    (engine_id : option string) (llm_request : LlmRequest)
    (cfg : GenerateContentConfig) (options : HttpOptions) :
  config llm_request = Some cfg ->
  http_options cfg = Some options ->
  let value := version_header_value adk_version engine_id python_version in
  let result :=
    add_tracking_headers (_tracking_headers adk_version engine_id python_version)
                         llm_request in
  exists h : gmap string string,
    ((config result ≫= http_options) ≫= headers) = Some h
    /\ h !! "x-goog-api-client" = Some value
    /\ h !! "user-agent" = Some value
    /\ (forall k : string, k <> "x-goog-api-client" -> k <> "user-agent" ->
          h !! k = default ∅ (headers options) !! k)
    /\ contents result = contents llm_request
    /\ model result = model llm_request
    /\ (config result ≫= labels) = labels cfg.
Proof.
  intros Hcfg Hopt. cbn zeta. unfold add_tracking_headers. rewrite Hcfg, Hopt.
  cbn. eexists. split; [reflexivity|]. unfold update, _tracking_headers.
  repeat split.
  - apply lookup_union_Some_l. apply lookup_insert_eq.
  - apply lookup_union_Some_l. rewrite lookup_insert_ne by discriminate.
    apply lookup_insert_eq.
  - intros k Hk1 Hk2. rewrite lookup_union_r.
    + destruct (headers options) as [h|]; [|reflexivity]. cbn.
      case_bool_decide; by subst.
    + rewrite !lookup_insert_ne by congruence. apply lookup_empty.
Qed.

End request_preprocessing_properties.

Section request_preprocessing_instances.
Import request_types request_preprocessing.

Lemma tracking_headers_win_witness :
  config sample_request = Some sample_config
  /\ http_options sample_config = Some sample_options
  /\ exists h : gmap string string,
       ((config (add_tracking_headers (_tracking_headers "1.0.0" None "3.11.4")
                   sample_request) ≫= http_options) ≫= headers) = Some h
       /\ h !! "x-goog-api-client" = Some "google-adk/1.0.0 gl-python/3.11.4".
Proof.
  split; [reflexivity|]. split; [reflexivity|].
  destruct (tracking_headers_win "1.0.0" "3.11.4" None sample_request
              sample_config sample_options eq_refl eq_refl)
    as (h & Hh & Hclient & _).
  exists h. split; [exact Hh|exact Hclient].
Defined.

End request_preprocessing_instances.

(** * Properties of the request converter *)

Section request_converter_properties.
Import request_converter.
Context {A2APart : Type}.
Implicit Types request : RequestContext A2APart.

(** X17.  The user id is never empty: it is the user name of the call
    context when there is one and it is not empty, and otherwise
    [A2A_USER_] followed by the context id (by [None] without one). *)
Theorem user_id_never_empty request :
  _get_user_id request <> ""
  /\ (forall cc u,
        call_context request = Some cc -> user cc = Some u ->
        user_name u <> "" ->
        _get_user_id request = user_name u)
  /\ ((call_context request ≫= user) = None ->
      _get_user_id request = "A2A_USER_" +:+ str (context_id request)).
Proof.
  assert (Hprefix : forall s, "A2A_USER_" +:+ s <> "").
  { intros s H. apply (f_equal String.length) in H. discriminate H. }
  unfold _get_user_id. split; [|split].
  - destruct (call_context request) as [[[[name]|]]|]; cbn;
      [destruct name; [apply Hprefix|discriminate]|apply Hprefix..].
  - intros cc u -> -> Hname. by destruct (user_name u).
  - by destruct (call_context request) as [[[u|]]|].
Qed.

End request_converter_properties.

Section request_converter_instances.
Import request_converter.

Lemma user_id_never_empty_witness :
  call_context alice_request = Some alice_context
  /\ user alice_context = Some {| user_name := "alice" |}
  /\ user_name {| user_name := "alice" |} <> ""
  /\ _get_user_id alice_request = "alice".
Proof.
  assert (H : user_name {| user_name := "alice" |} <> "") by discriminate.
  split; [reflexivity|]. split; [reflexivity|]. split; [exact H|].
  exact (proj1 (proj2 (user_id_never_empty alice_request))
           alice_context {| user_name := "alice" |} eq_refl eq_refl H).
Defined.

End request_converter_instances.

(** * Properties of the toolset base class *)

Section base_toolset_properties.
Import base_toolset.
Context {ReadonlyContext : Type}.
Implicit Types (self : BaseToolset ReadonlyContext) (heap : Heap).
Implicit Types (tool : BaseTool) (tools : list ref).

Lemma prefix_tool_lookup prefix heap r r' :
  prefix_tool prefix heap r r'
  = if decide (r = r') then prefix_tool prefix heap r r else heap r'.
Proof.
  destruct (decide (r = r')) as [<-|Hne]; [reflexivity|].
  unfold prefix_tool. cbn zeta. by apply fn_lookup_insert_ne.
Qed.

Lemma prefix_tool_self prefix heap r :
  prefix_tool prefix heap r r
  = {| name := prefix +:+ "_" +:+ name (heap r);
       description := description (heap r);
       is_long_running := is_long_running (heap r);
       _get_declaration := fun current =>
         match _get_declaration (heap r) current with
         | Some declaration =>
             Some {| declaration_name := prefix +:+ "_" +:+ name (heap r);
                     declaration_description :=
                       declaration_description declaration |}
         | None => None
         end |}.
Proof. unfold prefix_tool. cbn zeta. apply fn_lookup_insert. Qed.

Lemma foldl_prefix_tool_other prefix tools : forall heap r,
  r ∉ tools -> foldl (prefix_tool prefix) heap tools r = heap r.
Proof.
  induction tools as [|t tools IH]; intros heap r Hr; [reflexivity|].
  apply not_elem_of_cons in Hr as [Hne Hr]. cbn [foldl].
  rewrite IH by assumption. rewrite prefix_tool_lookup.
  by rewrite decide_False by congruence.
Qed.

Lemma foldl_prefix_tool_member prefix tools : forall heap r,
  NoDup tools -> r ∈ tools ->
  foldl (prefix_tool prefix) heap tools r = prefix_tool prefix heap r r.
Proof.
  induction tools as [|t tools IH]; intros heap r Hdup Hr;
    [by apply elem_of_nil in Hr|].
  apply NoDup_cons in Hdup as [Hfresh Hdup]. cbn [foldl].
  apply elem_of_cons in Hr as [->|Hr].
  - by rewrite foldl_prefix_tool_other.
  - rewrite IH by assumption.
    assert (t <> r) by (intros ->; contradiction).
    rewrite !prefix_tool_self, prefix_tool_lookup.
    by rewrite decide_False by assumption.
Qed.

(** X19.  With [add_tool_name_prefix] set and every tool a different
    object, [get_prefixed_tools] returns the very tools it was given and
    renames them in place: each is called prefix, underscore, former
    name, its declaration (when it has one) carries the new name and the
    former description, its other attributes are kept, and no other
    object is touched. *)
Theorem prefixing_in_place self tools heap :
  add_tool_name_prefix self = true ->
  NoDup tools ->
  let result := get_prefixed_tools self tools heap in
  result.1 = tools
  /\ (forall r, r ∈ tools ->
        name (result.2 r) = tool_name_prefix self +:+ "_" +:+ name (heap r)
        /\ description (result.2 r) = description (heap r)
        /\ is_long_running (result.2 r) = is_long_running (heap r)
        /\ forall current,
             _get_declaration (result.2 r) current
             = (fun d => {| declaration_name := name (result.2 r);
                            declaration_description := declaration_description d |})
               <$> _get_declaration (heap r) current)
  /\ (forall r, r ∉ tools -> result.2 r = heap r).
Proof.
  intros Hprefix Hdup. cbn zeta. unfold get_prefixed_tools. rewrite Hprefix.
  cbn [negb fst snd]. split; [reflexivity|]. split.
  - intros r Hr. rewrite foldl_prefix_tool_member by assumption.
    rewrite prefix_tool_self. cbn.
    repeat split; intros; by destruct (_get_declaration (heap r) _).
  - intros r Hr. by apply foldl_prefix_tool_other.
Qed.

(** A tool that occurs several times in the list is prefixed once for
    each occurrence. *)
Lemma foldl_prefix_tool_name prefix tools : forall heap r,
  name (foldl (prefix_tool prefix) heap tools r)
  = prefixed prefix (occurrences r tools) (name (heap r)).
Proof.
  unfold prefixed, occurrences.
  induction tools as [|t tools IH]; intros heap r; [reflexivity|].
  cbn [foldl]. rewrite IH, prefix_tool_lookup.
  destruct (decide (t = r)) as [->|Hne].
  - rewrite filter_cons_True by reflexivity. cbn [length].
    rewrite Nat.iter_succ_r. by rewrite prefix_tool_self.
  - by rewrite filter_cons_False by assumption.
Qed.

Lemma occurrences_NoDup tools (r : ref) :
  NoDup tools -> r ∈ tools -> occurrences r tools = 1%nat.
Proof.
  unfold occurrences. induction 1 as [|t tools Hfresh Hdup IH]; intros Hr;
    [by apply elem_of_nil in Hr|].
  apply elem_of_cons in Hr as [->|Hr].
  - rewrite filter_cons_True by reflexivity. cbn [length]. f_equal.
    apply length_zero_iff_nil, elem_of_nil_inv. intros x Hx.
    apply list_elem_of_filter in Hx as [-> Hx]. contradiction.
  - rewrite filter_cons_False; [by apply IH|]. intros ->. contradiction.
Qed.

Lemma prefixed_inj prefix times (n1 n2 : string) :
  prefixed prefix times n1 = prefixed prefix times n2 -> n1 = n2.
Proof.
  unfold prefixed. induction times as [|times IH]; [done|].
  cbn [Nat.iter]. intros Heq. apply IH.
  by apply (inj (String.app prefix)), (inj (String.app "_")) in Heq.
Qed.

(** X20.  The renaming is not idempotent, and it is applied once for
    each occurrence of a tool object in the list: after one call a tool
    that occurs [k] times carries the prefix [k] times, and asking the
    same toolset for its prefixed tools a second time prefixes the same
    objects again, [2 * k] times in all; a tool that occurs once in a list
    without duplicates is then called prefix, underscore, prefix,
    underscore, former name. *)
Theorem prefixing_twice_stacks self tools heap (r : ref) :
  add_tool_name_prefix self = true ->
  let once := get_prefixed_tools self tools heap in
  let twice := get_prefixed_tools self once.1 once.2 in
  name (once.2 r)
  = prefixed (tool_name_prefix self) (occurrences r tools) (name (heap r))
  /\ name (twice.2 r)
     = prefixed (tool_name_prefix self) (2 * occurrences r tools) (name (heap r))
  /\ (NoDup tools -> r ∈ tools ->
      name (twice.2 r)
      = tool_name_prefix self +:+ "_" +:+ tool_name_prefix self +:+ "_"
        +:+ name (heap r)).
Proof.
  intros Hprefix. cbn zeta. unfold get_prefixed_tools. rewrite Hprefix.
  cbn [negb fst snd]. rewrite !foldl_prefix_tool_name.
  assert (Htwice : prefixed (tool_name_prefix self) (occurrences r tools)
                     (prefixed (tool_name_prefix self) (occurrences r tools)
                        (name (heap r)))
                   = prefixed (tool_name_prefix self) (2 * occurrences r tools)
                       (name (heap r))).
  { unfold prefixed. rewrite <- Nat.iter_add. f_equal. lia. }
  split; [reflexivity|]. split; [exact Htwice|].
  intros Hdup Hr. rewrite Htwice, (occurrences_NoDup tools r Hdup Hr). reflexivity.
Qed.

(** X21.  Without [add_tool_name_prefix] nothing is renamed; with it, two
    tools that occur equally often in the list, as they do when both occur
    and the list has no duplicates, and that had different names still
    have different names. *)
Theorem prefixing_keeps_names_distinct self tools heap (r1 r2 : ref) :
  occurrences r1 tools = occurrences r2 tools ->
  name (heap r1) <> name (heap r2) ->
  let result := get_prefixed_tools self tools heap in
  name (result.2 r1) <> name (result.2 r2)
  /\ (add_tool_name_prefix self = false -> result.2 = heap)
  /\ (NoDup tools -> r1 ∈ tools -> r2 ∈ tools ->
      occurrences r1 tools = 1%nat /\ occurrences r2 tools = 1%nat).
Proof.
  intros Hocc Hne. cbn zeta. unfold get_prefixed_tools. split; [|split].
  - destruct (add_tool_name_prefix self); cbn [negb fst snd]; [|exact Hne].
    rewrite !foldl_prefix_tool_name, Hocc. intros Heq. apply Hne.
    by apply prefixed_inj in Heq.
  - by intros ->.
  - intros Hdup Hr1 Hr2. split; by apply occurrences_NoDup.
Qed.

End base_toolset_properties.

Section base_toolset_instances.
Import base_toolset.

Lemma prefixing_in_place_witness :
  add_tool_name_prefix sample_toolset = true
  /\ NoDup [0; 1]
  /\ (get_prefixed_tools sample_toolset [0; 1] sample_tools).1 = [0; 1].
Proof.
  assert (H : NoDup [0; 1]) by (apply (bool_decide_unpack _); vm_compute; exact I).
  split; [reflexivity|]. split; [exact H|].
  exact (proj1 (prefixing_in_place sample_toolset [0; 1] sample_tools eq_refl H)).
Defined.

Lemma prefixing_twice_stacks_witness :
  add_tool_name_prefix sample_toolset = true
  /\ name ((get_prefixed_tools sample_toolset
              (get_prefixed_tools sample_toolset [0; 0; 1] sample_tools).1
              (get_prefixed_tools sample_toolset [0; 0; 1] sample_tools).2).2 0)
     = prefixed "bigquerytoolset" (2 * occurrences 0 [0; 0; 1]) "query"
  /\ prefixed "bigquerytoolset" (2 * occurrences 0 [0; 0; 1]) "query"
     = "bigquerytoolset_bigquerytoolset_bigquerytoolset_bigquerytoolset_query".
Proof.
  split; [reflexivity|]. split; [|reflexivity].
  exact (proj1 (proj2 (prefixing_twice_stacks sample_toolset [0; 0; 1]
                         sample_tools 0 eq_refl))).
Defined.

Lemma prefixing_keeps_names_distinct_witness :
  occurrences 0 [0; 1] = occurrences 1 [0; 1]
  /\ name (sample_tools 0) <> name (sample_tools 1)
  /\ name ((get_prefixed_tools sample_toolset [0; 1] sample_tools).2 0)
     <> name ((get_prefixed_tools sample_toolset [0; 1] sample_tools).2 1).
Proof.
  assert (Hne : name (sample_tools 0) <> name (sample_tools 1)) by discriminate.
  split; [reflexivity|]. split; [exact Hne|].
  exact (proj1 (prefixing_keeps_names_distinct sample_toolset [0; 1] sample_tools
                  0 1 eq_refl Hne)).
Defined.

End base_toolset_instances.

(** * Properties of the output-schema response processor *)

Section output_schema_processor_properties.
Import output_schema_processor.
Variable MODEL_JSON_RESPONSE_KEY : string.

Implicit Types (agent : Agent) (state : State).
Implicit Types llm_response : llm_response.LlmResponse.

(** X22.  The structured response is consumed exactly once.  After the
    processor has run, the state holds no non-empty response under the
    key and every other entry as before; when it found one, the content
    of the response is that text as a single model part; and running the
    processor again changes neither the response nor the state. *)
Theorem structured_response_consumed_once agent llm_response state :
  let result := response_processor MODEL_JSON_RESPONSE_KEY agent llm_response state in
  (is_llm_agent agent = true -> has_output_schema agent = true ->
   tool_count agent <> 0%nat ->
   (forall json, state !! MODEL_JSON_RESPONSE_KEY = Some json ->
                 google_llm.nonempty json = true ->
                 google_llm.event_text google_llm.Answer result.1 = json
                 /\ result.2 !! MODEL_JSON_RESPONSE_KEY = None)
   /\ google_llm.truthy_str (result.2 !! MODEL_JSON_RESPONSE_KEY) = false)
  /\ (forall k, k <> MODEL_JSON_RESPONSE_KEY -> result.2 !! k = state !! k)
  /\ response_processor MODEL_JSON_RESPONSE_KEY agent result.1 result.2 = result.
Proof.
  cbn zeta. unfold response_processor, State in *.
  destruct (is_llm_agent agent); cbn [negb];
    [|split; [discriminate|by split]].
  destruct (has_output_schema agent); cbn [negb orb];
    [|split; [discriminate|by split]].
  case_bool_decide as Htools; [split; [intros _ _ ?; contradiction|by split]|].
  destruct (state !! MODEL_JSON_RESPONSE_KEY) as [json|] eqn:Hkey.
  - destruct (google_llm.nonempty json) eqn:Hjson; cbn [fst snd].
    + split; [|split].
      * intros _ _ _. split.
        -- intros json' [= <-] _. split; [|apply lookup_delete_eq].
           unfold google_llm.event_text. cbn.
           unfold google_llm.part_text, google_llm.kind_of_part. cbn.
           apply append_nil_r.
        -- by rewrite lookup_delete_eq.
      * intros k Hk. by apply lookup_delete_ne.
      * by rewrite lookup_delete_eq.
    + split; [|split].
      * intros _ _ _. split; [intros json' [= <-] ?; congruence|].
        by rewrite Hkey.
      * done.
      * by rewrite Hkey, Hjson.
  - cbn [fst snd]. split; [|split].
    + intros _ _ _. split; [discriminate|]. by rewrite Hkey.
    + done.
    + by rewrite Hkey.
Qed.

End output_schema_processor_properties.

Section output_schema_processor_instances.
Import output_schema_processor.

Lemma structured_response_consumed_once_witness :
  is_llm_agent structured_agent = true
  /\ has_output_schema structured_agent = true
  /\ tool_count structured_agent <> 0%nat
  /\ sample_state !! "temp:__adk_model_response__" = Some "{}"
  /\ google_llm.nonempty "{}" = true
  /\ (response_processor "temp:__adk_model_response__" structured_agent
        empty_response sample_state).2 !! "temp:__adk_model_response__" = None.
Proof.
  assert (H : tool_count structured_agent <> 0%nat) by discriminate.
  assert (Hs : sample_state !! "temp:__adk_model_response__" = Some "{}")
    by reflexivity.
  split; [reflexivity|]. split; [reflexivity|]. split; [exact H|].
  split; [exact Hs|]. split; [reflexivity|].
  exact (proj2 (proj1 (proj1 (structured_response_consumed_once
                                "temp:__adk_model_response__" structured_agent
                                empty_response sample_state)
                          eq_refl eq_refl H) "{}" Hs eq_refl)).
Defined.

End output_schema_processor_instances.

(** * Properties of the local file artifact service *)
(** * Properties of the local file artifact service *)

Section artifact_strings.
Import local_file_artifact_service.

Lemma int_str n : int (str n) = n.
Proof. unfold int, str. rewrite NilEmpty.usu. cbn. apply Unsigned.of_to. Qed.

Lemma str_inj n m : str n = str m -> n = m.
Proof. intros H. rewrite <- (int_str n), <- (int_str m). by rewrite H. Qed.

Lemma str_nonempty n : google_llm.nonempty (str n) = true.
Proof.
  destruct (str n) eqn:Hs; [|reflexivity].
  pose proof (int_str n) as Hn. unfold int in Hn. rewrite Hs in Hn. cbn in Hn.
  subst n. discriminate Hs.
Qed.

Lemma isdigit_str n : isdigit (str n) = true.
Proof.
  unfold isdigit. rewrite str_nonempty. cbn [andb].
  apply bool_decide_eq_true. unfold str. rewrite NilEmpty.usu. eauto.
Qed.

Lemma uint_of_string_dot s t :
  NilEmpty.uint_of_string (s +:+ String "."%char t) = None.
Proof.
  induction s as [|a s IH].
  - change (uint_of_char "."%char (NilEmpty.uint_of_string t) = None).
    by destruct (NilEmpty.uint_of_string t).
  - change (uint_of_char a (NilEmpty.uint_of_string (s +:+ String "."%char t))
            = None).
    by rewrite IH.
Qed.

Lemma isdigit_metadata s : isdigit (s +:+ ".metadata.json") = false.
Proof.
  unfold isdigit. rewrite (uint_of_string_dot s "metadata.json").
  rewrite bool_decide_eq_false_2; [apply andb_false_r|]. by intros [? ?].
Qed.

Lemma str_not_metadata n s : str n <> s +:+ ".metadata.json".
Proof.
  intros H. pose proof (isdigit_str n) as Hd. rewrite H in Hd.
  by rewrite isdigit_metadata in Hd.
Qed.

Lemma str_int_of_nat n : str_int (Z.of_nat n) = str n.
Proof.
  unfold str_int. destruct (Z.ltb_spec (Z.of_nat n) 0); [lia|].
  by rewrite Nat2Z.id.
Qed.

Lemma append_length (s t : string) :
  String.length (s +:+ t) = String.length s + String.length t.
Proof.
  induction s as [|a s IH]; [reflexivity|].
  change (S (String.length (s +:+ t)) = S (String.length s + String.length t)).
  by rewrite IH.
Qed.

Lemma append_suffix_inj (t : string) : forall s1 s2,
  s1 +:+ t = s2 +:+ t -> s1 = s2.
Proof.
  induction s1 as [|a s1 IH]; intros [|b s2] H; [reflexivity| | |].
  - apply (f_equal String.length) in H. rewrite !append_length in H.
    cbn in H. lia.
  - apply (f_equal String.length) in H. rewrite !append_length in H.
    cbn in H. lia.
  - change (String a (s1 +:+ t) = String b (s2 +:+ t)) in H.
    injection H as -> H. f_equal. by apply IH.
Qed.

Lemma no_separator_uint (d : Decimal.uint) :
  no_separator (NilEmpty.string_of_uint d) = true.
Proof. induction d; cbn; auto. Qed.

Lemma no_separator_str n : no_separator (str n) = true.
Proof. apply no_separator_uint. Qed.

Lemma no_separator_app (s t : string) :
  no_separator (s +:+ t) = no_separator s && no_separator t.
Proof.
  induction s as [|a s IH]; [reflexivity|].
  change (no_separator (String a (s +:+ t))
          = no_separator (String a s) && no_separator t).
  unfold no_separator in *. cbn [String.list_ascii_of_string forallb].
  rewrite IH. by rewrite andb_assoc.
Qed.

Lemma split_no_separator (s : string) : no_separator s = true -> split s = [s].
Proof.
  unfold no_separator. induction s as [|a s IH]; [reflexivity|].
  cbn [String.list_ascii_of_string forallb split]. intros H.
  apply andb_prop in H as [Ha Hs]. apply andb_prop in Ha as [Ha _].
  apply negb_true_iff in Ha. rewrite Ha, (IH Hs). reflexivity.
Qed.

Lemma parse_parts_single (s : string) :
  no_separator s = true -> s <> "" -> s <> "." -> parse_parts s = [s].
Proof.
  intros Hs Hne Hdot. unfold parse_parts. rewrite (split_no_separator s Hs).
  by rewrite filter_cons_True, filter_nil.
Qed.

Lemma startswith_slash (s : string) :
  no_separator s = true -> startswith "/" s = false.
Proof.
  destruct s as [|a s]; [reflexivity|]. unfold no_separator.
  cbn [String.list_ascii_of_string forallb startswith]. intros H.
  apply andb_prop in H as [Ha _]. apply andb_prop in Ha as [Ha _].
  apply negb_true_iff in Ha. rewrite Ascii.eqb_sym. by rewrite Ha.
Qed.

Lemma joinpath_single (p : list string) (s : string) :
  no_separator s = true -> s <> "" -> s <> "." -> joinpath p s = p ++ [s].
Proof.
  intros Hs Hne Hdot. unfold joinpath.
  by rewrite (startswith_slash s Hs), parse_parts_single.
Qed.

Lemma has_null_app (p q : list string) : has_null (p ++ q) = has_null p || has_null q.
Proof. apply existsb_app. Qed.

Lemma plain_app (p q : list string) : plain (p ++ q) = plain p && plain q.
Proof.
  unfold plain. rewrite has_null_app, forallb_app.
  destruct (has_null p), (has_null q), (forallb _ p), (forallb _ q); reflexivity.
Qed.

Lemma plain_single (s : string) :
  no_separator s = true -> s <> ".." -> plain [s] = true.
Proof.
  intros Hs Hne. unfold plain, has_null. cbn [existsb forallb].
  rewrite orb_false_r, andb_true_r. apply andb_true_intro. split.
  - apply negb_true_iff. apply not_true_is_false. intros Hnul.
    apply existsb_exists in Hnul as (c & Hin & Hc).
    unfold no_separator in Hs. rewrite forallb_forall in Hs.
    specialize (Hs c Hin). apply andb_prop in Hs as [_ Hs].
    rewrite Ascii.eqb_sym in Hc. by rewrite Hc in Hs.
  - apply negb_true_iff. by apply String.eqb_neq.
Qed.

Lemma plain_take (p : list string) k : plain p = true -> plain (take k p) = true.
Proof.
  intros Hp. rewrite <- (take_drop k p), plain_app in Hp.
  by apply andb_prop in Hp as [? _].
Qed.

Lemma plain_no_null (p : list string) : plain p = true -> has_null p = false.
Proof. unfold plain. intros H. apply andb_prop in H as [H _]. by apply negb_true_iff. Qed.

Lemma plain_no_dotdot (p : list string) : plain p = true -> ".." ∉ p.
Proof.
  unfold plain. intros H Hin. apply andb_prop in H as [_ H].
  rewrite forallb_forall in H. apply list_elem_of_In in Hin.
  specialize (H _ Hin). by rewrite String.eqb_refl in H.
Qed.

Lemma plain_last (p : list string) : plain p = true -> last p <> Some "..".
Proof.
  intros Hp Hlast. apply (plain_no_dotdot p Hp).
  destruct p as [|a p] using rev_ind; [discriminate|].
  rewrite last_snoc in Hlast. injection Hlast as ->.
  rewrite elem_of_app, list_elem_of_singleton. by right.
Qed.

(** A version file or metadata file name is one part of a path. *)
Lemma version_file_name_part (name : string) :
  version_file_name name ->
  no_separator name = true /\ name <> "" /\ name <> "." /\ name <> "..".
Proof.
  intros [v [-> | ->]].
  - split; [apply no_separator_str|].
    pose proof (isdigit_str v) as Hd.
    repeat split; intros Heq; rewrite Heq in Hd; discriminate.
  - split; [by rewrite no_separator_app, no_separator_str|].
    repeat split; intros Heq; apply (f_equal String.length) in Heq;
      rewrite append_length in Heq; cbn in Heq; lia.
Qed.

Lemma joinpath_version_file (p : list string) (name : string) :
  version_file_name name -> joinpath p name = p ++ [name].
Proof.
  intros Hname. destruct (version_file_name_part name Hname) as (? & ? & ? & ?).
  by apply joinpath_single.
Qed.

Lemma plain_version_file (p : list string) (name : string) :
  version_file_name name -> plain (p ++ [name]) = plain p.
Proof.
  intros Hname. destruct (version_file_name_part name Hname) as (? & ? & ? & ?).
  rewrite plain_app, plain_single by assumption. apply andb_true_r.
Qed.

Lemma version_file_str v : version_file_name (str v).
Proof. exists v. by left. Qed.

Lemma version_file_metadata v : version_file_name (str v +:+ ".metadata.json").
Proof. exists v. by right. Qed.

Lemma artifact_file_path self app_name user_id session_id filename (v : nat) :
  _get_artifact_file_path self app_name user_id session_id filename (Z.of_nat v)
  = _get_artifact_dir self app_name user_id session_id filename ++ [str v].
Proof.
  unfold _get_artifact_file_path. rewrite str_int_of_nat.
  apply joinpath_version_file, version_file_str.
Qed.

Lemma metadata_file_path self app_name user_id session_id filename (v : nat) :
  _get_metadata_file_path self app_name user_id session_id filename (Z.of_nat v)
  = _get_artifact_dir self app_name user_id session_id filename
    ++ [str v +:+ ".metadata.json"].
Proof.
  unfold _get_metadata_file_path. rewrite str_int_of_nat.
  apply joinpath_version_file, version_file_metadata.
Qed.

Lemma str_int_part (z : Z) :
  no_separator (str_int z) = true /\ str_int z <> "" /\ str_int z <> "."
  /\ str_int z <> "..".
Proof.
  unfold str_int. destruct (z <? 0)%Z.
  - split; [|by repeat split].
    change (no_separator ("-" +:+ str (Z.to_nat (- z))) = true).
    by rewrite no_separator_app, no_separator_str.
  - apply version_file_name_part, version_file_str.
Qed.

Lemma artifact_file_path_int self app_name user_id session_id filename (v : Z) :
  _get_artifact_file_path self app_name user_id session_id filename v
  = _get_artifact_dir self app_name user_id session_id filename ++ [str_int v].
Proof.
  destruct (str_int_part v) as (? & ? & ? & ?). by apply joinpath_single.
Qed.

Lemma metadata_file_path_int self app_name user_id session_id filename (v : Z) :
  _get_metadata_file_path self app_name user_id session_id filename v
  = _get_artifact_dir self app_name user_id session_id filename
    ++ [str_int v +:+ ".metadata.json"].
Proof.
  destruct (str_int_part v) as (Hs & ? & ? & ?). apply joinpath_single.
  - by rewrite no_separator_app, Hs.
  - intros Heq. apply (f_equal String.length) in Heq.
    rewrite append_length in Heq. cbn in Heq. lia.
  - intros Heq. apply (f_equal String.length) in Heq.
    rewrite append_length in Heq. cbn in Heq. lia.
Qed.

Lemma plain_file_path (p : list string) (v : Z) :
  plain (p ++ [str_int v]) = plain p
  /\ plain (p ++ [str_int v +:+ ".metadata.json"]) = plain p.
Proof.
  destruct (str_int_part v) as (Hs & ? & ? & ?). rewrite !plain_app. split.
  - rewrite plain_single by assumption. apply andb_true_r.
  - rewrite plain_single; [apply andb_true_r| |].
    + by rewrite no_separator_app, Hs.
    + intros Heq. apply (f_equal String.length) in Heq.
      rewrite append_length in Heq. cbn in Heq. lia.
Qed.

End artifact_strings.

Section artifact_fs.
Import local_file_artifact_service.
Implicit Types (fs : gmap (list string) Node) (p q : list string).

Lemma strip_prefix_app p q : strip_prefix p (p ++ q) = Some q.
Proof. induction p as [|a p IH]; [reflexivity|]. cbn. by rewrite decide_True. Qed.

Lemma strip_prefix_Some p : forall q r, strip_prefix p q = Some r -> q = p ++ r.
Proof.
  induction p as [|a p IH]; intros q r H; [by injection H as ->|].
  destruct q as [|b q]; [discriminate|]. cbn in H.
  destruct (decide (a = b)) as [->|]; [|discriminate].
  cbn. f_equal. by apply IH.
Qed.

Lemma strip_prefix_None p q : strip_prefix p q = None <-> forall r, q <> p ++ r.
Proof.
  split.
  - intros Hnone r ->. by rewrite strip_prefix_app in Hnone.
  - intros Hne. destruct (strip_prefix p q) as [r|] eqn:H; [|reflexivity].
    apply strip_prefix_Some in H. by apply Hne in H.
Qed.

Lemma child_name_Some p q n : child_name p q = Some n <-> q = p ++ [n].
Proof.
  unfold child_name. split.
  - destruct (strip_prefix p q) as [[|m [|? ?]]|] eqn:H; try discriminate.
    intros [= ->]. by apply strip_prefix_Some.
  - intros ->. by rewrite strip_prefix_app.
Qed.

Lemma strip_prefix_parent p q :
  q <> [] -> strip_prefix p q = None -> strip_prefix p (removelast q) = None.
Proof.
  intros Hq Hnone. destruct (strip_prefix p (removelast q)) as [r|] eqn:H;
    [|reflexivity].
  apply strip_prefix_Some in H.
  destruct (exists_last Hq) as (q' & a & ->).
  rewrite removelast_last in H. subst q'.
  by rewrite <- app_assoc, strip_prefix_app in Hnone.
Qed.

Lemma NoDup_omap_inj {A B} (f : A -> option B) (l : list A) :
  (forall x y z, f x = Some z -> f y = Some z -> x = y) ->
  NoDup l -> NoDup (omap f l).
Proof.
  intros Hinj. induction 1 as [|x l Hx Hl IH]; [constructor|].
  cbn. destruct (f x) as [z|] eqn:Hfx; [|exact IH].
  constructor; [|exact IH].
  intros Hin. apply list_elem_of_omap in Hin as (y & Hy & Hfy).
  by rewrite (Hinj x y z Hfx Hfy) in Hx.
Qed.

Lemma elem_of_keys fs q : q ∈ (map_to_list fs).*1 <-> is_Some (fs !! q).
Proof.
  rewrite list_elem_of_fmap. split.
  - intros ([q' node] & -> & Hin). apply elem_of_map_to_list in Hin. eauto.
  - intros [node Hnode]. exists (q, node). split; [reflexivity|].
    by apply elem_of_map_to_list.
Qed.

Lemma children_spec fs p :
  NoDup (omap (child_name p) (map_to_list fs).*1)
  /\ forall n, n ∈ omap (child_name p) (map_to_list fs).*1
               <-> is_Some (fs !! (p ++ [n])).
Proof.
  split.
  - apply NoDup_omap_inj; [|apply NoDup_fst_map_to_list].
    intros x y z Hx Hy. apply child_name_Some in Hx, Hy. congruence.
  - intros n. rewrite list_elem_of_omap. split.
    + intros (q & Hq & Hchild). apply child_name_Some in Hchild as ->.
      by apply elem_of_keys.
    + intros Hsome. exists (p ++ [n]). split; [by apply elem_of_keys|].
      by apply child_name_Some.
Qed.

Lemma removelast_take {A} (l : list A) k :
  exists k', removelast (take k l) = take k' l.
Proof.
  destruct k as [|k]; [by exists 0|].
  destruct (decide (k < length l)) as [Hlt|Hge].
  - exists k. by apply removelast_firstn.
  - destruct l as [|a l] using rev_ind; [by exists 0|].
    exists (length l). rewrite take_ge by lia.
    rewrite removelast_last. by rewrite take_app_length.
Qed.

(** *** Trees *)

Lemma tree_parent fs p n node :
  tree fs -> fs !! (p ++ [n]) = Some node -> fs !! p = Some Dir.
Proof.
  intros [_ Htree] Hnode. destruct (Htree _ _ Hnode) as [_ Hparent].
  rewrite removelast_last in Hparent. apply Hparent. by destruct p.
Qed.

Lemma tree_prefix fs p : forall q node,
  tree fs -> fs !! (p ++ q) = Some node -> q <> [] -> fs !! p = Some Dir.
Proof.
  intros q. revert p. induction q as [|a q IH] using rev_ind;
    intros p node Htree Hnode Hq; [done|].
  rewrite app_assoc in Hnode. apply tree_parent in Hnode; [|exact Htree].
  destruct q as [|b q]; [by rewrite app_nil_r in Hnode|].
  by apply (IH p Dir Htree Hnode).
Qed.

Lemma tree_take fs p node k :
  tree fs -> fs !! p = Some node -> k < length p -> fs !! take k p = Some Dir.
Proof.
  intros Htree Hnode Hk. rewrite <- (take_drop k p) in Hnode.
  apply (tree_prefix fs _ _ _ Htree Hnode).
  intros Hnil. apply (f_equal length) in Hnil. rewrite length_drop in Hnil.
  cbn in Hnil. lia.
Qed.

Lemma tree_plain fs p node : tree fs -> fs !! p = Some node -> plain p = true.
Proof. intros [_ Htree] Hnode. by destruct (Htree _ _ Hnode). Qed.

(** *** The walk along a plain path *)

Lemma resolve_from_plain fs : forall p current,
  ".." ∉ p ->
  match resolve_from fs current p with
  | inr place =>
      place = current ++ p
      /\ forall k, k < length p -> fs !! (current ++ take k p) = Some Dir
  | inl e =>
      exists k, k < length p
        /\ (forall j, j < k -> fs !! (current ++ take j p) = Some Dir)
        /\ match fs !! (current ++ take k p) with
           | Some Dir => False
           | Some (File _) => e = OSError
           | None => e = FileNotFoundError
           end
  end.
Proof.
  induction p as [|part p IH]; intros current Hplain.
  - cbn. split; [by rewrite app_nil_r|]. intros k Hk. lia.
  - apply not_elem_of_cons in Hplain as [Hpart Hplain].
    cbn [resolve_from].
    destruct (fs !! current) as [[content|]|] eqn:Hcur.
    + exists 0. split; [cbn; lia|]. split; [intros j Hj; lia|].
      cbn. by rewrite app_nil_r, Hcur.
    + rewrite decide_False by congruence.
      specialize (IH (current ++ [part]) Hplain).
      destruct (resolve_from fs (current ++ [part]) p) as [e|place].
      * destruct IH as (k & Hk & Hbefore & Hat). exists (S k).
        split; [cbn; lia|]. split.
        -- intros [|j] Hj; [cbn; by rewrite app_nil_r|].
           cbn. rewrite (cons_middle part), app_assoc. apply Hbefore. lia.
        -- cbn [take]. by rewrite (cons_middle part), app_assoc.
      * destruct IH as [-> Hdirs]. split; [by rewrite <- app_assoc|].
        intros [|k] Hk; [cbn; by rewrite app_nil_r|].
        cbn [take]. rewrite (cons_middle part), app_assoc. apply Hdirs.
        cbn in Hk. lia.
    + exists 0. split; [cbn; lia|]. split; [intros j Hj; lia|].
      cbn. by rewrite app_nil_r, Hcur.
Qed.

Lemma resolve_plain_ok fs p :
  plain p = true ->
  (forall k, k < length p -> fs !! take k p = Some Dir) ->
  resolve fs p = inr p.
Proof.
  intros Hplain Hdirs. unfold resolve. rewrite (plain_no_null p Hplain).
  pose proof (resolve_from_plain fs p [] (plain_no_dotdot p Hplain)) as H.
  destruct (resolve_from fs [] p) as [e|place]; [|by destruct H as [-> _]].
  destruct H as (k & Hk & _ & Hat). cbn in Hat. by rewrite (Hdirs k Hk) in Hat.
Qed.

Lemma resolve_plain_inr fs p place :
  plain p = true -> resolve fs p = inr place ->
  place = p /\ forall k, k < length p -> fs !! take k p = Some Dir.
Proof.
  intros Hplain. unfold resolve. rewrite (plain_no_null p Hplain).
  pose proof (resolve_from_plain fs p [] (plain_no_dotdot p Hplain)) as H.
  intros Hres. rewrite Hres in H. exact H.
Qed.

(** In a tree, a plain path resolves to itself when something is there. *)
Lemma resolve_tree fs p node :
  tree fs -> fs !! p = Some node -> resolve fs p = inr p.
Proof.
  intros Htree Hnode. apply resolve_plain_ok; [by eapply tree_plain|].
  intros k Hk. by eapply tree_take.
Qed.

Lemma stat_plain fs p :
  tree fs -> plain p = true ->
  match stat fs p with
  | inr node => fs !! p = Some node
  | inl _ => fs !! p = None
  end.
Proof.
  intros Htree Hplain. unfold stat.
  destruct (fs !! p) as [node|] eqn:Hnode.
  - by rewrite (resolve_tree fs p node Htree Hnode), Hnode.
  - destruct (resolve fs p) as [e|place] eqn:Hres; [reflexivity|].
    apply resolve_plain_inr in Hres as [-> _]; [|exact Hplain].
    by rewrite Hnode.
Qed.

Lemma exists_plain fs p :
  tree fs -> plain p = true -> exists_ fs p = bool_decide (is_Some (fs !! p)).
Proof.
  intros Htree Hplain. unfold exists_.
  pose proof (stat_plain fs p Htree Hplain) as H.
  destruct (stat fs p) as [e|node]; rewrite H.
  - rewrite bool_decide_eq_false_2; [reflexivity|]. by intros [? ?].
  - by rewrite bool_decide_eq_true_2 by eauto.
Qed.

Lemma is_file_plain fs p :
  tree fs -> plain p = true ->
  is_file fs p = true <-> exists content, fs !! p = Some (File content).
Proof.
  intros Htree Hplain. unfold is_file.
  pose proof (stat_plain fs p Htree Hplain) as H.
  destruct (stat fs p) as [e|[content|]]; rewrite H; split; try done; eauto;
    by intros [? ?].
Qed.

Lemma is_dir_plain fs p :
  tree fs -> plain p = true -> is_dir fs p = true <-> fs !! p = Some Dir.
Proof.
  intros Htree Hplain. unfold is_dir.
  pose proof (stat_plain fs p Htree Hplain) as H.
  destruct (stat fs p) as [e|[content|]]; rewrite H; split; done.
Qed.

Lemma read_bytes_plain fs p :
  tree fs -> plain p = true ->
  match read_bytes fs p with
  | inr content => fs !! p = Some (File content)
  | inl _ => forall content, fs !! p <> Some (File content)
  end.
Proof.
  intros Htree Hplain. unfold read_bytes.
  pose proof (stat_plain fs p Htree Hplain) as H.
  destruct (stat fs p) as [e|[content|]]; [| exact H |]; intros c; by rewrite H.
Qed.

Lemma iterdir_spec fs p :
  tree fs -> fs !! p = Some Dir ->
  exists names,
    iterdir fs p = inr names
    /\ NoDup names
    /\ forall n, n ∈ names <-> is_Some (fs !! (p ++ [n])).
Proof.
  intros Htree Hdir. unfold iterdir.
  rewrite (resolve_tree fs p Dir Htree Hdir), Hdir.
  eexists. split; [reflexivity|]. apply children_spec.
Qed.

Lemma Sorted_le_unique (l1 l2 : list nat) :
  Sorted le l1 -> Sorted le l2 -> NoDup l1 -> NoDup l2 ->
  (forall v, v ∈ l1 <-> v ∈ l2) -> l1 = l2.
Proof.
  intros Hs1 Hs2 Hd1 Hd2 Hmem. apply (Sorted_unique le); try assumption.
  by apply NoDup_Permutation.
Qed.

Lemma max_list_is (l : list nat) v :
  v ∈ l -> (forall x, x ∈ l -> x <= v) -> max_list l = v.
Proof.
  intros Hin Hle. apply Nat.le_antisymm.
  - assert (l <> []) by (intros ->; by apply elem_of_nil in Hin).
    apply Hle. by apply max_list_elem_of.
  - by apply max_list_elem_of_le.
Qed.

Lemma layout_tree fs : layout fs -> tree fs.
Proof. by intros [? _]. Qed.

Lemma layout_file_name fs p n content :
  layout fs -> fs !! (p ++ [n]) = Some (File content) -> version_file_name n.
Proof.
  intros [_ Hfiles] Hnode. destruct (Hfiles _ _ Hnode) as (name & Hlast & Hname).
  rewrite last_snoc in Hlast. by injection Hlast as ->.
Qed.

(** The versions of an artifact are the numbers of its version files,
    unless a file is where its directory should be. *)
Lemma list_versions_spec self fs app_name user_id session_id filename :
  layout fs ->
  let artifact_dir := _get_artifact_dir self app_name user_id session_id filename in
  plain artifact_dir = true ->
  match fs !! artifact_dir with
  | Some (File _) =>
      _list_versions self fs app_name user_id session_id filename = inl OSError
  | _ =>
      exists versions,
        _list_versions self fs app_name user_id session_id filename = inr versions
        /\ Sorted le versions
        /\ NoDup versions
        /\ forall v, v ∈ versions
                     <-> exists content,
                           fs !! (artifact_dir ++ [str v]) = Some (File content)
  end.
Proof.
  intros Hlay. cbn zeta. unfold _list_versions.
  set (artifact_dir := _get_artifact_dir self app_name user_id session_id filename).
  intros Hplain. pose proof (layout_tree fs Hlay) as Htree.
  rewrite (exists_plain fs artifact_dir Htree Hplain).
  destruct (fs !! artifact_dir) as [[content|]|] eqn:Hdir.
  - rewrite bool_decide_eq_true_2 by eauto. cbn [negb]. unfold iterdir.
    by rewrite (resolve_tree fs artifact_dir _ Htree Hdir), Hdir.
  - rewrite bool_decide_eq_true_2 by eauto. cbn [negb].
    destruct (iterdir_spec fs artifact_dir Htree Hdir) as (names & -> & Hdup & Hnames).
    assert (Hentry : forall name (v : nat),
              (if is_file fs (artifact_dir ++ [name]) && isdigit name
               then Some (int name) else None) = Some v ->
              name = str v
              /\ exists content, fs !! (artifact_dir ++ [name]) = Some (File content)).
    { intros name v Hv.
      destruct (is_file fs (artifact_dir ++ [name]) && isdigit name) eqn:Hf;
        [|discriminate].
      apply andb_prop in Hf as [Hf Hd]. injection Hv as <-.
      unfold is_file in Hf.
      destruct (stat fs (artifact_dir ++ [name])) as [e|[content|]] eqn:Hstat;
        try discriminate.
      unfold stat in Hstat.
      destruct (resolve fs (artifact_dir ++ [name])) as [e|place] eqn:Hres;
        [discriminate|].
      destruct (fs !! place) as [node|] eqn:Hplace; [|discriminate].
      injection Hstat as ->.
      assert (place = artifact_dir ++ [name]) as ->.
      { unfold resolve in Hres.
        destruct (has_null (artifact_dir ++ [name])); [discriminate|].
        destruct (decide (name = "..")) as [->|Hne].
        - by rewrite isdigit_metadata in Hd || discriminate Hd.
        - pose proof (resolve_from_plain fs (artifact_dir ++ [name]) []) as H.
          rewrite Hres in H. apply H.
          rewrite not_elem_of_app, list_elem_of_singleton.
          split; [by apply plain_no_dotdot|congruence]. }
      destruct (layout_file_name fs _ _ _ Hlay Hplace) as [v [-> | ->]];
        [|by rewrite isdigit_metadata in Hd].
      rewrite int_str. eauto. }
    eexists. split; [reflexivity|]. unfold sorted_ints.
    split; [apply Sorted_merge_sort; apply _|]. split.
    + rewrite merge_sort_Permutation. apply NoDup_omap_inj; [|exact Hdup].
      intros x y z Hx Hy. apply Hentry in Hx as [-> _], Hy as [-> _]. reflexivity.
    + intros v. rewrite merge_sort_Permutation, list_elem_of_omap. split.
      * intros (name & Hname & Hv). apply Hentry in Hv as [-> Hfile]. exact Hfile.
      * intros [content Hfile]. exists (str v). split; [apply Hnames; eauto|].
        assert (Hf : is_file fs (artifact_dir ++ [str v]) = true).
        { apply is_file_plain; [exact Htree| |eauto].
          by rewrite plain_version_file by apply version_file_str. }
        by rewrite Hf, isdigit_str, int_str.
  - rewrite bool_decide_eq_false_2 by (by intros [? ?]). cbn [negb].
    exists []. split; [reflexivity|]. split; [constructor|]. split; [constructor|].
    intros v. split; [by intros ?%elem_of_nil|]. intros [content Hfile].
    apply tree_parent in Hfile; [congruence|exact Htree].
Qed.

End artifact_fs.

Section artifact_invariant.
Import local_file_artifact_service.
Implicit Types (fs : gmap (list string) Node) (p q : list string).

(** Where a walk ends: one step away from a directory. *)
Lemma resolve_from_place fs : forall path current place,
  path <> [] ->
  resolve_from fs current path = inr place ->
  exists dir part,
    last path = Some part
    /\ fs !! dir = Some Dir
    /\ place = if decide (part = "..") then removelast dir else dir ++ [part].
Proof.
  induction path as [|part path IH]; intros current place Hne Hres; [done|].
  cbn [resolve_from] in Hres.
  destruct (fs !! current) as [[content|]|] eqn:Hcur; try discriminate.
  destruct path as [|part' path].
  - cbn in Hres. injection Hres as <-. exists current, part. by split.
  - apply IH in Hres as (dir & last_part & Hlast & Hdir & ->); [|done].
    exists dir, last_part. by split.
Qed.

Lemma has_null_last path part :
  has_null path = false -> last path = Some part -> has_null [part] = false.
Proof.
  intros Hnull Hlast. destruct path as [|a path] using rev_ind; [discriminate|].
  rewrite last_snoc in Hlast. injection Hlast as ->.
  rewrite has_null_app in Hnull. by apply orb_false_elim in Hnull as [_ ?].
Qed.

Lemma plain_parts part :
  has_null [part] = false -> part <> ".." -> plain [part] = true.
Proof.
  intros Hnull Hne. unfold plain. rewrite Hnull. cbn.
  rewrite andb_true_r. apply negb_true_iff. by apply String.eqb_neq.
Qed.

(** A walk that ends where nothing is ends at a new entry of a
    directory. *)
Lemma resolve_new fs path place :
  tree fs -> resolve fs path = inr place -> fs !! place = None ->
  exists dir part,
    place = dir ++ [part] /\ last path = Some part
    /\ fs !! dir = Some Dir /\ plain [part] = true.
Proof.
  intros Htree Hres Hnone. unfold resolve in Hres.
  destruct (has_null path) eqn:Hnull; [discriminate|].
  assert (path <> []) as Hne.
  { intros ->. injection Hres as <-. destruct Htree as [Hroot _]. congruence. }
  destruct (resolve_from_place fs path [] place Hne Hres)
    as (dir & part & Hlast & Hdir & ->).
  destruct (decide (part = "..")) as [->|Hpart].
  - exfalso. destruct dir as [|a dir] using rev_ind.
    + cbn in Hnone. congruence.
    + rewrite removelast_last in Hnone.
      apply tree_parent in Hdir; [congruence|exact Htree].
  - exists dir, part. repeat split; try assumption.
    apply plain_parts; [by eapply has_null_last|exact Hpart].
Qed.

Lemma resolve_existing fs path place content :
  layout fs -> resolve fs path = inr place -> fs !! place = Some (File content) ->
  forall name, last path = Some name -> name <> ".." ->
  exists dir, place = dir ++ [name] /\ fs !! dir = Some Dir.
Proof.
  intros Hlay Hres Hfile name Hlast Hname. unfold resolve in Hres.
  destruct (has_null path); [discriminate|].
  assert (path <> []) as Hne by (by intros ->).
  destruct (resolve_from_place fs path [] place Hne Hres)
    as (dir & part & Hlast' & Hdir & ->).
  rewrite Hlast in Hlast'. injection Hlast' as <-.
  rewrite decide_False by assumption. eauto.
Qed.

Lemma insert_dir_layout fs dir part :
  layout fs -> fs !! dir = Some Dir -> fs !! (dir ++ [part]) = None ->
  plain [part] = true ->
  layout (<[dir ++ [part] := Dir]> fs).
Proof.
  intros [[Hroot Htree] Hfiles] Hdir Hnone Hpart.
  assert (Hne : dir ++ [part] <> dir).
  { intros H. apply (f_equal length) in H. rewrite length_app in H. cbn in H. lia. }
  split; [split|].
  - rewrite lookup_insert_ne by (by destruct dir). exact Hroot.
  - intros p node Hnode. rewrite lookup_insert in Hnode. case_decide as Heq.
    + subst p. injection Hnode as <-. split.
      * rewrite plain_app, Hpart, andb_true_r. by destruct (Htree _ _ Hdir).
      * intros _. rewrite removelast_last. by rewrite lookup_insert_ne.
    + destruct (Htree _ _ Hnode) as [Hplain Hparent]. split; [exact Hplain|].
      intros Hp. specialize (Hparent Hp). rewrite lookup_insert_ne; [exact Hparent|].
      intros Heq'. congruence.
  - intros p content Hnode. rewrite lookup_insert in Hnode.
    case_decide; [discriminate|]. by eapply Hfiles.
Qed.

Lemma insert_file_layout fs dir name content :
  layout fs -> fs !! dir = Some Dir ->
  fs !! (dir ++ [name]) <> Some Dir ->
  version_file_name name ->
  layout (<[dir ++ [name] := File content]> fs).
Proof.
  intros [[Hroot Htree] Hfiles] Hdir Hnodir Hname.
  assert (Hne : dir ++ [name] <> dir).
  { intros H. apply (f_equal length) in H. rewrite length_app in H. cbn in H. lia. }
  split; [split|].
  - rewrite lookup_insert_ne by (by destruct dir). exact Hroot.
  - intros p node Hnode. rewrite lookup_insert in Hnode. case_decide as Heq.
    + subst p. injection Hnode as <-. split.
      * rewrite plain_version_file by assumption. by destruct (Htree _ _ Hdir).
      * intros _. rewrite removelast_last. by rewrite lookup_insert_ne.
    + destruct (Htree _ _ Hnode) as [Hplain Hparent]. split; [exact Hplain|].
      intros Hp. specialize (Hparent Hp).
      rewrite lookup_insert_ne; [exact Hparent|]. intros Heq'.
      rewrite <- Heq' in Hparent. contradiction.
  - intros p c Hnode. rewrite lookup_insert in Hnode. case_decide as Heq.
    + subst p. exists name. by rewrite last_snoc.
    + by eapply Hfiles.
Qed.

Lemma os_mkdir_layout fs path fs' :
  layout fs -> os_mkdir fs path = inr fs' -> layout fs'.
Proof.
  intros Hlay. unfold os_mkdir.
  destruct (resolve fs path) as [e|place] eqn:Hres; [discriminate|].
  destruct (fs !! place) as [node|] eqn:Hplace; [discriminate|].
  intros [= <-].
  destruct (resolve_new fs path place (layout_tree fs Hlay) Hres Hplace)
    as (dir & part & -> & _ & Hdir & Hpart).
  by apply insert_dir_layout.
Qed.

Lemma mkdir_exist_ok_layout fs path :
  layout fs -> layout (mkdir_exist_ok fs path).2.
Proof.
  intros Hlay. unfold mkdir_exist_ok.
  destruct (os_mkdir fs path) as [[| | | |]|fs'] eqn:Hmk; cbn [snd];
    try exact Hlay.
  - by destruct (is_dir fs path).
  - by eapply os_mkdir_layout.
Qed.

Lemma mkdir_parents_layout reversed : forall fs,
  layout fs -> layout (mkdir_parents fs reversed).2.
Proof.
  induction reversed as [|part parent IH]; intros fs Hlay; cbn [mkdir_parents].
  - destruct (os_mkdir fs (rev [])) as [[| | | |]|fs'] eqn:Hmk; cbn [snd];
      try exact Hlay.
    + by destruct (is_dir fs (rev [])).
    + by eapply os_mkdir_layout.
  - destruct (os_mkdir fs (rev (part :: parent))) as [[| | | |]|fs'] eqn:Hmk;
      cbn [snd]; try exact Hlay.
    + specialize (IH fs Hlay).
      destruct (mkdir_parents fs parent) as [[e|] fs1]; [exact IH|].
      by apply mkdir_exist_ok_layout.
    + by destruct (is_dir fs (rev (part :: parent))).
    + by eapply os_mkdir_layout.
Qed.

Lemma mkdir_layout fs path : layout fs -> layout (mkdir fs path).2.
Proof. apply mkdir_parents_layout. Qed.

Lemma write_bytes_layout fs path content fs' name :
  layout fs -> write_bytes fs path content = inr fs' ->
  last path = Some name -> version_file_name name ->
  layout fs'.
Proof.
  intros Hlay Hwrite Hlast Hname. unfold write_bytes in Hwrite.
  destruct (resolve fs path) as [e|place] eqn:Hres; [discriminate|].
  destruct (version_file_name_part name Hname) as (_ & _ & _ & Hdots).
  destruct (fs !! place) as [[c|]|] eqn:Hplace; try discriminate;
    injection Hwrite as <-.
  - destruct (resolve_existing fs path place c Hlay Hres Hplace name Hlast Hdots)
      as (dir & -> & Hdir).
    apply insert_file_layout; try assumption. congruence.
  - destruct (resolve_new fs path place (layout_tree fs Hlay) Hres Hplace)
      as (dir & part & -> & Hlast' & Hdir & _).
    rewrite Hlast in Hlast'. injection Hlast' as <-.
    apply insert_file_layout; try assumption. congruence.
Qed.

Lemma emptied_lookup fs place p node :
  filter (fun entry : list string * Node =>
            strip_prefix place entry.1 = None \/ entry.1 = place) fs !! p
  = Some node
  <-> fs !! p = Some node /\ (strip_prefix place p = None \/ p = place).
Proof. by rewrite map_lookup_filter_Some. Qed.

Lemma emptied_layout fs place :
  layout fs ->
  layout (filter (fun entry : list string * Node =>
                    strip_prefix place entry.1 = None \/ entry.1 = place) fs).
Proof.
  intros [[Hroot Htree] Hfiles]. split; [split|].
  - apply emptied_lookup. split; [exact Hroot|].
    destruct place; [by right|by left].
  - intros p node Hnode. apply emptied_lookup in Hnode as [Hnode Hkept].
    destruct (Htree _ _ Hnode) as [Hplain Hparent]. split; [exact Hplain|].
    intros Hp. apply emptied_lookup. split; [by apply Hparent|]. left.
    destruct Hkept as [Hkept| ->]; [by apply strip_prefix_parent|].
    apply strip_prefix_None. intros r Heq.
    apply (f_equal length) in Heq. rewrite length_app in Heq.
    destruct (exists_last Hp) as (p' & a & Hp').
    rewrite Hp', removelast_last, length_app in Heq. cbn in Heq. lia.
  - intros p content Hnode. apply emptied_lookup in Hnode as [Hnode _].
    by eapply Hfiles.
Qed.

Lemma os_rmdir_layout fs path fs' :
  layout fs -> os_rmdir fs path = inr fs' -> layout fs'.
Proof.
  intros [[Hroot Htree] Hfiles]. unfold os_rmdir.
  destruct (resolve fs path) as [e|place]; [discriminate|].
  destruct (fs !! place) as [[c|]|] eqn:Hplace; try discriminate.
  case_bool_decide as Hcond; [discriminate|]. intros [= <-].
  assert (Hroot' : place <> []) by tauto.
  assert (Hempty : forall n, fs !! (place ++ [n]) = None).
  { intros n. destruct (fs !! (place ++ [n])) as [node|] eqn:Hn; [|reflexivity].
    exfalso. apply Hcond. right. right.
    assert (Hin : n ∈ omap (child_name place) (map_to_list fs).*1)
      by (apply children_spec; eauto).
    intros Hnil. rewrite Hnil in Hin. by apply elem_of_nil in Hin. }
  split; [split|].
  - by rewrite lookup_delete_ne.
  - intros p node Hnode. rewrite lookup_delete in Hnode.
    case_decide; [discriminate|].
    destruct (Htree _ _ Hnode) as [Hplain Hparent]. split; [exact Hplain|].
    intros Hp. rewrite lookup_delete_ne; [by apply Hparent|].
    intros Heq. destruct (exists_last Hp) as (p' & a & ->).
    rewrite removelast_last in Heq. subst p'. by rewrite Hempty in Hnode.
  - intros p content Hnode. rewrite lookup_delete in Hnode.
    case_decide; [discriminate|]. by eapply Hfiles.
Qed.

Lemma rmtree_layout fs path : layout fs -> layout (rmtree fs path).2.
Proof.
  intros Hlay. unfold rmtree.
  destruct (resolve fs path) as [e|place]; [exact Hlay|].
  destruct (fs !! place) as [[c|]|]; try exact Hlay.
  pose proof (emptied_layout fs place Hlay) as Hemptied. cbn zeta.
  destruct (os_rmdir _ path) as [e|fs'] eqn:Hrm; cbn [snd]; [exact Hemptied|].
  by eapply os_rmdir_layout.
Qed.

Lemma last_artifact_file_path self app_name user_id session_id filename (v : nat) :
  last (_get_artifact_file_path self app_name user_id session_id filename
          (Z.of_nat v)) = Some (str v).
Proof. by rewrite artifact_file_path, last_snoc. Qed.

Lemma last_metadata_file_path self app_name user_id session_id filename (v : nat) :
  last (_get_metadata_file_path self app_name user_id session_id filename
          (Z.of_nat v)) = Some (str v +:+ ".metadata.json").
Proof. by rewrite metadata_file_path, last_snoc. Qed.

Section json.
Variable json_dumps : option string -> list Byte.byte.

Lemma save_layout self fs app_name user_id session_id filename
    (artifact : types.Part) :
  layout fs ->
  layout (_save_artifact json_dumps self fs app_name user_id session_id filename
            artifact).2.
Proof.
  intros Hlay. unfold _save_artifact.
  destruct (_list_versions self fs app_name user_id session_id filename)
    as [e|versions]; [exact Hlay|]. cbn zeta.
  pose proof (mkdir_layout fs
                (_get_artifact_dir self app_name user_id session_id filename) Hlay)
    as Hlay1.
  destruct (mkdir fs _) as [[e|] fs1]; cbn [snd] in Hlay1; [exact Hlay1|].
  destruct (types.inline_data artifact) as [blob|]; [|exact Hlay1].
  destruct (types.data blob) as [data|]; [|exact Hlay1].
  destruct (write_bytes fs1 _ data) as [e|fs2] eqn:Hw1; [exact Hlay1|].
  assert (Hlay2 : layout fs2).
  { eapply write_bytes_layout; [exact Hlay1|exact Hw1| |apply version_file_str].
    apply last_artifact_file_path. }
  destruct (write_bytes fs2 _ _) as [e|fs3] eqn:Hw2; [exact Hlay2|].
  eapply write_bytes_layout; [exact Hlay2|exact Hw2| |apply version_file_metadata].
  apply last_metadata_file_path.
Qed.

End json.

Lemma delete_layout self fs app_name user_id session_id filename :
  layout fs ->
  layout (_delete_artifact self fs app_name user_id session_id filename).2.
Proof.
  intros Hlay. unfold _delete_artifact.
  destruct (exists_ fs _); [by apply rmtree_layout|exact Hlay].
Qed.

Lemma init_layout fs resolved : layout fs -> layout (__init__ fs resolved).2.
Proof. apply mkdir_layout. Qed.

Lemma empty_fs_layout : layout empty_fs.
Proof.
  split; [split|].
  - reflexivity.
  - intros p node Hnode. unfold empty_fs in Hnode.
    apply lookup_singleton_Some in Hnode as [<- <-]. by split.
  - intros p content Hnode. unfold empty_fs in Hnode.
    by apply lookup_singleton_Some in Hnode as [_ ?].
Qed.

End artifact_invariant.

Section artifact_save.
Import local_file_artifact_service.
Implicit Types (fs : gmap (list string) Node) (p q : list string).

Lemma take_snoc_le {A} (l : list A) (a : A) k :
  k <= length l -> take k (l ++ [a]) = take k l.
Proof. intros Hk. by rewrite take_app_le. Qed.

(** [os.mkdir] of a plain path in a tree. *)
Lemma os_mkdir_plain fs p part :
  layout fs -> plain (p ++ [part]) = true ->
  (forall k content, fs !! take k (p ++ [part]) <> Some (File content)) ->
  match fs !! p with
  | Some Dir =>
      match fs !! (p ++ [part]) with
      | Some _ => os_mkdir fs (p ++ [part]) = inl OSError
      | None => os_mkdir fs (p ++ [part]) = inr (<[p ++ [part] := Dir]> fs)
      end
  | _ => os_mkdir fs (p ++ [part]) = inl FileNotFoundError
  end.
Proof.
  intros Hlay Hplain Hfree. pose proof (layout_tree fs Hlay) as Htree.
  unfold os_mkdir.
  destruct (fs !! p) as [[content|]|] eqn:Hp.
  - exfalso. apply (Hfree (length p) content).
    by rewrite take_app_length.
  - rewrite resolve_plain_ok; [|exact Hplain|].
    + by destruct (fs !! (p ++ [part])).
    + intros k Hk. rewrite length_app in Hk. cbn in Hk.
      rewrite take_snoc_le by lia.
      destruct (decide (k = length p)) as [->|Hne].
      * by rewrite firstn_all.
      * eapply tree_take; [exact Htree|exact Hp|lia].
  - unfold resolve. rewrite (plain_no_null _ Hplain).
    pose proof (resolve_from_plain fs (p ++ [part]) []
                  (plain_no_dotdot _ Hplain)) as H.
    destruct (resolve_from fs [] (p ++ [part])) as [e|place].
    + destruct H as (k & Hk & _ & Hat). cbn in Hat.
      destruct (fs !! take k (p ++ [part])) as [[content|]|] eqn:Hk';
        [|done|by subst].
      exfalso. by apply (Hfree k content).
    + destruct H as [_ Hdirs]. specialize (Hdirs (length p)).
      rewrite length_app in Hdirs. cbn in Hdirs.
      rewrite take_app_length in Hdirs. rewrite Hdirs in Hp by lia. discriminate.
Qed.

Lemma is_dir_lookup fs p :
  tree fs -> fs !! p = Some Dir -> is_dir fs p = true.
Proof.
  intros Htree Hdir. apply is_dir_plain; [exact Htree| |exact Hdir].
  by eapply tree_plain.
Qed.

(** [mkdir(parents=True, exist_ok=True)] of a plain path with no file on
    it: the directories of the path that are missing are made. *)
Lemma mkdir_parents_spec reversed : forall fs,
  layout fs -> plain (rev reversed) = true ->
  (forall k content, fs !! take k (rev reversed) <> Some (File content)) ->
  exists fs1,
    mkdir_parents fs reversed = (None, fs1)
    /\ layout fs1
    /\ fs1 !! rev reversed = Some Dir
    /\ (forall q node, fs !! q = Some node -> fs1 !! q = Some node)
    /\ (forall q node, fs1 !! q = Some node ->
          fs !! q = Some node
          \/ (node = Dir /\ fs !! q = None /\ exists k, q = take k (rev reversed))).
Proof.
  induction reversed as [|part parent IH]; intros fs Hlay Hplain Hfree.
  - cbn [mkdir_parents rev]. pose proof (layout_tree fs Hlay) as Htree.
    destruct Htree as [Hroot Htree].
    assert (Hmk : os_mkdir fs [] = inl OSError).
    { unfold os_mkdir, resolve. cbn. by rewrite Hroot. }
    rewrite Hmk. rewrite (is_dir_lookup fs [] (layout_tree fs Hlay) Hroot).
    exists fs. split; [reflexivity|]. split; [exact Hlay|].
    split; [exact Hroot|]. split; [auto|]. intros; by left.
  - cbn [rev] in *. set (p := rev parent) in *.
    pose proof (layout_tree fs Hlay) as Htree.
    pose proof (os_mkdir_plain fs p part Hlay Hplain Hfree) as Hmk.
    cbn [mkdir_parents rev]. fold p.
    assert (Hplain_p : plain p = true).
    { rewrite plain_app in Hplain. by apply andb_prop in Hplain as [? _]. }
    assert (Hfree_p : forall k content, fs !! take k p <> Some (File content)).
    { intros k content. destruct (decide (k <= length p)) as [Hle|Hgt].
      - rewrite <- (take_snoc_le p part k Hle). apply Hfree.
      - rewrite take_ge by lia. rewrite <- (take_app_length p [part]).
        apply Hfree. }
    destruct (fs !! p) as [[content|]|] eqn:Hp.
    + exfalso. apply (Hfree_p (length p) content). by rewrite firstn_all.
    + destruct (fs !! (p ++ [part])) as [node|] eqn:Hnode; rewrite Hmk.
      * assert (node = Dir) as ->.
        { destruct node as [content|]; [|reflexivity]. exfalso.
          apply (Hfree (length (p ++ [part])) content). by rewrite firstn_all. }
        rewrite (is_dir_lookup fs _ Htree Hnode).
        exists fs. split; [reflexivity|]. split; [exact Hlay|].
        split; [exact Hnode|]. split; [auto|]. intros; by left.
      * assert (Hpart : plain [part] = true).
        { rewrite plain_app in Hplain. by apply andb_prop in Hplain as [_ ?]. }
        exists (<[p ++ [part] := Dir]> fs). split; [reflexivity|].
        split; [by apply insert_dir_layout|].
        split; [apply lookup_insert_eq|]. split.
        -- intros q node Hq. rewrite lookup_insert_ne; [exact Hq|].
           intros <-. congruence.
        -- intros q node Hq. rewrite lookup_insert in Hq.
           case_decide as Heq; [|by left]. subst q. injection Hq as <-.
           right. split; [reflexivity|]. split; [exact Hnode|].
           exists (length (p ++ [part])). by rewrite firstn_all.
    + rewrite Hmk.
      destruct (IH fs Hlay Hplain_p Hfree_p)
        as (fs1 & -> & Hlay1 & Hdir1 & Hkeep1 & Hnew1).
      pose proof (layout_tree fs1 Hlay1) as Htree1.
      assert (Hfree1 : forall k content,
                fs1 !! take k (p ++ [part]) <> Some (File content)).
      { intros k content Hfile. destruct (Hnew1 _ _ Hfile) as [Hold|[? _]];
          [by apply (Hfree k content)|discriminate]. }
      pose proof (os_mkdir_plain fs1 p part Hlay1 Hplain Hfree1) as Hmk1.
      fold p in Hdir1. rewrite Hdir1 in Hmk1.
      assert (Hnone : fs1 !! (p ++ [part]) = None).
      { destruct (fs1 !! (p ++ [part])) as [node|] eqn:Hnode; [|reflexivity].
        exfalso. destruct (Hnew1 _ _ Hnode) as [Hold|(_ & _ & k & Hk)].
        - apply tree_parent in Hold; [congruence|exact Htree].
        - apply (f_equal length) in Hk. rewrite length_app, length_take in Hk.
          cbn in Hk. fold p in Hk. lia. }
      rewrite Hnone in Hmk1. unfold mkdir_exist_ok. rewrite Hmk1.
      assert (Hpart : plain [part] = true).
      { rewrite plain_app in Hplain. by apply andb_prop in Hplain as [_ ?]. }
      exists (<[p ++ [part] := Dir]> fs1). split; [reflexivity|].
      split; [by apply insert_dir_layout|].
      split; [apply lookup_insert_eq|]. split.
      * intros q node Hq. rewrite lookup_insert_ne; [by apply Hkeep1|].
        intros <-. apply Hkeep1 in Hq. congruence.
      * intros q node Hq. rewrite lookup_insert in Hq. case_decide as Heq.
        -- subst q. injection Hq as <-. right. split; [reflexivity|]. split.
           ++ destruct (fs !! (p ++ [part])) as [node|] eqn:Hold; [|reflexivity].
              apply Hkeep1 in Hold. congruence.
           ++ exists (length (p ++ [part])). by rewrite firstn_all.
        -- destruct (Hnew1 _ _ Hq) as [Hold|(-> & Hold & k & ->)]; [by left|].
           right. split; [reflexivity|]. split; [exact Hold|].
           fold p. exists (Nat.min k (length p)).
           rewrite take_snoc_le by lia.
           destruct (decide (k <= length p)); [by rewrite Nat.min_l by lia|].
           rewrite Nat.min_r by lia. by rewrite firstn_all, take_ge by lia.
Qed.

Lemma mkdir_spec fs p :
  layout fs -> plain p = true ->
  (forall k content, fs !! take k p <> Some (File content)) ->
  exists fs1,
    mkdir fs p = (None, fs1)
    /\ layout fs1
    /\ fs1 !! p = Some Dir
    /\ (forall q node, fs !! q = Some node -> fs1 !! q = Some node)
    /\ (forall q node, fs1 !! q = Some node ->
          fs !! q = Some node
          \/ (node = Dir /\ fs !! q = None /\ exists k, q = take k p)).
Proof.
  intros Hlay Hplain Hfree. unfold mkdir.
  pose proof (mkdir_parents_spec (rev p) fs Hlay) as H.
  rewrite rev_involutive in H. by apply H.
Qed.

(** Writing a file in a directory of a tree. *)
Lemma write_bytes_plain fs dir name content :
  layout fs -> plain dir = true -> fs !! dir = Some Dir ->
  version_file_name name ->
  fs !! (dir ++ [name]) <> Some Dir ->
  write_bytes fs (dir ++ [name]) content
  = inr (<[dir ++ [name] := File content]> fs).
Proof.
  intros Hlay Hplain Hdir Hname Hnodir. unfold write_bytes.
  rewrite resolve_plain_ok.
  - by destruct (fs !! (dir ++ [name])) as [[c|]|].
  - by rewrite plain_version_file.
  - intros k Hk. rewrite length_app in Hk. cbn in Hk.
    rewrite take_snoc_le by lia.
    destruct (decide (k = length dir)) as [->|Hne]; [by rewrite firstn_all|].
    eapply tree_take; [by apply layout_tree|exact Hdir|lia].
Qed.

Section json.
Variable json_dumps : option string -> list Byte.byte.

(** What a save does when nothing is in its way. *)
Lemma save_spec self fs app_name user_id session_id filename
    (artifact : types.Part) (blob : types.Blob) (data : list Byte.byte) :
  let dir := _get_artifact_dir self app_name user_id session_id filename in
  layout fs -> plain dir = true -> unobstructed fs dir ->
  types.inline_data artifact = Some blob ->
  types.data blob = Some data ->
  exists versions version fs',
    _list_versions self fs app_name user_id session_id filename = inr versions
    /\ Sorted le versions /\ NoDup versions
    /\ (forall v, v ∈ versions
                  <-> exists content, fs !! (dir ++ [str v]) = Some (File content))
    /\ version = match versions with [] => 0 | _ :: _ => max_list versions + 1 end
    /\ _save_artifact json_dumps self fs app_name user_id session_id filename
         artifact
       = (inr version, fs')
    /\ layout fs'
    /\ fs' !! dir = Some Dir
    /\ fs' !! (dir ++ [str version]) = Some (File data)
    /\ fs' !! (dir ++ [str version +:+ ".metadata.json"])
       = Some (File (json_dumps (types.mime_type blob)))
    /\ (forall q,
          q <> dir ++ [str version] ->
          q <> dir ++ [str version +:+ ".metadata.json"] ->
          fs' !! q = fs !! q
          \/ (fs !! q = None /\ fs' !! q = Some Dir /\ exists k, q = take k dir)).
Proof.
  cbn zeta. set (dir := _get_artifact_dir self app_name user_id session_id filename).
  intros Hlay Hplain [Hfree Hnodirs] Hblob Hdata.
  pose proof (list_versions_spec self fs app_name user_id session_id filename Hlay
                Hplain) as Hversions.
  fold dir in Hversions.
  destruct (fs !! dir) as [[content|]|] eqn:Hdir.
  { exfalso. apply (Hfree (length dir) content). by rewrite firstn_all. }
  all: destruct Hversions as (versions & Hversions & Hsorted & Hdup & Hmem).
  all: destruct (mkdir_spec fs dir Hlay Hplain Hfree)
         as (fs1 & Hmkdir & Hlay1 & Hdir1 & Hkeep1 & Hnew1).
  all: set (version := match versions with
                       | [] => 0 | _ :: _ => max_list versions + 1 end).
  all: set (file := dir ++ [str version]).
  all: set (meta := dir ++ [str version +:+ ".metadata.json"]).
  all: assert (Hne : file <> meta)
         by (unfold file, meta; intros H; apply app_inj_tail in H as [_ H];
             by apply str_not_metadata in H).
  all: assert (Hlonger : forall n k, dir ++ [n] <> take k dir)
         by (intros n k H; apply (f_equal length) in H;
             rewrite length_app, length_take in H; cbn in H; lia).
  all: assert (Hfile1 : fs1 !! file <> Some Dir)
         by (intros Hd; destruct (Hnew1 _ _ Hd) as [Hold|(_ & _ & k & Hk)];
             [by apply (Hnodirs (str version) (version_file_str version))
             |by apply Hlonger in Hk]).
  all: pose proof (write_bytes_plain fs1 dir (str version) data Hlay1 Hplain Hdir1
                     (version_file_str version) Hfile1) as Hw1.
  all: fold file in Hw1.
  all: assert (Hlay2 : layout (<[file := File data]> fs1))
         by (apply insert_file_layout; auto using version_file_str).
  all: assert (Hdir2 : <[file := File data]> fs1 !! dir = Some Dir)
         by (rewrite lookup_insert_ne; [exact Hdir1|]; intros H;
             apply (f_equal length) in H; unfold file in H;
             rewrite length_app in H; cbn in H; lia).
  all: assert (Hmeta2 : <[file := File data]> fs1 !! meta <> Some Dir)
         by (rewrite lookup_insert_ne by (intros H; by apply Hne);
             intros Hd; destruct (Hnew1 _ _ Hd) as [Hold|(_ & _ & k & Hk)];
             [by apply (Hnodirs _ (version_file_metadata version))
             |by apply Hlonger in Hk]).
  all: pose proof (write_bytes_plain _ dir (str version +:+ ".metadata.json")
                     (json_dumps (types.mime_type blob)) Hlay2 Hplain Hdir2
                     (version_file_metadata version) Hmeta2) as Hw2.
  all: fold meta in Hw2.
  all: exists versions, version,
         (<[meta := File (json_dumps (types.mime_type blob))]>
            (<[file := File data]> fs1)).
  all: split; [exact Hversions|]; split; [exact Hsorted|]; split; [exact Hdup|].
  all: split; [exact Hmem|]; split; [reflexivity|].
  all: split;
         [unfold _save_artifact; rewrite Hversions; fold dir; rewrite Hmkdir;
          rewrite Hblob, Hdata, artifact_file_path, metadata_file_path;
          fold dir version file meta; by rewrite Hw1, Hw2|].
  all: split;
         [apply insert_file_layout; auto using version_file_metadata|].
  all: split;
         [rewrite lookup_insert_ne;
          [exact Hdir2|intros H; apply (f_equal length) in H; unfold meta in H;
                       rewrite length_app in H; cbn in H; lia]|].
  all: split;
         [rewrite lookup_insert_ne by (intros H; by apply Hne);
          apply lookup_insert_eq|].
  all: split; [apply lookup_insert_eq|].
  all: intros q Hqf Hqm;
         rewrite lookup_insert_ne by (intros H; by apply Hqm);
         rewrite lookup_insert_ne by (intros H; by apply Hqf);
         destruct (fs1 !! q) as [node|] eqn:Hq;
         [destruct (Hnew1 _ _ Hq) as [Hold|(-> & Hold & k & ->)];
          [left; by rewrite Hold|right; eauto]
         |left; destruct (fs !! q) as [node|] eqn:Hold;
          [apply Hkeep1 in Hold; congruence|reflexivity]].
Qed.

End json.

End artifact_save.

Section artifact_service.
Import local_file_artifact_service.
Variable json_dumps : option string -> list Byte.byte.
Variable json_loads_mime : list Byte.byte -> Decoded.
Implicit Types (self : LocalFileArtifactService).
Implicit Types (fs : gmap (list string) Node) (p q : list string).
Implicit Types (app_name user_id session_id filename : string).

Lemma file_content_Some fs p content :
  file_content fs p = Some content <-> fs !! p = Some (File content).
Proof.
  unfold file_content. destruct (fs !! p) as [[c|]|]; split; congruence.
Qed.

Lemma file_content_ext fs1 fs2 p :
  file_content fs1 p = file_content fs2 p ->
  forall content, fs1 !! p = Some (File content) <-> fs2 !! p = Some (File content).
Proof. intros H content. rewrite <- !file_content_Some. by rewrite H. Qed.

(** Loading a given version reads the version file and its metadata
    file. *)
Lemma load_version_spec self fs app_name user_id session_id filename (v : Z) :
  let dir := _get_artifact_dir self app_name user_id session_id filename in
  tree fs -> plain dir = true ->
  _load_artifact json_loads_mime self fs app_name user_id session_id filename
    (Some v)
  = match file_content fs (dir ++ [str_int v]),
          file_content fs (dir ++ [str_int v +:+ ".metadata.json"]) with
    | Some data, Some text =>
        match json_loads_mime text with
        | Mime mime_type => inr (Some (from_bytes data mime_type))
        | Caught => inr None
        | Uncaught => inl TypeError
        end
    | _, _ => inr None
    end.
Proof.
  cbn zeta. intros Htree Hplain. unfold _load_artifact.
  rewrite artifact_file_path_int, metadata_file_path_int.
  set (dir := _get_artifact_dir self app_name user_id session_id filename) in *.
  set (p1 := dir ++ [str_int v]). set (p2 := dir ++ [str_int v +:+ ".metadata.json"]).
  destruct (plain_file_path dir v) as [Hp1 Hp2]. fold p1 p2 in Hp1, Hp2.
  rewrite Hplain in Hp1, Hp2.
  rewrite !exists_plain by done.
  pose proof (read_bytes_plain fs p1 Htree Hp1) as Hr1.
  pose proof (read_bytes_plain fs p2 Htree Hp2) as Hr2.
  unfold file_content.
  destruct (fs !! p1) as [[d|]|] eqn:H1; destruct (fs !! p2) as [[t|]|] eqn:H2;
    rewrite ?bool_decide_eq_true_2 by eauto;
    rewrite ?(bool_decide_eq_false_2 (is_Some None)) by (by intros [? ?]);
    cbn [negb orb]; try reflexivity;
    destruct (read_bytes fs p1) as [e1|d1]; try reflexivity;
    destruct (read_bytes fs p2) as [e2|t2]; try reflexivity;
    try (exfalso; by eapply Hr1); try (exfalso; by eapply Hr2);
    try congruence.
  injection Hr1 as ->. by injection Hr2 as ->.
Qed.

(** The versions listed and what is loaded depend on the regular files
    in the artifact directory only. *)
Lemma list_versions_ext self fs1 fs2 app_name user_id session_id filename :
  let dir := _get_artifact_dir self app_name user_id session_id filename in
  layout fs1 -> layout fs2 -> plain dir = true ->
  file_content fs1 dir = file_content fs2 dir ->
  (forall n, file_content fs1 (dir ++ [n]) = file_content fs2 (dir ++ [n])) ->
  _list_versions self fs1 app_name user_id session_id filename
  = _list_versions self fs2 app_name user_id session_id filename.
Proof.
  cbn zeta. intros Hlay1 Hlay2 Hplain Hdir Hagree.
  pose proof (list_versions_spec self fs1 app_name user_id session_id filename
                Hlay1 Hplain) as H1.
  pose proof (list_versions_spec self fs2 app_name user_id session_id filename
                Hlay2 Hplain) as H2.
  unfold file_content in Hdir.
  destruct (fs1 !! _) as [[c1|]|] eqn:Hc1 in H1, Hdir;
    destruct (fs2 !! _) as [[c2|]|] eqn:Hc2 in H2, Hdir; try discriminate;
    try (by rewrite H1, H2);
    destruct H1 as (l1 & -> & Hs1 & Hd1 & Hm1);
    destruct H2 as (l2 & -> & Hs2 & Hd2 & Hm2);
    f_equal; apply Sorted_le_unique; try assumption;
    intros v; rewrite Hm1, Hm2; split; intros [content H]; exists content;
    by apply (file_content_ext _ _ _ (Hagree (str v))).
Qed.

Lemma load_artifact_ext self fs1 fs2 app_name user_id session_id filename version :
  let dir := _get_artifact_dir self app_name user_id session_id filename in
  layout fs1 -> layout fs2 -> plain dir = true ->
  file_content fs1 dir = file_content fs2 dir ->
  (forall n, file_content fs1 (dir ++ [n]) = file_content fs2 (dir ++ [n])) ->
  _load_artifact json_loads_mime self fs1 app_name user_id session_id filename
    version
  = _load_artifact json_loads_mime self fs2 app_name user_id session_id filename
      version.
Proof.
  cbn zeta. intros Hlay1 Hlay2 Hplain Hdir Hagree.
  assert (Hsome : forall v,
            _load_artifact json_loads_mime self fs1 app_name user_id session_id
              filename (Some v)
            = _load_artifact json_loads_mime self fs2 app_name user_id session_id
                filename (Some v)).
  { intros v. rewrite !load_version_spec by auto using layout_tree.
    by rewrite !Hagree. }
  destruct version as [v|]; [apply Hsome|].
  pose proof (list_versions_ext self fs1 fs2 app_name user_id session_id filename
                Hlay1 Hlay2 Hplain Hdir Hagree) as Hlist.
  specialize (Hsome (Z.of_nat
    (max_list (match _list_versions self fs2 app_name user_id session_id filename
               with inr l => l | inl _ => [] end)))).
  unfold _load_artifact in *. rewrite Hlist in *.
  destruct (_list_versions self fs2 app_name user_id session_id filename)
    as [e|[|v versions]]; try reflexivity. exact Hsome.
Qed.

(** An artifact directory that is not there has no versions and nothing
    to load. *)
Lemma missing_artifact self fs app_name user_id session_id filename version :
  let dir := _get_artifact_dir self app_name user_id session_id filename in
  layout fs -> plain dir = true -> fs !! dir = None ->
  _list_versions self fs app_name user_id session_id filename = inr []
  /\ _load_artifact json_loads_mime self fs app_name user_id session_id filename
       version
     = inr None.
Proof.
  cbn zeta. intros Hlay Hplain Hdir. pose proof (layout_tree fs Hlay) as Htree.
  assert (Hlist : _list_versions self fs app_name user_id session_id filename
                  = inr []).
  { unfold _list_versions. rewrite exists_plain by done. rewrite Hdir.
    by rewrite bool_decide_eq_false_2 by (by intros [? ?]). }
  split; [exact Hlist|].
  destruct version as [v|]; [|unfold _load_artifact; by rewrite Hlist].
  rewrite load_version_spec by done. unfold file_content.
  destruct (fs !! (_ ++ [str_int v])) as [node|] eqn:Hnode; [|reflexivity].
  apply tree_parent in Hnode; [congruence|exact Htree].
Qed.

Lemma Sorted_le_snoc (l : list nat) x :
  Sorted le l -> (forall v, v ∈ l -> v <= x) -> Sorted le (l ++ [x]).
Proof.
  induction l as [|a l IH]; intros Hs Hle; cbn.
  - repeat constructor.
  - apply Sorted_inv in Hs as [Hs Hhd]. constructor.
    + apply IH; [exact Hs|]. intros v Hv. apply Hle. by right.
    + destruct l as [|b l]; cbn; constructor.
      * apply Hle. by left.
      * by apply HdRel_inv in Hhd.
Qed.

(** What a save leaves of the files: the two it writes, and every other
    regular file as it was. *)
Lemma save_files self fs app_name user_id session_id filename
    (artifact : types.Part) (blob : types.Blob) (data : list Byte.byte) :
  let dir := _get_artifact_dir self app_name user_id session_id filename in
  layout fs -> plain dir = true -> unobstructed fs dir ->
  types.inline_data artifact = Some blob ->
  types.data blob = Some data ->
  exists versions version fs',
    _list_versions self fs app_name user_id session_id filename = inr versions
    /\ (forall v, v ∈ versions -> v < version)
    /\ version = match versions with [] => 0 | _ :: _ => max_list versions + 1 end
    /\ _save_artifact json_dumps self fs app_name user_id session_id filename
         artifact
       = (inr version, fs')
    /\ layout fs'
    /\ fs' !! dir = Some Dir
    /\ file_content fs' (dir ++ [str version]) = Some data
    /\ file_content fs' (dir ++ [str version +:+ ".metadata.json"])
       = Some (json_dumps (types.mime_type blob))
    /\ (forall q,
          q <> dir ++ [str version] ->
          q <> dir ++ [str version +:+ ".metadata.json"] ->
          file_content fs' q = file_content fs q)
    /\ (forall q,
          fs' !! q = Some Dir <->
          fs !! q = Some Dir \/ (fs !! q = None /\ exists k, q = take k dir))
    /\ _list_versions self fs' app_name user_id session_id filename
       = inr (versions ++ [version]).
Proof.
  cbn zeta. intros Hlay Hplain Hfree Hblob Hdata.
  destruct (save_spec json_dumps self fs app_name user_id session_id filename
              artifact blob data Hlay Hplain Hfree Hblob Hdata)
    as (versions & version & fs' & Hversions & Hsorted & Hdup & Hmem & Hversion
        & Hsave & Hlay' & Hdir & Hfile & Hmeta & Hframe).
  set (dir := _get_artifact_dir self app_name user_id session_id filename) in *.
  assert (Hlt : forall v, v ∈ versions -> v < version).
  { intros v Hv. rewrite Hversion. destruct versions as [|w versions];
      [by apply elem_of_nil in Hv|].
    pose proof (max_list_elem_of_le v (w :: versions) Hv). lia. }
  assert (Hfiles : forall q,
            q <> dir ++ [str version] ->
            q <> dir ++ [str version +:+ ".metadata.json"] ->
            file_content fs' q = file_content fs q).
  { intros q Hq1 Hq2. unfold file_content.
    destruct (Hframe q Hq1 Hq2) as [->|(-> & -> & _)]; reflexivity. }
  assert (Hlonger : forall n k, dir ++ [n] <> take k dir).
  { intros n k H. apply (f_equal length) in H.
    rewrite length_app, length_take in H. cbn in H. lia. }
  exists versions, version, fs'.
  split; [exact Hversions|]. split; [exact Hlt|]. split; [exact Hversion|].
  split; [exact Hsave|]. split; [exact Hlay'|]. split; [exact Hdir|].
  split; [by apply file_content_Some|]. split; [by apply file_content_Some|].
  split; [exact Hfiles|]. split.
  - intros q. destruct (decide (q = dir ++ [str version])) as [->|Hq1].
    { rewrite Hfile. split; [discriminate|]. intros [H|(_ & k & H)].
      - exfalso. destruct Hfree as [_ Hnodir].
        by apply (Hnodir (str version) (version_file_str version)).
      - by apply Hlonger in H. }
    destruct (decide (q = dir ++ [str version +:+ ".metadata.json"])) as [->|Hq2].
    { rewrite Hmeta. split; [discriminate|]. intros [H|(_ & k & H)].
      - exfalso. destruct Hfree as [_ Hnodir].
        by apply (Hnodir _ (version_file_metadata version)).
      - by apply Hlonger in H. }
    destruct (Hframe q Hq1 Hq2) as [Heq|(Hnone & Hnew & Hk)].
    + split; [rewrite Heq; by left|]. intros [H|(_ & k & ->)]; [congruence|].
      destruct (decide (k < length dir)) as [Hlt'|Hge].
      * eapply tree_take; [by apply layout_tree|exact Hdir|exact Hlt'].
      * by rewrite take_ge by lia.
    + split; [by right|]. by intros _.
  - pose proof (list_versions_spec self fs' app_name user_id session_id filename
                  Hlay' Hplain) as Hspec.
    fold dir in Hspec. rewrite Hdir in Hspec.
    destruct Hspec as (l' & -> & Hs' & Hd' & Hm').
    f_equal. apply Sorted_le_unique; try assumption.
    + apply Sorted_le_snoc; [exact Hsorted|].
      intros v Hv. specialize (Hlt v Hv). lia.
    + apply NoDup_app. split; [exact Hdup|]. split; [|apply NoDup_singleton].
      intros v Hv Hv'. apply list_elem_of_singleton in Hv' as ->.
      specialize (Hlt _ Hv). lia.
    + intros v. rewrite Hm', elem_of_app, list_elem_of_singleton, Hmem.
      destruct (decide (v = version)) as [->|Hne].
      * split; [by right|]. intros _. eauto.
      * assert (Hsame : file_content fs' (dir ++ [str v])
                        = file_content fs (dir ++ [str v])).
        { apply Hfiles.
          - intros H. apply app_inj_tail in H as [_ H]. by apply str_inj in H.
          - intros H. apply app_inj_tail in H as [_ H].
            by apply str_not_metadata in H. }
        split.
        -- intros [content H]. left. exists content.
           by apply (file_content_ext _ _ _ Hsame).
        -- intros [[content H]|?]; [|done]. exists content.
           by apply (file_content_ext _ _ _ Hsame).
Qed.

(** After a save the directory is free for the next one. *)
Lemma save_unobstructed self fs app_name user_id session_id filename
    (artifact : types.Part) (blob : types.Blob) (data : list Byte.byte) :
  let dir := _get_artifact_dir self app_name user_id session_id filename in
  layout fs -> plain dir = true -> unobstructed fs dir ->
  types.inline_data artifact = Some blob ->
  types.data blob = Some data ->
  unobstructed
    (_save_artifact json_dumps self fs app_name user_id session_id filename
       artifact).2 dir.
Proof.
  cbn zeta. intros Hlay Hplain Hfree Hblob Hdata.
  destruct (save_files self fs app_name user_id session_id filename artifact blob
              data Hlay Hplain Hfree Hblob Hdata)
    as (versions & version & fs' & _ & _ & _ & -> & _ & _ & _ & _ & Hfiles & Hdirs
        & _).
  cbn [snd]. destruct Hfree as [Hfree Hnodir].
  set (dir := _get_artifact_dir self app_name user_id session_id filename) in *.
  assert (Hlonger : forall n k, dir ++ [n] <> take k dir).
  { intros n k H. apply (f_equal length) in H.
    rewrite length_app, length_take in H. cbn in H. lia. }
  split.
  - intros k content H. apply file_content_Some in H.
    rewrite Hfiles in H by (intros H'; symmetry in H'; by apply Hlonger in H').
    apply file_content_Some in H. by apply (Hfree k content).
  - intros name Hname H. apply Hdirs in H as [H|(_ & k & H)].
    + by apply (Hnodir name).
    + by apply Hlonger in H.
Qed.

(** A directory that is not there is free when no file is on the way to
    it. *)
Lemma unobstructed_absent fs dir :
  tree fs -> fs !! dir = None ->
  forallb (fun k => bool_decide (file_content fs (take k dir) = None))
          (seq 0 (length dir)) = true ->
  unobstructed fs dir.
Proof.
  intros Htree Hdir Hcheck. rewrite forallb_forall in Hcheck. split.
  - intros k content H. destruct (decide (k < length dir)) as [Hlt|Hge].
    + specialize (Hcheck k). rewrite <- list_elem_of_In, elem_of_seq in Hcheck.
      apply bool_decide_eq_true in Hcheck; [|lia].
      apply file_content_Some in H. congruence.
    + rewrite take_ge in H by lia. congruence.
  - intros name _ H. apply tree_parent in H; [congruence|exact Htree].
Qed.

Lemma directory_names_spec fs p :
  layout fs -> plain p = true ->
  (forall content, fs !! p <> Some (File content)) ->
  exists names,
    directory_names fs p = inr names
    /\ NoDup names
    /\ forall n, n ∈ names <-> fs !! (p ++ [n]) = Some Dir.
Proof.
  intros Hlay Hplain Hnofile. pose proof (layout_tree fs Hlay) as Htree.
  unfold directory_names. rewrite exists_plain by done.
  destruct (fs !! p) as [[content|]|] eqn:Hp.
  - by destruct (Hnofile content).
  - rewrite bool_decide_eq_true_2 by eauto. cbn [negb].
    destruct (iterdir_spec fs p Htree Hp) as (names & -> & Hdup & Hnames).
    eexists. split; [reflexivity|]. split; [by apply NoDup_filter|].
    intros n. rewrite list_elem_of_filter, Hnames. split.
    + intros [Hdir [node Hnode]].
      apply is_dir_plain in Hdir; [exact Hdir|exact Htree|].
      by eapply tree_plain.
    + intros Hdir. split; [by apply is_dir_lookup|eauto].
  - rewrite bool_decide_eq_false_2 by (by intros [? ?]). cbn [negb].
    exists []. split; [reflexivity|]. split; [constructor|].
    intros n. split; [by intros ?%elem_of_nil|].
    intros Hnode. apply tree_parent in Hnode; [congruence|exact Htree].
Qed.

Lemma str_le_total : Total str_le.
Proof. intros a b. apply String.leb_total. Qed.

Lemma list_artifact_keys_mem self fs app_name user_id session_id :
  layout fs ->
  plain (session_dir self app_name user_id session_id) = true ->
  plain (user_namespace_dir self app_name user_id) = true ->
  (forall content,
     fs !! session_dir self app_name user_id session_id <> Some (File content)) ->
  (forall content,
     fs !! user_namespace_dir self app_name user_id <> Some (File content)) ->
  exists keys,
    _list_artifact_keys self fs app_name user_id session_id = inr keys
    /\ Sorted str_le keys
    /\ NoDup keys
    /\ (forall key,
          key ∈ keys
          <-> fs !! (session_dir self app_name user_id session_id ++ [key])
              = Some Dir
              \/ fs !! (user_namespace_dir self app_name user_id ++ [key])
                 = Some Dir).
Proof.
  intros Hlay Hps Hpu Hfs Hfu. unfold _list_artifact_keys.
  destruct (directory_names_spec fs _ Hlay Hps Hfs)
    as (session_names & -> & _ & Hsession).
  destruct (directory_names_spec fs _ Hlay Hpu Hfu)
    as (user_names & -> & _ & Huser).
  eexists. split; [reflexivity|]. unfold sorted_strs.
  pose proof str_le_total as Htotal.
  split; [apply Sorted_merge_sort; apply _|]. split.
  - rewrite merge_sort_Permutation. apply NoDup_remove_dups.
  - intros key. rewrite merge_sort_Permutation, elem_of_remove_dups, elem_of_app.
    by rewrite Hsession, Huser.
Qed.

Lemma toy_round_trip m : toy_loads (toy_dumps m) = Mime m.
Proof.
  destruct m as [m|]; [|reflexivity]. cbn.
  by rewrite String.string_of_list_byte_of_string.
Qed.

End artifact_service.

Section artifact_names.
Import local_file_artifact_service.

Lemma split_piece_length (s : string) : forall piece,
  piece ∈ split s -> String.length piece <= String.length s.
Proof.
  induction s as [|c s IH]; intros piece; cbn.
  - intros ->%list_elem_of_singleton. cbn. lia.
  - destruct (Ascii.eqb c "/").
    + intros [->|Hin]%elem_of_cons; [cbn; lia|]. specialize (IH _ Hin). lia.
    + destruct (split s) as [|piece0 pieces].
      * intros ->%list_elem_of_singleton. cbn. lia.
      * intros [->|Hin]%elem_of_cons.
        -- cbn. assert (String.length piece0 <= String.length s); [|lia].
           apply IH. by left.
        -- assert (String.length piece <= String.length s); [|lia].
           apply IH. by right.
Qed.

Lemma is_component_relative (s : string) :
  parse_parts s = [s] -> startswith "/" s = false.
Proof.
  intros Hparts. destruct s as [|c s]; [reflexivity|]. cbn [startswith].
  rewrite Ascii.eqb_sym. destruct (Ascii.eqb c "/") eqn:Hc; [|reflexivity].
  exfalso.
  assert (Hin : String c s ∈ parse_parts (String c s))
    by (rewrite Hparts; by left).
  unfold parse_parts in Hin. cbn [split] in Hin. rewrite Hc in Hin.
  apply list_elem_of_filter in Hin as [_ Hin].
  apply elem_of_cons in Hin as [?|Hin]; [discriminate|].
  apply split_piece_length in Hin. cbn in Hin. lia.
Qed.

Lemma is_component_joinpath (p : list string) (s : string) :
  is_component s = true -> joinpath p s = p ++ [s].
Proof.
  unfold is_component. intros [Hparts _]%andb_prop.
  apply bool_decide_eq_true in Hparts. unfold joinpath.
  by rewrite (is_component_relative s Hparts), Hparts.
Qed.

Lemma user_not_version_file : ~ version_file_name "user".
Proof.
  intros [v [H|H]].
  - pose proof (isdigit_str v) as Hd. by rewrite <- H in Hd.
  - apply (f_equal String.length) in H. rewrite append_length in H. cbn in H. lia.
Qed.

End artifact_names.

Section artifact_service_properties.
Import local_file_artifact_service.
Variable json_dumps : option string -> list Byte.byte.
Variable json_loads_mime : list Byte.byte -> Decoded.
Implicit Types (self : LocalFileArtifactService).
Implicit Types (fs : gmap (list string) Node) (p q : list string).
Implicit Types (app_name user_id session_id filename : string).

(** X23.  Saving an artifact with inline data, when nothing is in the way,
    succeeds and returns the next version: 0 for the first version of an
    artifact and one more than the highest version there otherwise, a
    version that no earlier save used; afterwards the versions listed are
    the former ones followed by the new one.  Nothing is in the way when
    the artifact directory has no [..] part and no NUL, no regular file
    lies on the path to it, and no directory in it has the name of a
    version file or of a metadata file. *)
Theorem save_returns_next_version self fs app_name user_id session_id filename
    (artifact : types.Part) (blob : types.Blob) (data : list Byte.byte) :
  layout fs ->
  plain (_get_artifact_dir self app_name user_id session_id filename) = true ->
  unobstructed fs (_get_artifact_dir self app_name user_id session_id filename) ->
  types.inline_data artifact = Some blob ->
  types.data blob = Some data ->
  exists versions version fs',
    _list_versions self fs app_name user_id session_id filename = inr versions
    /\ _save_artifact json_dumps self fs app_name user_id session_id filename
         artifact
       = (inr version, fs')
    /\ (versions = [] -> version = 0)
    /\ (versions <> [] -> version = max_list versions + 1)
    /\ (version ∉ versions)
    /\ _list_versions self fs' app_name user_id session_id filename
       = inr (versions ++ [version]).
Proof.
  intros Hlay Hplain Hfree Hblob Hdata.
  destruct (save_files json_dumps self fs app_name user_id session_id filename
              artifact blob data Hlay Hplain Hfree Hblob Hdata)
    as (versions & version & fs' & Hversions & Hlt & Hversion & Hsave & _ & _ & _
        & _ & _ & _ & Hlist).
  exists versions, version, fs'. split; [exact Hversions|]. split; [exact Hsave|].
  split; [by intros ->|]. split; [by destruct versions|].
  split; [|exact Hlist]. intros Hin. specialize (Hlt _ Hin). lia.
Qed.

(** X24.  What is saved can be loaded: after a save with nothing in its
    way, loading the artifact without a version, or with the version the
    save returned, gives a part with the bytes and the MIME type that were
    saved, provided the metadata reads back as it was written. *)
Theorem save_load_round_trip self fs app_name user_id session_id filename
    (artifact : types.Part) (blob : types.Blob) (data : list Byte.byte) :
  (forall m, json_loads_mime (json_dumps m) = Mime m) ->
  layout fs ->
  plain (_get_artifact_dir self app_name user_id session_id filename) = true ->
  unobstructed fs (_get_artifact_dir self app_name user_id session_id filename) ->
  types.inline_data artifact = Some blob ->
  types.data blob = Some data ->
  exists version fs',
    _save_artifact json_dumps self fs app_name user_id session_id filename
      artifact
    = (inr version, fs')
    /\ _load_artifact json_loads_mime self fs' app_name user_id session_id
         filename None
       = inr (Some (from_bytes data (types.mime_type blob)))
    /\ _load_artifact json_loads_mime self fs' app_name user_id session_id
         filename (Some (Z.of_nat version))
       = inr (Some (from_bytes data (types.mime_type blob))).
Proof.
  intros Hjson Hlay Hplain Hfree Hblob Hdata.
  destruct (save_files json_dumps self fs app_name user_id session_id filename
              artifact blob data Hlay Hplain Hfree Hblob Hdata)
    as (versions & version & fs' & Hversions & Hlt & Hversion & Hsave & Hlay' & _
        & Hfile & Hmeta & _ & _ & Hlist).
  exists version, fs'. split; [exact Hsave|].
  assert (Hexplicit :
            _load_artifact json_loads_mime self fs' app_name user_id session_id
              filename (Some (Z.of_nat version))
            = inr (Some (from_bytes data (types.mime_type blob)))).
  { rewrite load_version_spec by auto using layout_tree.
    by rewrite str_int_of_nat, Hfile, Hmeta, Hjson. }
  split; [|exact Hexplicit].
  assert (Hmax : max_list (versions ++ [version]) = version).
  { apply max_list_is.
    - rewrite elem_of_app, list_elem_of_singleton. by right.
    - intros x. rewrite elem_of_app, list_elem_of_singleton.
      intros [Hx| ->]; [specialize (Hlt _ Hx)|]; lia. }
  unfold _load_artifact in *. rewrite Hlist.
  destruct (versions ++ [version]) as [|v l] eqn:Happ;
    [by apply app_eq_nil in Happ as [_ ?]|].
  by rewrite Hmax.
Qed.

(** X25.  A save with nothing in its way touches nothing but the version
    it writes: the other versions of the same artifact load as before, and
    every other artifact loads as before, with or without a version, and
    has the versions it had.  Another artifact is one whose directory,
    without [..] part and NUL, is neither the directory saved to nor one
    of the two files written. *)
Theorem save_keeps_the_rest self fs app_name user_id session_id filename
    (artifact : types.Part) (blob : types.Blob) (data : list Byte.byte) :
  layout fs ->
  plain (_get_artifact_dir self app_name user_id session_id filename) = true ->
  unobstructed fs (_get_artifact_dir self app_name user_id session_id filename) ->
  types.inline_data artifact = Some blob ->
  types.data blob = Some data ->
  exists version fs',
    _save_artifact json_dumps self fs app_name user_id session_id filename
      artifact
    = (inr version, fs')
    /\ (forall n : nat, n <> version ->
          _load_artifact json_loads_mime self fs' app_name user_id session_id
            filename (Some (Z.of_nat n))
          = _load_artifact json_loads_mime self fs app_name user_id session_id
              filename (Some (Z.of_nat n)))
    /\ (forall app_name' user_id' session_id' filename' version',
          plain (_get_artifact_dir self app_name' user_id' session_id' filename')
          = true ->
          _get_artifact_dir self app_name' user_id' session_id' filename'
          <> _get_artifact_dir self app_name user_id session_id filename ->
          _get_artifact_dir self app_name' user_id' session_id' filename'
          <> _get_artifact_file_path self app_name user_id session_id filename
               (Z.of_nat version) ->
          _get_artifact_dir self app_name' user_id' session_id' filename'
          <> _get_metadata_file_path self app_name user_id session_id filename
               (Z.of_nat version) ->
          _load_artifact json_loads_mime self fs' app_name' user_id' session_id'
            filename' version'
          = _load_artifact json_loads_mime self fs app_name' user_id' session_id'
              filename' version'
          /\ _list_versions self fs' app_name' user_id' session_id' filename'
             = _list_versions self fs app_name' user_id' session_id' filename').
Proof.
  intros Hlay Hplain Hfree Hblob Hdata.
  destruct (save_files json_dumps self fs app_name user_id session_id filename
              artifact blob data Hlay Hplain Hfree Hblob Hdata)
    as (versions & version & fs' & _ & _ & _ & Hsave & Hlay' & _ & _ & _ & Hfiles
        & _ & _).
  exists version, fs'. split; [exact Hsave|]. split.
  - intros n Hn. rewrite !load_version_spec by auto using layout_tree.
    rewrite str_int_of_nat. rewrite !Hfiles; [reflexivity|..].
    + intros H. apply app_inj_tail in H as [_ H]. symmetry in H.
      by apply str_not_metadata in H.
    + intros H. apply app_inj_tail in H as [_ H].
      by apply append_suffix_inj, str_inj in H.
    + intros H. apply app_inj_tail in H as [_ H]. by apply str_inj in H.
    + intros H. apply app_inj_tail in H as [_ H]. by apply str_not_metadata in H.
  - intros app_name' user_id' session_id' filename' version' Hplain' Hdir Hfile
      Hmeta.
    rewrite artifact_file_path in Hfile. rewrite metadata_file_path in Hmeta.
    assert (Hsame : file_content fs'
                      (_get_artifact_dir self app_name' user_id' session_id'
                         filename')
                    = file_content fs
                        (_get_artifact_dir self app_name' user_id' session_id'
                           filename')) by by apply Hfiles.
    assert (Hagree : forall n,
              file_content fs'
                (_get_artifact_dir self app_name' user_id' session_id' filename'
                 ++ [n])
              = file_content fs
                  (_get_artifact_dir self app_name' user_id' session_id' filename'
                   ++ [n])).
    { intros n. apply Hfiles.
      - intros H. by apply app_inj_tail in H as [? _].
      - intros H. by apply app_inj_tail in H as [? _]. }
    split; [by apply load_artifact_ext|by apply list_versions_ext].
Qed.

(** X26.  Deleting an artifact removes its directory with all its
    versions, and nothing else: for an artifact directory without [..]
    part and NUL that is not the root and not a regular file, the deletion
    succeeds whether or not the artifact exists; afterwards the artifact
    has no version, loading it gives [None] for any version, nothing is
    left at or below its directory, and every other path is as before. *)
Theorem delete_removes_all_versions self fs app_name user_id session_id filename :
  layout fs ->
  plain (_get_artifact_dir self app_name user_id session_id filename) = true ->
  _get_artifact_dir self app_name user_id session_id filename <> [] ->
  (forall content,
     fs !! _get_artifact_dir self app_name user_id session_id filename
     <> Some (File content)) ->
  exists fs',
    _delete_artifact self fs app_name user_id session_id filename = (None, fs')
    /\ _list_versions self fs' app_name user_id session_id filename = inr []
    /\ (forall version,
          _load_artifact json_loads_mime self fs' app_name user_id session_id
            filename version = inr None)
    /\ (forall p,
          strip_prefix (_get_artifact_dir self app_name user_id session_id filename)
            p = None ->
          fs' !! p = fs !! p)
    /\ (forall p,
          fs' !! (_get_artifact_dir self app_name user_id session_id filename ++ p)
          = None).
Proof.
  intros Hlay Hplain Hne Hnofile. pose proof (layout_tree fs Hlay) as Htree.
  unfold _delete_artifact. rewrite exists_plain by done.
  set (dir := _get_artifact_dir self app_name user_id session_id filename) in *.
  destruct (fs !! dir) as [[content|]|] eqn:Hdir.
  - by destruct (Hnofile content).
  - rewrite bool_decide_eq_true_2 by eauto.
    unfold rmtree. rewrite (resolve_tree fs dir Dir Htree Hdir), Hdir.
    set (emptied := filter (fun entry : list string * Node =>
                              strip_prefix dir entry.1 = None \/ entry.1 = dir) fs).
    pose proof (emptied_layout fs dir Hlay) as Hlay1. fold emptied in Hlay1.
    assert (Hdir1 : emptied !! dir = Some Dir)
      by (apply emptied_lookup; split; [exact Hdir|by right]).
    assert (Hbelow : forall p, p <> [] -> emptied !! (dir ++ p) = None).
    { intros p Hp. destruct (emptied !! (dir ++ p)) as [node|] eqn:H;
        [|reflexivity].
      apply emptied_lookup in H as [_ [H|H]].
      - by rewrite strip_prefix_app in H.
      - rewrite <- (app_nil_r dir) in H at 2. by apply app_inv_head in H. }
    assert (Hempty : omap (child_name dir) (map_to_list emptied).*1 = []).
    { apply elem_of_nil_inv. intros n Hn.
      apply (children_spec emptied dir) in Hn as [node Hnode].
      by rewrite Hbelow in Hnode. }
    unfold os_rmdir.
    rewrite (resolve_tree emptied dir Dir (layout_tree _ Hlay1) Hdir1), Hdir1.
    rewrite bool_decide_eq_false_2.
    2:{ intros [H|[H|H]]; [by apply (plain_last dir Hplain)|done|done]. }
    assert (Hlay' : layout (delete dir emptied)).
    { pose proof (rmtree_layout fs dir Hlay) as H. unfold rmtree in H.
      rewrite (resolve_tree fs dir Dir Htree Hdir), Hdir in H. fold emptied in H.
      unfold os_rmdir in H.
      rewrite (resolve_tree emptied dir Dir (layout_tree _ Hlay1) Hdir1), Hdir1
        in H.
      rewrite bool_decide_eq_false_2 in H; [exact H|].
      intros [H'|[H'|H']]; [by apply (plain_last dir Hplain)|done|done]. }
    assert (Hgone : delete dir emptied !! dir = None) by apply lookup_delete_eq.
    exists (delete dir emptied). split; [reflexivity|].
    split; [by apply (missing_artifact json_loads_mime self _ _ _ _ _ None)|].
    split; [intros version; by apply missing_artifact|]. split.
    + intros p Hp. rewrite lookup_delete_ne.
      2:{ intros <-. pose proof (strip_prefix_app dir []) as H.
          rewrite app_nil_r in H. congruence. }
      destruct (fs !! p) as [node|] eqn:Hnode.
      * apply emptied_lookup. split; [exact Hnode|by left].
      * destruct (emptied !! p) as [node|] eqn:H; [|reflexivity].
        apply emptied_lookup in H as [H _]. congruence.
    + intros p. destruct p as [|part p].
      * by rewrite app_nil_r.
      * rewrite lookup_delete_ne; [by apply Hbelow|].
        intros H. rewrite <- (app_nil_r dir) in H at 1. by apply app_inv_head in H.
  - rewrite bool_decide_eq_false_2 by (by intros [? ?]).
    exists fs. split; [reflexivity|].
    split; [by apply (missing_artifact json_loads_mime self _ _ _ _ _ None)|].
    split; [intros version; by apply missing_artifact|]. split; [done|].
    intros p. destruct p as [|part p]; [by rewrite app_nil_r|].
    destruct (fs !! (dir ++ part :: p)) as [node|] eqn:H; [|reflexivity].
    apply tree_prefix in H; [congruence|exact Htree|done].
Qed.

(** X27.  An artifact whose name starts with [user:] belongs to the user
    and not to a session: saved in one session, with nothing in the way,
    it is loaded, with the same result, from any other session of the same
    user, and it has the same versions there, provided the metadata reads
    back as it was written. *)
Theorem user_namespace_shared_across_sessions self fs app_name user_id session_id
    filename (artifact : types.Part) (blob : types.Blob) (data : list Byte.byte) :
  (forall m, json_loads_mime (json_dumps m) = Mime m) ->
  layout fs ->
  plain (_get_artifact_dir self app_name user_id session_id filename) = true ->
  unobstructed fs (_get_artifact_dir self app_name user_id session_id filename) ->
  _file_has_user_namespace filename = true ->
  types.inline_data artifact = Some blob ->
  types.data blob = Some data ->
  exists version fs',
    _save_artifact json_dumps self fs app_name user_id session_id filename
      artifact
    = (inr version, fs')
    /\ forall session_id',
         _load_artifact json_loads_mime self fs' app_name user_id session_id'
           filename None
         = inr (Some (from_bytes data (types.mime_type blob)))
         /\ _list_versions self fs' app_name user_id session_id' filename
            = _list_versions self fs' app_name user_id session_id filename.
Proof.
  intros Hjson Hlay Hplain Hfree Huser Hblob Hdata.
  destruct (save_files json_dumps self fs app_name user_id session_id filename
              artifact blob data Hlay Hplain Hfree Hblob Hdata)
    as (versions & version & fs' & Hversions & Hlt & Hversion & Hsave & Hlay' & _
        & Hfile & Hmeta & _ & _ & Hlist).
  exists version, fs'. split; [exact Hsave|]. intros session_id'.
  assert (Hdir : _get_artifact_dir self app_name user_id session_id' filename
                 = _get_artifact_dir self app_name user_id session_id filename)
    by (unfold _get_artifact_dir; by rewrite Huser).
  assert (Hmax : max_list (versions ++ [version]) = version).
  { apply max_list_is.
    - rewrite elem_of_app, list_elem_of_singleton. by right.
    - intros x. rewrite elem_of_app, list_elem_of_singleton.
      intros [Hx| ->]; [specialize (Hlt _ Hx)|]; lia. }
  assert (Hlist' : _list_versions self fs' app_name user_id session_id' filename
                   = inr (versions ++ [version])).
  { rewrite <- Hlist. unfold _list_versions. by rewrite Hdir. }
  split; [|by rewrite Hlist', Hlist].
  assert (Hexplicit :
            _load_artifact json_loads_mime self fs' app_name user_id session_id'
              filename (Some (Z.of_nat version))
            = inr (Some (from_bytes data (types.mime_type blob)))).
  { rewrite load_version_spec by (rewrite ?Hdir; auto using layout_tree).
    by rewrite Hdir, str_int_of_nat, Hfile, Hmeta, Hjson. }
  unfold _load_artifact in *. rewrite Hlist'.
  destruct (versions ++ [version]) as [|v l] eqn:Happ;
    [by apply app_eq_nil in Happ as [_ ?]|].
  by rewrite Hmax.
Qed.

(** X28.  The service keeps its file tree in shape.  A tree is in shape
    when its root is a directory, every other node lies in a directory, no
    part of a path is [..] or has a NUL, and every regular file has the
    name of a version, a number, or of the metadata file of one.  The tree
    with nothing but the root is in shape; and from a tree in shape
    [__init__], any save and any deletion, successful or not and whatever
    the names, leave a tree in shape. *)
Theorem layout_preserved self fs resolved app_name user_id session_id filename
    (artifact : types.Part) :
  layout empty_fs
  /\ (layout fs -> layout (__init__ fs resolved).2)
  /\ (layout fs ->
      layout (_save_artifact json_dumps self fs app_name user_id session_id
                filename artifact).2)
  /\ (layout fs ->
      layout (_delete_artifact self fs app_name user_id session_id filename).2).
Proof.
  split; [exact empty_fs_layout|]. split; [apply init_layout|].
  split; [apply save_layout|apply delete_layout].
Qed.

(** X29.  The keys listed for a session are the names of the directories
    in the directory of that session together with those in the directory
    of the user namespace, each once, in ascending order, when the two
    directories have no [..] part and no NUL and neither is a regular
    file. *)
Theorem list_artifact_keys_spec self fs app_name user_id session_id :
  layout fs ->
  plain (session_dir self app_name user_id session_id) = true ->
  plain (user_namespace_dir self app_name user_id) = true ->
  (forall content,
     fs !! session_dir self app_name user_id session_id <> Some (File content)) ->
  (forall content,
     fs !! user_namespace_dir self app_name user_id <> Some (File content)) ->
  exists keys,
    _list_artifact_keys self fs app_name user_id session_id = inr keys
    /\ Sorted str_le keys
    /\ NoDup keys
    /\ (forall key,
          key ∈ keys
          <-> fs !! (session_dir self app_name user_id session_id ++ [key])
              = Some Dir
              \/ fs !! (user_namespace_dir self app_name user_id ++ [key])
                 = Some Dir).
Proof. apply list_artifact_keys_mem. Qed.

(** X30.  A save adds the first part of the name of the artifact to the
    keys of its session, and nothing else: after a save with nothing in
    its way, of a relative name with at least one part, in a session whose
    id is one path part and whose directory is not a regular file, the
    keys listed are the first part of the name and the keys listed before;
    the first part is the whole name when the name is one path part. *)
Theorem saved_artifact_is_listed self fs app_name user_id session_id filename
    (key : string) (rest : list string)
    (artifact : types.Part) (blob : types.Blob) (data : list Byte.byte) :
  layout fs ->
  plain (_get_artifact_dir self app_name user_id session_id filename) = true ->
  unobstructed fs (_get_artifact_dir self app_name user_id session_id filename) ->
  is_component session_id = true ->
  startswith "/" filename = false ->
  parse_parts filename = key :: rest ->
  (forall content,
     fs !! session_dir self app_name user_id session_id <> Some (File content)) ->
  types.inline_data artifact = Some blob ->
  types.data blob = Some data ->
  exists version fs' keys keys',
    _save_artifact json_dumps self fs app_name user_id session_id filename
      artifact
    = (inr version, fs')
    /\ _list_artifact_keys self fs app_name user_id session_id = inr keys
    /\ _list_artifact_keys self fs' app_name user_id session_id = inr keys'
    /\ (forall k, k ∈ keys' <-> k = key \/ k ∈ keys)
    /\ (is_component filename = true -> key = filename).
Proof.
  intros Hlay Hplain Hfree Hsession Hrelative Hparts Hsfile Hblob Hdata.
  destruct (save_files json_dumps self fs app_name user_id session_id filename
              artifact blob data Hlay Hplain Hfree Hblob Hdata)
    as (versions & version & fs' & _ & _ & _ & Hsave & Hlay' & Hdir & _ & _
        & Hfiles & Hdirs & _).
  set (above := joinpath (joinpath (base_path self) app_name) user_id).
  assert (Hsdir : session_dir self app_name user_id session_id
                  = above ++ [session_id])
    by (unfold session_dir; fold above; by apply is_component_joinpath).
  assert (Hudir : user_namespace_dir self app_name user_id = above ++ ["user"])
    by (unfold user_namespace_dir; fold above; by apply joinpath_single).
  set (home := if _file_has_user_namespace filename
               then user_namespace_dir self app_name user_id
               else session_dir self app_name user_id session_id).
  assert (Hhome : _get_artifact_dir self app_name user_id session_id filename
                  = home ++ key :: rest).
  { unfold _get_artifact_dir, home, user_namespace_dir, session_dir.
    fold above. destruct (_file_has_user_namespace filename);
      unfold joinpath at 1; by rewrite Hrelative, Hparts. }
  set (dir := _get_artifact_dir self app_name user_id session_id filename) in *.
  assert (Hlen : length home = S (length above)).
  { unfold home. destruct (_file_has_user_namespace filename);
      rewrite ?Hsdir, ?Hudir, length_app; cbn; lia. }
  assert (Hplain_home : plain home = true).
  { rewrite Hhome, plain_app in Hplain. by apply andb_prop in Hplain as [? _]. }
  assert (Hplain_above : plain above = true).
  { unfold home in Hplain_home. destruct (_file_has_user_namespace filename);
      rewrite ?Hsdir, ?Hudir, plain_app in Hplain_home;
      by apply andb_prop in Hplain_home as [? _]. }
  assert (Hps : plain (session_dir self app_name user_id session_id) = true).
  { rewrite Hsdir, plain_app, Hplain_above. cbn [andb].
    unfold is_component in Hsession. by apply andb_prop in Hsession as [_ ?]. }
  assert (Hpu : plain (user_namespace_dir self app_name user_id) = true)
    by (by rewrite Hudir, plain_app, Hplain_above).
  assert (Hufile : forall content,
            fs !! user_namespace_dir self app_name user_id
            <> Some (File content)).
  { intros content H. rewrite Hudir in H.
    apply (layout_file_name fs _ _ _ Hlay) in H.
    by apply user_not_version_file in H. }
  assert (Hshort : forall n name, above ++ [n] <> dir ++ [name]).
  { intros n name H. apply (f_equal length) in H.
    rewrite Hhome, !length_app in H. cbn in H. lia. }
  assert (Hsfile' : forall content,
            fs' !! session_dir self app_name user_id session_id
            <> Some (File content)).
  { intros content H. apply file_content_Some in H.
    rewrite Hfiles in H by (rewrite Hsdir; apply Hshort).
    apply file_content_Some in H. by apply (Hsfile content). }
  assert (Hufile' : forall content,
            fs' !! user_namespace_dir self app_name user_id
            <> Some (File content)).
  { intros content H. apply file_content_Some in H.
    rewrite Hfiles in H by (rewrite Hudir; apply Hshort).
    apply file_content_Some in H. by apply (Hufile content). }
  destruct (list_artifact_keys_mem self fs app_name user_id session_id Hlay Hps Hpu
              Hsfile Hufile) as (keys & Hkeys & _ & _ & Hmem).
  destruct (list_artifact_keys_mem self fs' app_name user_id session_id Hlay' Hps
              Hpu Hsfile' Hufile') as (keys' & Hkeys' & _ & _ & Hmem').
  exists version, fs', keys, keys'.
  split; [exact Hsave|]. split; [exact Hkeys|]. split; [exact Hkeys'|].
  split.
  2:{ unfold is_component. intros [H _]%andb_prop.
      apply bool_decide_eq_true in H. congruence. }
  assert (Hfirst : fs' !! (home ++ [key]) = Some Dir).
  { destruct rest as [|part rest]; [by rewrite <- Hhome|].
    replace (home ++ [key]) with (take (S (length home)) dir).
    - eapply tree_take; [by apply layout_tree|exact Hdir|].
      rewrite Hhome, length_app. cbn. lia.
    - rewrite Hhome. rewrite take_app_ge by lia.
      replace (S (length home) - length home) with 1 by lia. reflexivity. }
  assert (Hnew : forall n k j, above ++ [n; k] = take j dir -> k = key).
  { intros n k j H.
    assert (Hj : take j dir = take (S (length home)) dir).
    { pose proof (f_equal length H) as Hl.
      rewrite length_app, length_take in Hl. cbn in Hl.
      destruct (decide (j <= length dir)) as [Hle|Hgt].
      - f_equal. lia.
      - rewrite !take_ge; [reflexivity| |lia].
        rewrite Nat.min_r in Hl by lia. lia. }
    rewrite Hj, Hhome in H. rewrite take_app_ge in H by lia.
    replace (S (length home) - length home) with 1 in H by lia. cbn in H.
    change (above ++ [n; k]) with (above ++ [n] ++ [k]) in H.
    rewrite app_assoc in H. by apply app_inj_tail in H as [_ ?]. }
  intros k. rewrite Hmem', Hmem, !Hdirs, Hsdir, Hudir, <- !app_assoc. cbn [app].
  split.
  - intros [[H|(_ & j & H)]|[H|(_ & j & H)]]; eauto; left; by eapply Hnew.
  - intros [->|[H|H]]; [|by left; left|by right; left].
    unfold home in Hfirst. apply Hdirs in Hfirst.
    destruct (_file_has_user_namespace filename);
      rewrite ?Hsdir, ?Hudir, <- ?app_assoc in Hfirst; cbn [app] in Hfirst;
      [by right|by left].
Qed.

End artifact_service_properties.

Section artifact_service_instances.
Import local_file_artifact_service.

Lemma one_report_layout : layout one_report.
Proof. apply save_layout, init_layout, empty_fs_layout. Qed.

Lemma one_report_unobstructed :
  unobstructed one_report (_get_artifact_dir srv "app" "alice" "s1" "report.png").
Proof.
  apply (save_unobstructed toy_dumps srv _ "app" "alice" "s1" "report.png" png
           {| types.data := Some [Byte.x89; Byte.x50];
              types.mime_type := Some "image/png" |} [Byte.x89; Byte.x50]);
    try reflexivity.
  - apply init_layout, empty_fs_layout.
  - apply unobstructed_absent;
      [apply layout_tree, init_layout, empty_fs_layout|by vm_compute..].
Qed.

Lemma one_report_absent_unobstructed filename :
  one_report !! _get_artifact_dir srv "app" "alice" "s1" filename = None ->
  forallb (fun k => bool_decide
                      (file_content one_report
                         (take k (_get_artifact_dir srv "app" "alice" "s1" filename))
                       = None))
          (seq 0 (length (_get_artifact_dir srv "app" "alice" "s1" filename)))
  = true ->
  unobstructed one_report (_get_artifact_dir srv "app" "alice" "s1" filename).
Proof.
  intros Hdir Hcheck.
  apply unobstructed_absent; [apply layout_tree, one_report_layout|done..].
Qed.

Lemma save_returns_next_version_witness :
  layout one_report
  /\ plain (_get_artifact_dir srv "app" "alice" "s1" "report.png") = true
  /\ unobstructed one_report
       (_get_artifact_dir srv "app" "alice" "s1" "report.png")
  /\ exists versions version fs',
       _list_versions srv one_report "app" "alice" "s1" "report.png"
       = inr versions
       /\ _save_artifact toy_dumps srv one_report "app" "alice" "s1" "report.png"
            png
          = (inr version, fs')
       /\ (versions = [] -> version = 0)
       /\ (versions <> [] -> version = max_list versions + 1)
       /\ (version ∉ versions)
       /\ _list_versions srv fs' "app" "alice" "s1" "report.png"
          = inr (versions ++ [version]).
Proof.
  split; [exact one_report_layout|]. split; [reflexivity|].
  split; [exact one_report_unobstructed|].
  exact (save_returns_next_version toy_dumps srv one_report "app" "alice" "s1"
           "report.png" png _ _ one_report_layout eq_refl one_report_unobstructed
           eq_refl eq_refl).
Defined.

Lemma save_load_round_trip_witness :
  (forall m, toy_loads (toy_dumps m) = Mime m)
  /\ layout one_report
  /\ plain (_get_artifact_dir srv "app" "alice" "s1" "report.png") = true
  /\ unobstructed one_report
       (_get_artifact_dir srv "app" "alice" "s1" "report.png")
  /\ exists version fs',
       _save_artifact toy_dumps srv one_report "app" "alice" "s1" "report.png" png
       = (inr version, fs')
       /\ _load_artifact toy_loads srv fs' "app" "alice" "s1" "report.png" None
          = inr (Some png)
       /\ _load_artifact toy_loads srv fs' "app" "alice" "s1" "report.png"
            (Some (Z.of_nat version))
          = inr (Some png).
Proof.
  split; [exact toy_round_trip|]. split; [exact one_report_layout|].
  split; [reflexivity|]. split; [exact one_report_unobstructed|].
  exact (save_load_round_trip toy_dumps toy_loads srv one_report "app" "alice"
           "s1" "report.png" png _ _ toy_round_trip one_report_layout eq_refl
           one_report_unobstructed eq_refl eq_refl).
Defined.

Lemma save_keeps_the_rest_witness :
  layout one_report
  /\ plain (_get_artifact_dir srv "app" "alice" "s1" "report.png") = true
  /\ unobstructed one_report
       (_get_artifact_dir srv "app" "alice" "s1" "report.png")
  /\ exists version fs',
       _save_artifact toy_dumps srv one_report "app" "alice" "s1" "report.png" png
       = (inr version, fs')
       /\ (forall n : nat, n <> version ->
             _load_artifact toy_loads srv fs' "app" "alice" "s1" "report.png"
               (Some (Z.of_nat n))
             = _load_artifact toy_loads srv one_report "app" "alice" "s1"
                 "report.png" (Some (Z.of_nat n)))
       /\ (forall app_name' user_id' session_id' filename' version',
             plain (_get_artifact_dir srv app_name' user_id' session_id' filename')
             = true ->
             _get_artifact_dir srv app_name' user_id' session_id' filename'
             <> _get_artifact_dir srv "app" "alice" "s1" "report.png" ->
             _get_artifact_dir srv app_name' user_id' session_id' filename'
             <> _get_artifact_file_path srv "app" "alice" "s1" "report.png"
                  (Z.of_nat version) ->
             _get_artifact_dir srv app_name' user_id' session_id' filename'
             <> _get_metadata_file_path srv "app" "alice" "s1" "report.png"
                  (Z.of_nat version) ->
             _load_artifact toy_loads srv fs' app_name' user_id' session_id'
               filename' version'
             = _load_artifact toy_loads srv one_report app_name' user_id'
                 session_id' filename' version'
             /\ _list_versions srv fs' app_name' user_id' session_id' filename'
                = _list_versions srv one_report app_name' user_id' session_id'
                    filename').
Proof.
  split; [exact one_report_layout|]. split; [reflexivity|].
  split; [exact one_report_unobstructed|].
  exact (save_keeps_the_rest toy_dumps toy_loads srv one_report "app" "alice" "s1"
           "report.png" png _ _ one_report_layout eq_refl one_report_unobstructed
           eq_refl eq_refl).
Defined.

Lemma delete_removes_all_versions_witness :
  layout one_report
  /\ plain (_get_artifact_dir srv "app" "alice" "s1" "report.png") = true
  /\ _get_artifact_dir srv "app" "alice" "s1" "report.png" <> []
  /\ (forall content,
        one_report !! _get_artifact_dir srv "app" "alice" "s1" "report.png"
        <> Some (File content))
  /\ exists fs',
       _delete_artifact srv one_report "app" "alice" "s1" "report.png"
       = (None, fs')
       /\ _list_versions srv fs' "app" "alice" "s1" "report.png" = inr []
       /\ (forall version,
             _load_artifact toy_loads srv fs' "app" "alice" "s1" "report.png"
               version
             = inr None)
       /\ (forall p,
             strip_prefix (_get_artifact_dir srv "app" "alice" "s1" "report.png") p
             = None ->
             fs' !! p = one_report !! p)
       /\ (forall p,
             fs' !! (_get_artifact_dir srv "app" "alice" "s1" "report.png" ++ p)
             = None).
Proof.
  assert (Hne : _get_artifact_dir srv "app" "alice" "s1" "report.png" <> [])
    by (vm_compute; discriminate).
  assert (Hnofile : forall content,
            one_report !! _get_artifact_dir srv "app" "alice" "s1" "report.png"
            <> Some (File content))
    by (intros content; vm_compute; discriminate).
  split; [exact one_report_layout|]. split; [reflexivity|].
  split; [exact Hne|]. split; [exact Hnofile|].
  exact (delete_removes_all_versions toy_loads srv one_report "app" "alice" "s1"
           "report.png" one_report_layout eq_refl Hne Hnofile).
Defined.

Lemma user_namespace_shared_across_sessions_witness :
  (forall m, toy_loads (toy_dumps m) = Mime m)
  /\ layout one_report
  /\ plain (_get_artifact_dir srv "app" "alice" "s1" "user:avatar.png") = true
  /\ unobstructed one_report
       (_get_artifact_dir srv "app" "alice" "s1" "user:avatar.png")
  /\ _file_has_user_namespace "user:avatar.png" = true
  /\ exists version fs',
       _save_artifact toy_dumps srv one_report "app" "alice" "s1"
         "user:avatar.png" png
       = (inr version, fs')
       /\ forall session_id',
            _load_artifact toy_loads srv fs' "app" "alice" session_id'
              "user:avatar.png" None
            = inr (Some png)
            /\ _list_versions srv fs' "app" "alice" session_id' "user:avatar.png"
               = _list_versions srv fs' "app" "alice" "s1" "user:avatar.png".
Proof.
  assert (Hfree : unobstructed one_report
                    (_get_artifact_dir srv "app" "alice" "s1" "user:avatar.png"))
    by (apply one_report_absent_unobstructed; by vm_compute).
  split; [exact toy_round_trip|]. split; [exact one_report_layout|].
  split; [reflexivity|]. split; [exact Hfree|]. split; [reflexivity|].
  exact (user_namespace_shared_across_sessions toy_dumps toy_loads srv one_report
           "app" "alice" "s1" "user:avatar.png" png _ _ toy_round_trip
           one_report_layout eq_refl Hfree eq_refl eq_refl eq_refl).
Defined.

Lemma layout_preserved_witness :
  layout empty_fs
  /\ layout (__init__ empty_fs ["srv"; "artifacts"]).2
  /\ layout one_report
  /\ layout (_delete_artifact srv one_report "app" "alice" "s1" "report.png").2.
Proof.
  destruct (layout_preserved toy_dumps srv empty_fs ["srv"; "artifacts"] "app"
              "alice" "s1" "report.png" png)
    as (Hempty & Hinit & _ & _).
  destruct (layout_preserved toy_dumps srv
              (__init__ empty_fs ["srv"; "artifacts"]).2 ["srv"; "artifacts"]
              "app" "alice" "s1" "report.png" png)
    as (_ & _ & Hsave & _).
  destruct (layout_preserved toy_dumps srv one_report ["srv"; "artifacts"] "app"
              "alice" "s1" "report.png" png)
    as (_ & _ & _ & Hdelete).
  split; [exact Hempty|]. split; [exact (Hinit Hempty)|].
  split; [exact (Hsave (Hinit Hempty))|exact (Hdelete (Hsave (Hinit Hempty)))].
Defined.

Lemma list_artifact_keys_spec_witness :
  layout one_report
  /\ plain (session_dir srv "app" "alice" "s1") = true
  /\ plain (user_namespace_dir srv "app" "alice") = true
  /\ (forall content,
        one_report !! session_dir srv "app" "alice" "s1" <> Some (File content))
  /\ (forall content,
        one_report !! user_namespace_dir srv "app" "alice" <> Some (File content))
  /\ exists keys,
       _list_artifact_keys srv one_report "app" "alice" "s1" = inr keys
       /\ Sorted str_le keys
       /\ NoDup keys
       /\ (forall key,
             key ∈ keys
             <-> one_report !! (session_dir srv "app" "alice" "s1" ++ [key])
                 = Some Dir
                 \/ one_report !! (user_namespace_dir srv "app" "alice" ++ [key])
                    = Some Dir).
Proof.
  assert (Hsession : forall content,
            one_report !! session_dir srv "app" "alice" "s1"
            <> Some (File content))
    by (intros content; vm_compute; discriminate).
  assert (Huser : forall content,
            one_report !! user_namespace_dir srv "app" "alice"
            <> Some (File content))
    by (intros content; vm_compute; discriminate).
  split; [exact one_report_layout|]. do 2 (split; [reflexivity|]).
  split; [exact Hsession|]. split; [exact Huser|].
  exact (list_artifact_keys_spec srv one_report "app" "alice" "s1"
           one_report_layout eq_refl eq_refl Hsession Huser).
Defined.

Lemma saved_artifact_is_listed_witness :
  layout one_report
  /\ plain (_get_artifact_dir srv "app" "alice" "s1" "docs/notes.txt") = true
  /\ unobstructed one_report
       (_get_artifact_dir srv "app" "alice" "s1" "docs/notes.txt")
  /\ is_component "s1" = true
  /\ startswith "/" "docs/notes.txt" = false
  /\ parse_parts "docs/notes.txt" = ["docs"; "notes.txt"]
  /\ (forall content,
        one_report !! session_dir srv "app" "alice" "s1" <> Some (File content))
  /\ exists version fs' keys keys',
       _save_artifact toy_dumps srv one_report "app" "alice" "s1" "docs/notes.txt"
         png
       = (inr version, fs')
       /\ _list_artifact_keys srv one_report "app" "alice" "s1" = inr keys
       /\ _list_artifact_keys srv fs' "app" "alice" "s1" = inr keys'
       /\ (forall k, k ∈ keys' <-> k = "docs" \/ k ∈ keys)
       /\ (is_component "docs/notes.txt" = true -> "docs" = "docs/notes.txt").
Proof.
  assert (Hfree : unobstructed one_report
                    (_get_artifact_dir srv "app" "alice" "s1" "docs/notes.txt"))
    by (apply one_report_absent_unobstructed; by vm_compute).
  assert (Hsession : forall content,
            one_report !! session_dir srv "app" "alice" "s1"
            <> Some (File content))
    by (intros content; vm_compute; discriminate).
  split; [exact one_report_layout|]. split; [reflexivity|].
  split; [exact Hfree|]. do 3 (split; [reflexivity|]). split; [exact Hsession|].
  exact (saved_artifact_is_listed toy_dumps srv one_report "app" "alice" "s1"
           "docs/notes.txt" "docs" ["notes.txt"] png _ _ one_report_layout eq_refl
           Hfree eq_refl eq_refl eq_refl Hsession eq_refl eq_refl).
Defined.

End artifact_service_instances.
